(** * The ephemeral-artifact lifecycle manager of file-tools-app

    A shallow embedding of

      - [apps/backend/src/lib/deleteScheduler.ts]  (marker store, deletion
        scheduler, TTL sweeper, hydrator), and
      - [lib/workspace.ts]                         (workspace provisioner),

    over an explicit model of the Node.js environment they run in: the
    file system ([fs]), the timer queue of the event loop ([setTimeout],
    [clearTimeout]), the wall clock ([Date.now]) and the logger.

    Modelling conventions.

      - A path is the list of its components below the file-system root;
        an empty component stands for a doubled or trailing separator, so
        the string operations of the source ([filePath + '.created'],
        [full.slice(0, -n)]) act on the last component.
      - The file system is an association list from normalised paths to
        nodes; [readdirSync] lists children in the order of that list, so
        nothing depends on a particular directory order.
      - The file system raises the structural errors only: [ENOENT],
        [EISDIR], [ENOTDIR], [EEXIST].
      - JavaScript numbers are exact integers plus [NaN]; timestamps are
        whole milliseconds. This is what the code computes as long as the
        numbers are safe integers (below [2 ^ 53] in absolute value);
        beyond that JavaScript rounds, and reads a numeral of some 309
        digits or more as an infinity. The statements that read a number
        from a marker file name the range: [safe_integer], [plain_stamp],
        [exact_created], [exact_remaining].
      - File names and contents are strings of 8-bit characters; the
        string operations agree with JavaScript's on ASCII text.
      - Code runs to completion on one thread: a synchronous call sees one
        value of the clock. *)

From stdpp Require Import base option list strings gmap pretty.
From Stdlib Require Import Ascii ZArith Lia.

Local Open Scope Z_scope.

(** ** Strings *)

Module Str.

(** [s.endsWith(suf)] *)
Fixpoint endsWith (s suf : string) : bool :=
  if bool_decide (s = suf) then true
  else match s with
       | EmptyString => false
       | String _ s' => endsWith s' suf
       end.

Fixpoint take (n : nat) (s : string) : string :=
  match n, s with
  | S n', String c s' => String c (take n' s')
  | _, _ => EmptyString
  end.

(** [s.slice(0, -n)] for [n > 0] *)
Definition slice_end (s : string) (n : nat) : string :=
  take (String.length s - n) s.

Fixpoint skip_ws (s : string) : string :=
  match s with
  | String c s' => if Ascii.is_space c then skip_ws s' else s
  | EmptyString => EmptyString
  end.

(** [s.trim()] of a string of ASCII characters: the white space of
    JavaScript outside ASCII is not looked for *)
Definition trim (s : string) : string :=
  String.rev (skip_ws (String.rev (skip_ws s))).

End Str.

(** ** JavaScript numbers *)

Inductive jsnum := NaN | Num (z : Z).

Global Instance jsnum_eq_dec : EqDecision jsnum.
Proof. solve_decision. Defined.

Module Js.

Definition sub (a b : jsnum) : jsnum :=
  match a, b with
  | Num x, Num y => Num (x - y)
  | _, _ => NaN
  end.

(** [a <= b]: false as soon as one side is [NaN] *)
Definition le (a b : jsnum) : bool :=
  match a, b with
  | Num x, Num y => bool_decide (x <= y)
  | _, _ => false
  end.

(** [a >= b] *)
Definition ge (a b : jsnum) : bool := le b a.

(** [Number.isFinite(a)]; there is no infinity among the safe integers *)
Definition isFinite (a : jsnum) : bool :=
  match a with Num _ => true | NaN => false end.

(** [a || b] on numbers: [0] and [NaN] are falsy *)
Definition or (a b : jsnum) : jsnum :=
  match a with
  | Num 0 | NaN => b
  | _ => a
  end.

Definition digit (c : ascii) : option Z :=
  Z.of_nat <$> Ascii.is_nat c.

Fixpoint digits (acc : Z) (s : string) : Z :=
  match s with
  | String c s' =>
      match digit c with
      | Some d => digits (10 * acc + d) s'
      | None => acc
      end
  | EmptyString => acc
  end.

Definition starts_with_digit (s : string) : bool :=
  match s with
  | String c _ => bool_decide (is_Some (digit c))
  | EmptyString => false
  end.

(** [parseInt(s, 10)]: leading white space, an optional sign, then the
    longest run of decimal digits; [NaN] when there is no digit. The
    value is the integer the digits spell, which is what JavaScript
    returns when that integer is safe and the string is ASCII. *)
Definition parseInt (s : string) : jsnum :=
  let s := Str.skip_ws s in
  let '(sign, s) :=
    match s with
    | String "-" r => (-1, r)
    | String "+" r => (1, r)
    | _ => (1, s)
    end in
  if starts_with_digit s then Num (sign * digits 0 s) else NaN.

(** [n.toString()] of an integer *)
Definition toString (n : Z) : string := pretty n.

End Js.

(** ** Paths *)

Abbreviation path := (list string).

Module Path.

(** Components that survive normalisation. *)
Definition norm (p : path) : path := filter (λ c, c ≠ EmptyString) p.

(** [path.join(dir, name)] for a [name] that is one component: a
    separator, [.] or [..] inside [name] is not interpreted *)
Definition join (dir : path) (name : string) : path := norm (dir ++ [name]).

(** [path.dirname(p)] *)
Definition dirname (p : path) : path := removelast (norm p).

(** [path.basename(p)] *)
Definition basename (p : path) : string := List.last (norm p) EmptyString.

(** [p + suffix] on the path string *)
Definition append (p : path) (suffix : string) : path :=
  removelast p ++ [List.last p EmptyString +:+ suffix].

(** [p.slice(0, -n)] on the path string, for [n] at most the length of
    the last component *)
Definition slice_end (p : path) (n : nat) : path :=
  removelast p ++ [Str.slice_end (List.last p EmptyString) n].

End Path.

(** ** The file system *)

Record Stats := { mtimeMs : Z; ctimeMs : Z }.

Inductive node :=
| File (content : string) (st : Stats)
| Dir (st : Stats).

Inductive errno := ENOENT | EISDIR | ENOTDIR | EEXIST.

Abbreviation tree := (list (path * node)).

Module Fs.

Definition is_file (n : node) : bool :=
  match n with File _ _ => true | Dir _ => false end.

Definition is_dir (n : node) : bool :=
  match n with File _ _ => false | Dir _ => true end.

Definition stats (n : node) : Stats :=
  match n with File _ st => st | Dir st => st end.

Fixpoint find (t : tree) (q : path) : option node :=
  match t with
  | [] => None
  | (k, n) :: t' => if decide (k = q) then Some n else find t' q
  end.

(** Unlink one entry. *)
Definition remove (t : tree) (q : path) : tree :=
  filter (λ e, e.1 ≠ q) t.

(** Unlink a directory together with everything below it. *)
Definition remove_rec (t : tree) (q : path) : tree :=
  filter (λ e, ¬ q `prefix_of` e.1) t.

Definition replace (t : tree) (q : path) (n : node) : tree :=
  (λ e, if decide (e.1 = q) then (q, n) else e) <$> t.

Definition child_of (d : path) (e : path * node) : option (string * node) :=
  if decide (e.1 ≠ [] ∧ removelast e.1 = d)
  then Some (List.last e.1 EmptyString, e.2)
  else None.

(** Create or overwrite the regular file [q]. *)
Definition write (t : tree) (q : path) (n : node) : errno + tree :=
  match find t q with
  | Some (Dir _) => inl EISDIR
  | Some (File _ _) => inr (replace t q n)
  | None =>
      match q, find t (removelast q) with
      | [], _ => inl EISDIR
      | _, Some (Dir _) => inr (t ++ [(q, n)])
      | _, Some (File _ _) => inl ENOTDIR
      | _, None => inl ENOENT
      end
  end.

(** The entries of directory [d], in directory order. *)
Definition children (t : tree) (d : path) : list (string * node) :=
  omap (child_of d) t.

(** [mkdir -p]: create the missing directories along [pre ++ rest]. *)
Fixpoint mkdir_p (st : Stats) (pre rest : path) (t : tree) : errno + tree :=
  let next t' :=
    match rest with
    | [] => inr t'
    | c :: rest' => mkdir_p st (pre ++ [c]) rest' t'
    end in
  match find t pre with
  | Some (File _ _) => inl (match rest with [] => EEXIST | _ => ENOTDIR end)
  | Some (Dir _) => next t
  | None => next (t ++ [(pre, Dir st)])
  end.

End Fs.

(** ** The process state *)

(** A timer of the event loop. Every timer this code creates runs
    [() => safeDelete(filePath)], so the callback is kept as its path. *)
Record Timeout := { tid : nat; tpath : path; tdelay : jsnum }.

Global Instance Timeout_eq_dec : EqDecision Timeout.
Proof. solve_decision. Defined.

Inductive level := info | warn | error.

Record logent := { lvl : level; msg : string; subject : path }.

Record world := {
  fs : tree;                      (* the disk *)
  timers : gmap path Timeout;     (* const timers: TimerMap = new Map() *)
  pending : list Timeout;         (* armed timers of the event loop *)
  nextId : nat;                   (* next timer identity *)
  clock : Z;                      (* Date.now() *)
  log : list logent               (* what the logger received *)
}.

Definition with_fs (t : tree) (w : world) : world :=
  {| fs := t; timers := timers w; pending := pending w;
     nextId := nextId w; clock := clock w; log := log w |}.

Definition with_timers (m : gmap path Timeout) (w : world) : world :=
  {| fs := fs w; timers := m; pending := pending w;
     nextId := nextId w; clock := clock w; log := log w |}.

Definition with_pending (l : list Timeout) (n : nat) (w : world) : world :=
  {| fs := fs w; timers := timers w; pending := l;
     nextId := n; clock := clock w; log := log w |}.

Definition with_log (l : list logent) (w : world) : world :=
  {| fs := fs w; timers := timers w; pending := pending w;
     nextId := nextId w; clock := clock w; log := l |}.

(** ** Computations: state, exceptions, and running out of fuel *)

Inductive outcome (A : Type) :=
| Ret (a : A)
| Throw (e : errno)
| Diverge.
Arguments Ret {A} a.
Arguments Throw {A} e.
Arguments Diverge {A}.

Definition M (A : Type) : Type := world → outcome A * world.

Global Instance M_ret : MRet M := λ A a w, (Ret a, w).

Global Instance M_bind : MBind M := λ A B f m w,
  match m w with
  | (Ret a, w') => f a w'
  | (Throw e, w') => (Throw e, w')
  | (Diverge, w') => (Diverge, w')
  end.

Definition throw {A} (e : errno) : M A := λ w, (Throw e, w).

Definition diverge {A} : M A := λ w, (Diverge, w).

(** [try { body } catch (err) { handler }] *)
Definition try_catch {A} (body : M A) (handler : errno → M A) : M A := λ w,
  match body w with
  | (Throw e, w') => handler e w'
  | r => r
  end.

(** [try { body } finally { fin }] *)
Definition try_finally {A} (body : M A) (fin : M unit) : M A := λ w,
  let '(o, w') := body w in
  match fin w' with
  | (Ret _, w'') => (o, w'')
  | (Throw e, w'') => (Throw e, w'')
  | (Diverge, w'') => (Diverge, w'')
  end.

(** [for (const x of l) { body }] *)
Fixpoint for_of {A} (l : list A) (body : A → M unit) : M unit :=
  match l with
  | [] => mret ()
  | x :: l' => body x ;; for_of l' body
  end.

(** The world a computation leaves behind. *)
Definition exec {A} (m : M A) (w : world) : world := (m w).2.

(** ** The Node.js API used by the source *)

Module Dirent.
Record t := { name : string; isDirectory : bool; isFile : bool }.
Definition of_entry (e : string * node) : t :=
  {| name := e.1; isDirectory := Fs.is_dir e.2; isFile := Fs.is_file e.2 |}.
End Dirent.

Module fs.

Definition existsSync (p : path) : M bool := λ w,
  match Fs.find (fs w) (Path.norm p) with
  | Some _ => (Ret true, w)
  | None => (Ret false, w)
  end.

(** [fs.rmSync(p, { force: true, recursive })] *)
Definition rmSync (p : path) (recursive : bool) : M unit := λ w,
  let q := Path.norm p in
  match Fs.find (fs w) q with
  | None => (Ret (), w)
  | Some (File _ _) => (Ret (), with_fs (Fs.remove (fs w) q) w)
  | Some (Dir _) =>
      if recursive then (Ret (), with_fs (Fs.remove_rec (fs w) q) w)
      else (Throw EISDIR, w)
  end.

(** [fs.readdirSync(p, { withFileTypes: true })] *)
Definition readdirSync_withFileTypes (p : path) : M (list Dirent.t) := λ w,
  let q := Path.norm p in
  match Fs.find (fs w) q with
  | None => (Throw ENOENT, w)
  | Some (File _ _) => (Throw ENOTDIR, w)
  | Some (Dir _) => (Ret (Dirent.of_entry <$> Fs.children (fs w) q), w)
  end.

(** [fs.readdirSync(p)] *)
Definition readdirSync (p : path) : M (list string) :=
  es ← readdirSync_withFileTypes p; mret (Dirent.name <$> es).

(** [fs.readFileSync(p, 'utf-8')] *)
Definition readFileSync (p : path) : M string := λ w,
  match Fs.find (fs w) (Path.norm p) with
  | None => (Throw ENOENT, w)
  | Some (Dir _) => (Throw EISDIR, w)
  | Some (File s _) => (Ret s, w)
  end.

(** [fs.writeFileSync(p, data, 'utf-8')] *)
Definition writeFileSync (p : path) (data : string) : M unit := λ w,
  let st := {| mtimeMs := clock w; ctimeMs := clock w |} in
  match Fs.write (fs w) (Path.norm p) (File data st) with
  | inl e => (Throw e, w)
  | inr t => (Ret (), with_fs t w)
  end.

(** [fs.statSync(p)] *)
Definition statSync (p : path) : M Stats := λ w,
  match Fs.find (fs w) (Path.norm p) with
  | None => (Throw ENOENT, w)
  | Some n => (Ret (Fs.stats n), w)
  end.

(** [fs.mkdirSync(p, { recursive: true })] *)
Definition mkdirSync (p : path) : M unit := λ w,
  let st := {| mtimeMs := clock w; ctimeMs := clock w |} in
  match Fs.mkdir_p st [] (Path.norm p) (fs w) with
  | inl e => (Throw e, w)
  | inr t => (Ret (), with_fs t w)
  end.

End fs.

(** [Date.now()] *)
Definition Date_now : M Z := λ w, (Ret (clock w), w).

(** [setTimeout(() => safeDelete(filePath), delayMs)] *)
Definition setTimeout (filePath : path) (delayMs : jsnum) : M Timeout := λ w,
  let t := {| tid := nextId w; tpath := filePath; tdelay := delayMs |} in
  (Ret t, with_pending (pending w ++ [t]) (S (nextId w)) w).

(** [clearTimeout(t)] *)
Definition clearTimeout (t : Timeout) : M unit := λ w,
  (Ret (),
   with_pending (filter (λ t', tid t' ≠ tid t) (pending w)) (nextId w) w).

Module logger.
Definition emit (l : level) (m : string) (p : path) : M unit := λ w,
  (Ret (), with_log (log w ++ [{| lvl := l; msg := m; subject := p |}]) w).
Definition info := emit info.
Definition warn := emit warn.
Definition error := emit error.
End logger.

Definition timers_get (k : path) : M (option Timeout) := λ w,
  (Ret (timers w !! k), w).

Definition timers_set (k : path) (t : Timeout) : M unit := λ w,
  (Ret (), with_timers (<[k := t]> (timers w)) w).

Definition timers_delete (k : path) : M unit := λ w,
  (Ret (), with_timers (delete k (timers w)) w).

(** ** deleteScheduler.ts *)

Definition MARKER_DOWNLOADED : string := ".downloaded".
Definition MARKER_CREATED : string := ".created".

Definition IMMEDIATE_DELETE : Z := 0.
Definition TEN_MIN : Z := 10 * 60 * 1000.
Definition ONE_DAY : Z := 24 * 60 * 60 * 1000.

(** Write/refresh the "created" marker for an output file *)
Definition markCreated (filePath : path) : M unit :=
  try_catch
    (now ← Date_now;
     fs.writeFileSync (Path.append filePath MARKER_CREATED) (Js.toString now);;
     logger.info "Created marker written for" [Path.basename filePath])
    (λ err, logger.warn "Failed to write created marker for" filePath).

Definition clearScheduledDeletion (filePath : path) : M unit :=
  t ← timers_get filePath;
  match t with
  | Some t => clearTimeout t;; timers_delete filePath
  | None => mret ()
  end.

(** Delete file + markers and clean empty folder *)
Definition safeDelete (filePath : path) : M unit :=
  try_finally
    (try_catch
       (b ← fs.existsSync filePath;
        (if b : bool
         then fs.rmSync filePath false;; logger.info "Deleted file" filePath
         else mret ());;
        let downloaded := Path.append filePath MARKER_DOWNLOADED in
        let created := Path.append filePath MARKER_CREATED in
        b ← fs.existsSync downloaded;
        (if b : bool then fs.rmSync downloaded false else mret ());;
        b ← fs.existsSync created;
        (if b : bool then fs.rmSync created false else mret ());;
        (* remove empty request folder if any *)
        let dir := Path.dirname filePath in
        b ← fs.existsSync dir;
        if b : bool then
          names ← fs.readdirSync dir;
          if bool_decide (length names = 0%nat) then
            fs.rmSync dir true;;
            logger.info "Removed empty request folder" dir
          else mret ()
        else mret ())
       (λ err, logger.error "safeDelete failed for" filePath))
    (timers_delete filePath).

(** Schedule deletion after a delay (used after successful download) *)
Definition scheduleDeletion (filePath : path) (delayMs : jsnum) : M unit :=
  clearScheduledDeletion filePath;;
  try_catch
    (now ← Date_now;
     fs.writeFileSync (Path.append filePath MARKER_DOWNLOADED)
       (Js.toString now))
    (λ err, logger.warn "Failed to write downloaded marker for" filePath);;
  t ← setTimeout filePath delayMs;
  timers_set filePath t.

(** The body of the sweep for one regular file that is not a marker
    (lines 138-158 of [purgeOlderThan]). *)
Definition purge_file (now ttlMs : Z) (full : path) : M unit :=
  let createdMarker := Path.append full MARKER_CREATED in
  b ← fs.existsSync createdMarker;
  createdAt ←
    (if b : bool then
       s ← fs.readFileSync createdMarker;
       let ts := Js.parseInt (Str.trim s) in
       mret (if Js.isFinite ts then ts else Num 0)
     else
       (* fall back to file mtime if no marker *)
       st ← fs.statSync full;
       mret (Js.or (Js.or (Num (mtimeMs st)) (Num (ctimeMs st))) (Num now)));
  if Js.ge (Js.sub (Num now) createdAt) (Num ttlMs) then
    logger.info "TTL: deleting" full;;
    safeDelete full
  else mret ().

(** The sweep's removal of a directory it has walked and found empty
    (lines 127-131 of [purgeOlderThan]). *)
Definition clean_empty_dir (full : path) : M unit :=
  (* clean empty dir *)
  b ← fs.existsSync full;
  if b : bool then
    names ← fs.readdirSync full;
    if bool_decide (length names = 0%nat) then
      fs.rmSync full true;;
      logger.info "TTL: removed empty folder" full
    else mret ()
  else mret ().

(** The body of the sweep's loop over the entries of [dir]; [walk] is the
    recursive call. *)
Definition purge_entry (walk : path → M unit) (now ttlMs : Z) (dir : path)
    (e : Dirent.t) : M unit :=
  let full := Path.join dir (Dirent.name e) in
  if Dirent.isDirectory e then
    walk full;;
    clean_empty_dir full
  else if Dirent.isFile e then
    if Str.endsWith (Dirent.name e) MARKER_CREATED
       || Str.endsWith (Dirent.name e) MARKER_DOWNLOADED
    then mret ()
    else purge_file now ttlMs full
  else mret ().

Fixpoint purge_walk (fuel : nat) (now ttlMs : Z) (dir : path) : M unit :=
  match fuel with
  | O => diverge
  | S fuel' =>
      es ← fs.readdirSync_withFileTypes dir;
      for_of es (purge_entry (purge_walk fuel' now ttlMs) now ttlMs dir)
  end.

(** Length of the longest path on disk: a walk never nests deeper. *)
Definition depth (t : tree) : nat := max_list (length ∘ fst <$> t).

(** Run a walk with fuel for the deepest nesting the disk now has. *)
Definition fuelled {A} (k : nat → M A) : M A := λ w, k (S (depth (fs w))) w.

(** TTL purge for files not downloaded (or regardless) after a day *)
Definition purgeOlderThan (outputsRoot : path) (ttlMs : Z) : M unit :=
  b ← fs.existsSync outputsRoot;
  if negb b then mret ()
  else
    now ← Date_now;
    fuelled (λ fuel, purge_walk fuel now ttlMs outputsRoot).

(** The body of hydration for one [.downloaded] marker (lines 97-106 of
    [hydrateFromDisk]). *)
Definition hydrate_marker (downloadDelayMs : Z) (full : path) : M unit :=
  (* restore remaining download timer if file still exists *)
  let original := Path.slice_end full (String.length MARKER_DOWNLOADED) in
  b ← fs.existsSync original;
  if negb b then fs.rmSync full false
  else
    s ← fs.readFileSync full;
    let ts := Js.parseInt (Str.trim s) in
    now ← Date_now;
    let remaining := Js.sub (Num downloadDelayMs) (Js.sub (Num now) ts) in
    if Js.le remaining (Num 0) then safeDelete original
    else scheduleDeletion original remaining.

(** The body of hydration's loop over the entries of [dir]; [walk] is the
    recursive call. *)
Definition hydrate_entry (walk : path → M unit) (downloadDelayMs : Z)
    (dir : path) (e : Dirent.t) : M unit :=
  let full := Path.join dir (Dirent.name e) in
  if Dirent.isDirectory e then walk full
  else if Dirent.isFile e then
    if Str.endsWith (Dirent.name e) MARKER_DOWNLOADED
    then hydrate_marker downloadDelayMs full
    else mret ()
  else mret ().

Fixpoint hydrate_walk (fuel : nat) (downloadDelayMs : Z) (dir : path)
  : M unit :=
  match fuel with
  | O => diverge
  | S fuel' =>
      es ← fs.readdirSync_withFileTypes dir;
      for_of es (hydrate_entry (hydrate_walk fuel' downloadDelayMs)
                   downloadDelayMs dir)
  end.

(** On startup: restore scheduled deletions and purge expired files *)
Definition hydrateFromDisk (outputsRoot : path) (downloadDelayMs ttlMs : Z)
  : M unit :=
  logger.info "Hydrating deletion scheduler from" outputsRoot;;
  b ← fs.existsSync outputsRoot;
  if negb b then mret ()
  else
    fuelled (λ fuel, hydrate_walk fuel downloadDelayMs outputsRoot);;
    (* Also do an immediate TTL sweep on startup *)
    purgeOlderThan outputsRoot ttlMs.

(** A timer of the event loop fires: it leaves the queue and its callback
    runs. *)
Definition fire (t : Timeout) : M unit :=
  clearTimeout t;;
  safeDelete (tpath t).

(** ** workspace.ts *)

Record Locals := { requestId : string; uploadDir : path; outputDir : path }.

Definition cleanupDir (dir : path) : M unit :=
  b ← fs.existsSync dir;
  if negb b then mret () else fs.rmSync dir true.

(** The listener registered with [res.on('finish', ...)]. *)
Definition on_finish (l : Locals) : M unit :=
  try_catch
    (cleanupDir (uploadDir l);;
     (* cleanupDir(outputDir); *)
     logger.info "Cleaned up workspace for request" [requestId l])
    (λ err, logger.error "Failed to cleanup workspace" [requestId l]).

(** The middleware up to [next()], for the identifier [uuidv4()] drew;
    it returns [req.locals], which the finish listener closes over. *)
Definition withTempWorkspace (baseUploads baseOutputs : path) (uuid : string)
  : M Locals :=
  let requestId := uuid in
  let uploadDir := Path.join baseUploads requestId in
  let outputDir := Path.join baseOutputs requestId in
  for_of [uploadDir; outputDir] (λ dir,
    b ← fs.existsSync dir;
    if negb b then fs.mkdirSync dir else mret ());;
  logger.info "Created temp workspace for request" [requestId];;
  mret {| requestId := requestId; uploadDir := uploadDir;
          outputDir := outputDir |}.

(** ** Vocabulary of the statements *)

(** [fs.rmSync(k, { force: true })] on the disk alone: [None] when it
    throws. *)
Definition rm_plain (t : tree) (k : path) : option tree :=
  match Fs.find t k with
  | None => Some t
  | Some (File _ _) => Some (Fs.remove t k)
  | Some (Dir _) => None
  end.

(** The last step of [safeDelete] on the disk alone: [None] when
    [readdirSync] throws. *)
Definition rm_if_empty (t : tree) (d : path) : option tree :=
  match Fs.find t d with
  | None => Some t
  | Some (File _ _) => None
  | Some (Dir _) =>
      Some (if bool_decide (Fs.children t d = []) then Fs.remove_rec t d else t)
  end.

(** What one call of [safeDelete] leaves on disk (see [safeDelete_run]). *)
Definition safeDelete_disk (p : path) (t : tree) : tree :=
  match rm_plain t (Path.norm p) with
  | None => t
  | Some t1 =>
      match rm_plain t1 (Path.norm (Path.append p MARKER_DOWNLOADED)) with
      | None => t1
      | Some t2 =>
          match rm_plain t2 (Path.norm (Path.append p MARKER_CREATED)) with
          | None => t2
          | Some t3 =>
              match rm_if_empty t3 (Path.norm (Path.dirname p)) with
              | None => t3
              | Some t4 => t4
              end
          end
      end
  end.

(** The entries of the directory of [p] other than [p] and its markers. *)
Definition siblings (t : tree) (p : path) : list (string * node) :=
  filter (λ e, e.1 ∉ [Path.basename p;
                      Path.basename p +:+ MARKER_DOWNLOADED;
                      Path.basename p +:+ MARKER_CREATED])
         (Fs.children t (Path.dirname p)).

(** The armed timers whose callback deletes [p]. *)
Definition timers_for (p : path) (w : world) : list Timeout :=
  filter (λ t, tpath t = p) (pending w).

(** The scheduler's map records every armed timer, under its own path. *)
Record timer_inv (w : world) : Prop := {
  inv_tracked : ∀ t, t ∈ pending w → timers w !! tpath t = Some t;
  inv_fresh : ∀ t, t ∈ pending w → (tid t < nextId w)%nat;
  inv_nodup : NoDup (tid <$> pending w)
}.

(** What can happen to the scheduler between two moments: a caller arms
    a timer, a caller cancels one, or the event loop fires a timer that is
    armed. *)
Inductive sched_op :=
| Arm (filePath : path) (delayMs : jsnum)
| Cancel (filePath : path)
| Fire (t : Timeout).

Definition run_op (o : sched_op) : M unit :=
  match o with
  | Arm p d => scheduleDeletion p d
  | Cancel p => clearScheduledDeletion p
  | Fire t => λ w, if bool_decide (t ∈ pending w) then fire t w else (Ret (), w)
  end.

Definition run_ops (ops : list sched_op) : M unit := for_of ops run_op.

(** A freshly started process on disk [t] at time [now]. *)
Definition boot (t : tree) (now : Z) : world :=
  {| fs := t; timers := ∅; pending := []; nextId := 0%nat;
     clock := now; log := [] |}.

(** ** Sample disks *)

Definition st0 : Stats := {| mtimeMs := 1000; ctimeMs := 1000 |}.

(** [outputs/R1] holds [a.pdf] with both markers, and [b.pdf]. *)
Definition disk_two : tree :=
  [ ([], Dir st0); (["outputs"], Dir st0); (["outputs"; "R1"], Dir st0);
    (["outputs"; "R1"; "a.pdf"], File "%PDF-a" st0);
    (["outputs"; "R1"; "a.pdf.created"], File "1000" st0);
    (["outputs"; "R1"; "a.pdf.downloaded"], File "2000" st0);
    (["outputs"; "R1"; "b.pdf"], File "%PDF-b" st0) ].

(** [outputs/R1] holds [a.pdf] and its markers only. *)
Definition disk_one : tree :=
  [ ([], Dir st0); (["outputs"], Dir st0); (["outputs"; "R1"], Dir st0);
    (["outputs"; "R1"; "a.pdf"], File "%PDF-a" st0);
    (["outputs"; "R1"; "a.pdf.created"], File "1000" st0);
    (["outputs"; "R1"; "a.pdf.downloaded"], File "2000" st0) ].

(** The path [outputs/R1/frames] is a directory, with marker files next
    to it. *)
Definition disk_dir : tree :=
  [ ([], Dir st0); (["outputs"], Dir st0); (["outputs"; "R1"], Dir st0);
    (["outputs"; "R1"; "frames"], Dir st0);
    (["outputs"; "R1"; "frames"; "1.png"], File "PNG" st0);
    (["outputs"; "R1"; "frames.created"], File "1000" st0);
    (["outputs"; "R1"; "frames.downloaded"], File "2000" st0) ].

(** The timer [scheduleDeletion p d] arms in world [w]. *)
Definition armed (p : path) (d : jsnum) (w : world) : Timeout :=
  {| tid := nextId w; tpath := p; tdelay := d |}.

(** The artifact a [.downloaded] marker stands for, as [hydrateFromDisk]
    computes it. *)
Definition artifact_of (full : path) : path :=
  Path.slice_end full (String.length MARKER_DOWNLOADED).

(** [remaining] of [hydrateFromDisk] for a marker holding [s] at time
    [now]. *)
Definition remaining_of (downloadDelayMs now : Z) (s : string) : jsnum :=
  Js.sub (Num downloadDelayMs) (Js.sub (Num now) (Js.parseInt (Str.trim s))).

(** [outputs/R1/a.pdf] was downloaded at time [ts]. *)
Definition disk_downloaded (ts : Z) : tree :=
  [ ([], Dir st0); (["outputs"], Dir st0); (["outputs"; "R1"], Dir st0);
    (["outputs"; "R1"; "a.pdf"], File "%PDF-a" st0);
    (["outputs"; "R1"; "a.pdf.created"], File (Js.toString ts) st0);
    (["outputs"; "R1"; "a.pdf.downloaded"], File (Js.toString ts) st0) ].

(** What is on disk after the process restarts at time [now] on disk [t]
    with the deployment's defaults: the timers are lost and
    [hydrateFromDisk] runs on a fresh scheduler. *)
Definition restart (t : tree) (now : Z) : tree :=
  fs (exec (hydrateFromDisk ["outputs"] TEN_MIN ONE_DAY) (boot t now)).

(** ** Specifications of computations *)

(** [triple P m Q E]: from a world in [P], [m] either returns [a] in a
    world in [Q a], or stops (by an exception or by running out of fuel)
    in a world in [E]. *)
Definition triple {A} (P : world → Prop) (m : M A)
    (Q : A → world → Prop) (E : world → Prop) : Prop :=
  ∀ w, P w →
    match m w with
    | (Ret a, w') => Q a w'
    | (_, w') => E w'
    end.

(** A [.created] marker [dir/name.created] left without its artifact
    [dir/name] and without a [.downloaded] marker of its own, on a disk
    whose paths are normalised. *)
Record orphan (dir : path) (name : string) (n : node) (t : tree) : Prop := {
  orphan_artifact : Fs.find t (dir ++ [name]) = None;
  orphan_marker : Fs.find t (dir ++ [name +:+ MARKER_CREATED]) = Some n;
  orphan_own :
    Fs.find t (dir ++ [(name +:+ MARKER_CREATED) +:+ MARKER_DOWNLOADED]) = None;
  orphan_above : ∀ q, q `prefix_of` dir → ∃ st, Fs.find t q = Some (Dir st);
  orphan_below :
    ∀ k, dir ++ [name +:+ MARKER_CREATED] `prefix_of` k →
         k ≠ dir ++ [name +:+ MARKER_CREATED] → Fs.find t k = None;
  orphan_keys : ∀ k m, (k, m) ∈ t → Path.norm k = k
}.

(** [createdAt] as [purgeOlderThan] computes it for the file [full] on
    disk [t] at time [now]; [None] when the computation throws. *)
Definition createdAt_of (t : tree) (now : Z) (full : path) : option jsnum :=
  match Fs.find t (Path.norm (Path.append full MARKER_CREATED)) with
  | Some (File s _) =>
      let ts := Js.parseInt (Str.trim s) in
      Some (if Js.isFinite ts then ts else Num 0)
  | Some (Dir _) => None
  | None =>
      match Fs.find t (Path.norm full) with
      | Some n =>
          Some (Js.or (Js.or (Num (mtimeMs (Fs.stats n)))
                             (Num (ctimeMs (Fs.stats n))))
                      (Num now))
      | None => None
      end
  end.

(** The sweep's verdict on [full]: [now - createdAt >= ttlMs]. *)
Definition expired (t : tree) (now ttlMs : Z) (full : path) : bool :=
  match createdAt_of t now full with
  | Some c => Js.ge (Js.sub (Num now) c) (Num ttlMs)
  | None => false
  end.

(** A name the sweep skips. *)
Definition marker_named (name : string) : bool :=
  Str.endsWith name MARKER_CREATED || Str.endsWith name MARKER_DOWNLOADED.

(** The recurring housekeeping of the process: TTL sweeps, hydrations,
    and time passing in between. *)
Inductive job :=
| Sweep (outputsRoot : path) (ttlMs : Z)
| Hydrate (outputsRoot : path) (downloadDelayMs ttlMs : Z)
| Elapse (ms : Z).

Definition run_job (j : job) (w : world) : world :=
  match j with
  | Sweep r ttl => exec (purgeOlderThan r ttl) w
  | Hydrate r delay ttl => exec (hydrateFromDisk r delay ttl) w
  | Elapse ms =>
      {| fs := fs w; timers := timers w; pending := pending w;
         nextId := nextId w; clock := clock w + ms; log := log w |}
  end.

Definition run_jobs (js : list job) (w : world) : world :=
  foldl (λ w j, run_job j w) w js.

(** [outputs/R1] holds a [.created] marker without its artifact. *)
Definition disk_orphan : tree :=
  [ ([], Dir st0); (["outputs"], Dir st0); (["outputs"; "R1"], Dir st0);
    (["outputs"; "R1"; "a.pdf.created"], File "1000" st0) ].

(** The same, after a client downloaded the marker file itself at time 0
    through [/outputs/R1/a.pdf.created]. *)
Definition disk_orphan_downloaded : tree :=
  disk_orphan
  ++ [ (["outputs"; "R1"; "a.pdf.created.downloaded"], File "0" st0) ].

(** A well-formed disk: one node per path, paths normalised, every node
    but the root inside a directory. *)
Record wf (t : tree) : Prop := {
  wf_nodup : NoDup t.*1;
  wf_keys : ∀ k m, (k, m) ∈ t → Path.norm k = k;
  wf_parent : ∀ k m, (k, m) ∈ t → k ≠ [] →
              ∃ st, Fs.find t (removelast k) = Some (Dir st)
}.

(** [t'] holds nothing that [t] does not hold. *)
Definition sub (t' t : tree) : Prop :=
  ∀ k m, Fs.find t' k = Some m → Fs.find t k = Some m.

(** No directory is named like a [.created] marker. *)
Definition no_created_dir (t : tree) : Prop :=
  ∀ k st, Fs.find t k = Some (Dir st) →
          Str.endsWith (List.last k "") MARKER_CREATED = false.

(** A file the sweep has to judge: a regular file of [t0] whose name is
    not a marker's. *)
Definition candidate (t0 : tree) (f : path) : Prop :=
  ∃ s st, Fs.find t0 f = Some (File s st)
          ∧ marker_named (List.last f "") = false.

(** What holds of the disk [t] at every point of a sweep that started on
    [t0] at time [now]: files are only ever removed; a file the sweep
    keeps is still there; and a file still there still has its [.created]
    marker as it was. *)
Record sweep_inv (t0 : tree) (now ttlMs : Z) (t : tree) : Prop := {
  si_wf : wf t;
  si_sub : sub t t0;
  si_kept : ∀ f, candidate t0 f → expired t0 now ttlMs f = false →
                 Fs.find t f = Fs.find t0 f;
  si_marker : ∀ f, candidate t0 f → is_Some (Fs.find t f) →
                   Fs.find t (Path.norm (Path.append f MARKER_CREATED))
                   = Fs.find t0 (Path.norm (Path.append f MARKER_CREATED))
}.

(** Every expired file at or below [d] is gone. *)
Definition swept (t0 : tree) (now ttlMs : Z) (d : path) (t : tree) : Prop :=
  ∀ f, candidate t0 f → d `prefix_of` f → expired t0 now ttlMs f = true →
       Fs.find t f = None.

(** An old file without a [.created] marker whose modification time is
    the epoch. *)
Definition disk_epoch : tree :=
  [ ([], Dir st0); (["outputs"], Dir st0); (["outputs"; "R1"], Dir st0);
    (["outputs"; "R1"; "old.bin"],
     File "data" {| mtimeMs := 0; ctimeMs := 1700000000000 |}) ].

(** Going from [t] to [t'] only removed nodes, at paths in [K], and no
    directory other than [d]; the result is well formed. *)
Definition changes_within (K : list path) (d : path) (t t' : tree) : Prop :=
  wf t'
  ∧ sub t' t
  ∧ (∀ k, k ∉ K → Fs.find t' k = Fs.find t k)
  ∧ (∀ k st, Fs.find t k = Some (Dir st) → k ≠ d →
             Fs.find t' k = Some (Dir st)).

(** The sweep's loop over the entries of [D], read from disk [ts], with
    [rest] still to visit: the entries to visit are as they were read,
    nothing outside [D] has changed, and every expired file below [D] is
    gone unless it lies below an entry still to visit. *)
Record sweep_loop (t0 : tree) (now ttlMs : Z) (D : path) (ts : tree)
    (rest : list Dirent.t) (t : tree) : Prop := {
  sl_inv : sweep_inv t0 now ttlMs t;
  sl_sub : sub t ts;
  sl_frame : ∀ k, ¬ D `prefix_of` k → Fs.find t k = Fs.find ts k;
  sl_todo : ∀ e, e ∈ rest →
              Dirent.isDirectory e = true
              ∨ marker_named (Dirent.name e) = false →
              Fs.find t (D ++ [Dirent.name e])
              = Fs.find ts (D ++ [Dirent.name e]);
  sl_swept : ∀ f, candidate t0 f → D `prefix_of` f →
               expired t0 now ttlMs f = true →
               Fs.find t f = None
               ∨ ∃ e, e ∈ rest ∧ D ++ [Dirent.name e] `prefix_of` f
}.

(** What a sweep of [dir] with [fuel] achieves. *)
Definition walk_spec (t0 : tree) (now ttlMs : Z) (walk : path → M unit)
    (fuel : nat) : Prop :=
  ∀ dir w st,
    sweep_inv t0 now ttlMs (fs w) →
    Fs.find (fs w) (Path.norm dir) = Some (Dir st) →
    (fuel + length (Path.norm dir) > depth t0)%nat →
    ∃ w', walk dir w = (Ret (), w')
          ∧ sweep_inv t0 now ttlMs (fs w')
          ∧ sub (fs w') (fs w)
          ∧ swept t0 now ttlMs (Path.norm dir) (fs w')
          ∧ (∀ k, ¬ Path.norm dir `prefix_of` k →
                  Fs.find (fs w') k = Fs.find (fs w) k).

(** What a directory entry [e] of [D] (the normal form of [dir]) says
    about the disk [ts] it was read from. *)
Definition entry_of (ts : tree) (dir : path) (e : Dirent.t) : Prop :=
  ∃ m, Fs.find ts (Path.norm dir ++ [Dirent.name e]) = Some m
       ∧ Path.join dir (Dirent.name e) = Path.norm dir ++ [Dirent.name e]
       ∧ Dirent.name e ≠ ""
       ∧ Dirent.isDirectory e = Fs.is_dir m
       ∧ Dirent.isFile e = Fs.is_file m.

(** Decidable versions of [wf] and [no_created_dir], to check a given
    disk by computation. *)
Definition is_dir_at (t : tree) (k : path) : bool :=
  match Fs.find t k with Some (Dir _) => true | _ => false end.

Definition wf_check (t : tree) : bool :=
  bool_decide (NoDup t.*1)
  && forallb (λ e : path * node,
                bool_decide (Path.norm e.1 = e.1)
                && (bool_decide (e.1 = []) || is_dir_at t (removelast e.1))) t.

Definition no_created_dir_check (t : tree) : bool :=
  forallb (λ e : path * node,
             negb (Fs.is_dir e.2
                   && Str.endsWith (List.last e.1 "") MARKER_CREATED)) t.

(** [createdAt] of [purgeOlderThan] for a regular file [f] with stats
    [st]: the marker's number, [0] for a marker that holds none, and
    without a marker the first of [mtimeMs], [ctimeMs], [now] that is not
    zero. *)
Definition effective_created (t : tree) (now : Z) (f : path) (st : Stats) : Z :=
  match Fs.find t (Path.norm (Path.append f MARKER_CREATED)) with
  | Some (File m _) =>
      match Js.parseInt (Str.trim m) with Num ts => ts | NaN => 0 end
  | _ =>
      if decide (mtimeMs st ≠ 0) then mtimeMs st
      else if decide (ctimeMs st ≠ 0) then ctimeMs st
      else now
  end.

(** Four artifacts at time [1000 + ONE_DAY]: [a.pdf] created at 1000,
    [b.pdf] without a marker and last modified at 1000, [c.pdf] with an
    unreadable marker, and [d.pdf] created and downloaded a minute ago. *)
Definition disk_sweep : tree :=
  [ ([], Dir st0); (["outputs"], Dir st0);
    (["outputs"; "R1"], Dir st0); (["outputs"; "R2"], Dir st0);
    (["outputs"; "R1"; "a.pdf"], File "%PDF-a" st0);
    (["outputs"; "R1"; "a.pdf.created"], File "1000" st0);
    (["outputs"; "R1"; "b.pdf"], File "%PDF-b" st0);
    (["outputs"; "R2"; "c.pdf"], File "%PDF-c" st0);
    (["outputs"; "R2"; "c.pdf.created"], File "garbage" st0);
    (["outputs"; "R2"; "d.pdf"], File "%PDF-d" st0);
    (["outputs"; "R2"; "d.pdf.created"], File "86341000" st0);
    (["outputs"; "R2"; "d.pdf.downloaded"], File "86341000" st0) ].

(** Every path of [t'] is a path of [t]. *)
Definition keys_sub (t' t : tree) : Prop := ∀ k, k ∈ t'.*1 → k ∈ t.*1.

(** [m] does not run out of fuel from [w], and creates no path. *)
Definition settles {A} (m : M A) (w : world) : Prop :=
  (m w).1 ≠ Diverge ∧ keys_sub (fs (m w).2) (fs w).

(** Every character of [s] satisfies [P]. *)
Fixpoint all_chars (P : ascii → bool) (s : string) : bool :=
  match s with
  | EmptyString => true
  | String c s' => P c && all_chars P s'
  end.

(** A character of a decimal numeral: a digit or the minus sign. *)
Definition numeral_char (c : ascii) : bool :=
  bool_decide (is_Some (Js.digit c)) || bool_decide (c = "-"%char).

(** ** Where the embedding is exact

    [Js.parseInt], [Js.sub] and the comparisons compute with exact
    integers, and [Str.trim] strips the white space of ASCII. JavaScript
    computes with doubles and strips Unicode white space as well. The two
    agree on texts of ASCII characters and on safe integers, those of
    absolute value below 2^53: a safe integer is a double, a numeral of a
    safe integer parses to it exactly, and comparing the difference of two
    safe integers with a safe integer gives the answer of the exact
    integers, also where the difference itself is rounded. A statement
    that depends on a number read from a file carries these conditions as
    hypotheses. *)

(** [Number.isSafeInteger(z)] *)
Definition safe_integer (z : Z) : bool := bool_decide (- 2 ^ 53 < z < 2 ^ 53).

(** A text of ASCII characters. *)
Definition ascii_text (s : string) : bool :=
  all_chars (λ c, bool_decide (nat_of_ascii c < 128)%nat) s.

(** A marker text that [parseInt(s.trim(), 10)] reads exactly: ASCII text
    that holds no number or a safe integer. *)
Definition plain_stamp (s : string) : bool :=
  ascii_text s
  && match Js.parseInt (Str.trim s) with
     | Num ts => safe_integer ts
     | NaN => true
     end.

(** The sweep's judgement of the regular file [f] with stats [st] is
    exact: the times of [st] are safe integers, and the [.created] marker
    of [f], when it is a regular file, is a plain stamp. *)
Definition exact_created (t : tree) (f : path) (st : Stats) : bool :=
  safe_integer (mtimeMs st) && safe_integer (ctimeMs st)
  && match Fs.find t (Path.norm (Path.append f MARKER_CREATED)) with
     | Some (File m _) => plain_stamp m
     | _ => true
     end.

(** Hydration's [remaining] for a marker text [s] is exact: [s] is a
    plain stamp, and the two differences are safe integers. *)
Definition exact_remaining (downloadDelayMs now : Z) (s : string) : bool :=
  plain_stamp s
  && match Js.parseInt (Str.trim s) with
     | Num ts => safe_integer (now - ts)
                 && safe_integer (downloadDelayMs - (now - ts))
     | NaN => true
     end.

(** [path.join(dir, name)] is modelled for plain names: a name that is
    not empty, [.] or [..] and holds no separator stays one component,
    where [path.join] would resolve or split any other. *)
Definition separator (c : ascii) : bool :=
  bool_decide (c = "/"%char) || bool_decide (c = "092"%char).

Definition plain_name (c : string) : bool :=
  negb (bool_decide (c ∈ [""; "."; ".."]))
  && all_chars (λ x, negb (separator x)) c.

(** A directory path of plain names; empty components, which stand for
    doubled separators, are allowed. *)
Definition plain_dir (p : path) : bool :=
  forallb (λ c, bool_decide (c = "") || plain_name c) p.

(** The scheduler's map is sound: an entry is filed under the path its
    timer deletes, and that timer is armed; armed timers have distinct
    identities, all drawn already. *)
Record sched_ok (w : world) : Prop := {
  ok_key : ∀ k t, timers w !! k = Some t → tpath t = k ∧ t ∈ pending w;
  ok_fresh : ∀ t, t ∈ pending w → (tid t < nextId w)%nat;
  ok_nodup : NoDup (tid <$> pending w)
}.

(** The marker file written at time [now]. *)
Definition stamp (now : Z) : node :=
  File (Js.toString now) {| mtimeMs := now; ctimeMs := now |}.

(** [m] keeps [I]: from a world in [I] it ends in a world in [I], however
    it ends. *)
Definition preserves {A} (I : world → Prop) (m : M A) : Prop :=
  ∀ w, I w → I (exec m w).

(** [I] does not depend on what was logged. *)
Definition ignores_log (I : world → Prop) : Prop :=
  ∀ l w, I w → I (with_log l w).

(** Everything the process does to the scheduler and the output tree:
    calls of the scheduler, timers firing, housekeeping, and routes
    stamping a new artifact. *)
Inductive activity :=
| Scheduler (o : sched_op)
| Housekeeping (j : job)
| Created (filePath : path).

Definition run_activity (a : activity) (w : world) : world :=
  match a with
  | Scheduler o => exec (run_op o) w
  | Housekeeping j => run_job j w
  | Created p => exec (markCreated p) w
  end.

Definition run_activities (l : list activity) (w : world) : world :=
  foldl (λ w a, run_activity a w) w l.

(** What hydration may have done to the node [m] now at [k], on a disk
    that was [t0] when it started at time [now]: nothing, or, to a
    [.downloaded] marker that was a regular file, written the time. *)
Definition kept_or_restamped (t0 : tree) (now : Z) (k : path) (m : node)
  : Prop :=
  Fs.find t0 k = Some m
  ∨ (Str.endsWith (List.last k "") MARKER_DOWNLOADED = true
     ∧ (∃ c st, Fs.find t0 k = Some (File c st))
     ∧ m = stamp now).

(** One node per path, every path normalised. *)
Definition tidy (t : tree) : Prop :=
  NoDup t.*1 ∧ ∀ k, k ∈ t.*1 → Path.norm k = k.

(** What housekeeping below the root [R] keeps true of the disk [t],
    started on [t0]: the disk stays tidy, nothing outside [R] changes, and
    no path turns from a directory into a file or back. *)
Definition within (R : path) (t0 t : tree) : Prop :=
  tidy t
  ∧ (∀ k, ¬ R `prefix_of` k → Fs.find t k = Fs.find t0 k)
  ∧ (∀ k m, Fs.find t k = Some m →
            ∃ m0, Fs.find t0 k = Some m0 ∧ Fs.is_dir m0 = Fs.is_dir m).

(** ** server.ts *)

(** [writeOut(dir, name, data)], for a file name [name] *)
Definition writeOut (dir : path) (name : string) (data : string) : M path :=
  let outPath := Path.join dir name in
  fs.writeFileSync outPath data;;
  markCreated outPath;; (* mark created for TTL *)
  mret outPath.

(** [fs.statSync(p).size]: the bytes of a regular file. The size a
    platform reports for a directory is not modelled and read as 0. *)
Definition size_of (n : node) : Z :=
  match n with
  | File s _ => Z.of_nat (String.length s)
  | Dir _ => 0
  end.

Definition statSync_size (p : path) : M Z := λ w,
  match Fs.find (fs w) (Path.norm p) with
  | None => (Throw ENOENT, w)
  | Some n => (Ret (size_of n), w)
  end.

(** An element of the [files] array of [GET /api/outputs/:requestId]. *)
Record FileInfo := {
  fi_name : string;
  fi_size : Z;
  fi_expiresIn : option Z        (* [null] is [None] *)
}.

(** The callback mapped over the names of the folder (lines 741-751). *)
Definition output_info (folder : path) (f : string) : M FileInfo :=
  let fp := Path.join folder f in
  size ← statSync_size fp;
  b ← fs.existsSync (Path.append fp ".downloaded");
  marker ← (if b : bool
            then s ← fs.readFileSync (Path.append fp ".downloaded");
                 mret (Some (Js.parseInt s))
            else mret None);
  expiresIn ←
    match marker with
    | Some (Num m) =>
        if decide (m = 0) then mret None
        else now ← Date_now; mret (Some (Z.max 0 (m + 10 * 60000 - now)))
    | _ => mret None
    end;
  mret {| fi_name := f; fi_size := size; fi_expiresIn := expiresIn |}.

(** The handler of [GET /api/outputs/:requestId], from the folder
    [path.join(BASE_OUTPUT_DIR, requestId)] on; it returns the [files] of
    the reply. *)
Definition list_outputs (folder : path) : M (list FileInfo) :=
  b ← fs.existsSync folder;
  if negb b then mret []
  else
    names ← fs.readdirSync folder;
    mapM (output_info folder)
      (filter (λ f, Str.endsWith f ".downloaded" = false) names).

(** The callback [res.download] runs once the transfer of
    [GET /outputs/:requestId/:filename] is over; [err] tells whether the
    transfer failed. *)
Definition download_done (filePath : path) (err : bool) : M unit :=
  if err then
    logger.error "Download failed for" filePath
    (* On error we do not schedule deletion *)
  else
    (* On successful download: schedule deletion 10 minutes after *)
    scheduleDeletion filePath (Num TEN_MIN);;
    logger.info "Scheduled deletion of" filePath.

(** [disk_two] with the upload of request [R1] next to its outputs. *)
Definition disk_request : tree :=
  disk_two
  ++ [ (["uploads"], Dir st0); (["uploads"; "R1"], Dir st0);
       (["uploads"; "R1"; "in.pdf"], File "%PDF-in" st0) ].

(** ** filename.ts *)

(** A JavaScript string is a sequence of UTF-16 code units; the regular
    expressions of [sanitizeFilename] carry no [u] flag and so work on
    code units. *)
Abbreviation jsstring := (list N).

(** The code units of a text of ASCII characters. *)
Definition units (s : string) : jsstring :=
  N_of_ascii <$> String.list_ascii_of_string s.

(** The class [\s] of a regular expression, which is also what [trim]
    strips: the white space and the line terminators of ECMAScript, that
    is TAB, LF, VT, FF, CR, SPACE, U+00A0, U+1680, U+2000 to U+200A,
    U+2028, U+2029, U+202F, U+205F, U+3000 and U+FEFF. *)
Definition white_space (c : N) : bool :=
  bool_decide (c ∈ [9; 10; 11; 12; 13; 32; 160; 5760; 8232; 8233; 8239; 8287;
                    12288; 65279]%N)
  || bool_decide (8192 ≤ c ≤ 8202)%N.

(** The space character. *)
Definition SPACE : N := 32%N.

(** The character class of the first [replace]: slash, backslash,
    question mark, percent, star, colon, bar, double quote, and the two
    angle brackets. *)
Definition unsafe_char (c : N) : bool :=
  bool_decide (c ∈ [47; 92; 63; 37; 42; 58; 124; 34; 60; 62]%N).

(** [s.replace(/\s+/g, ' ')]: every maximal run of white space becomes one
    space; [in_run] tells that the previous character was white space. *)
Fixpoint collapse_ws (in_run : bool) (s : jsstring) : jsstring :=
  match s with
  | [] => []
  | c :: s' =>
      if white_space c
      then if in_run then collapse_ws true s'
           else SPACE :: collapse_ws true s'
      else c :: collapse_ws false s'
  end.

(** [s] without its leading white space. *)
Fixpoint lstrip (s : jsstring) : jsstring :=
  match s with
  | c :: s' => if white_space c then lstrip s' else s
  | [] => []
  end.

(** [s] without its trailing white space. *)
Fixpoint rstrip (s : jsstring) : jsstring :=
  match s with
  | [] => []
  | c :: s' =>
      match rstrip s' with
      | [] => if white_space c then [] else [c]
      | r => c :: r
      end
  end.

(** [s.trim()] *)
Definition trim (s : jsstring) : jsstring := rstrip (lstrip s).

(** [sanitizeFilename(name, fallback)]; callers that pass no [fallback]
    get ['merged']. *)
Definition sanitizeFilename (name fallback : jsstring) : jsstring :=
  let base :=
    trim
      (collapse_ws false
         ((λ c, if unsafe_char c then SPACE else c)
            <$> (if decide (name = []) then fallback else name))) in
  if decide (length base = 0%nat) then fallback else base.

(** A name of single words: it starts and ends with a character that is
    not white space, and its only white space is single spaces between
    words. [after_space] tells that the previous character was a space, or
    that there was none. *)
Fixpoint single_spaced (after_space : bool) (s : jsstring) : bool :=
  match s with
  | [] => negb after_space
  | c :: s' =>
      if white_space c
      then bool_decide (c = SPACE) && negb after_space
           && single_spaced true s'
      else single_spaced false s'
  end.

(** A clean file name: not empty, free of the unsafe characters, in
    single words. *)
Definition clean_name (s : jsstring) : bool :=
  forallb (λ c, negb (unsafe_char c)) s && single_spaced true s.

(** White space in [s] is single spaces only; unlike [single_spaced],
    [s] may end in one. *)
Fixpoint inner_spaced (after_space : bool) (s : jsstring) : bool :=
  match s with
  | [] => true
  | c :: s' =>
      if white_space c
      then bool_decide (c = SPACE) && negb after_space
           && inner_spaced true s'
      else inner_spaced false s'
  end.

(** ** pdfUtils.ts *)

(** The loop of [splitPdfBuffer]. The library pdf-lib is not part of the
    source: a document built by [copyPages(src, pages)] and [addPage] is
    represented by the list [pages] of the source pages it holds, and
    [saved_length pages] stands for the length of what [save()] returns
    for it. The state of the loop is [(chunks, currentPages)]. *)
Definition split_step (saved_length : list nat → Z) (total : nat)
    (maxChunkBytes : jsnum) (s : list (list nat) * list nat) (i : nat)
  : list (list nat) * list nat :=
  let currentPages := s.2 ++ [i] in
  if Js.ge (Num (saved_length currentPages)) maxChunkBytes
     || bool_decide (i = (total - 1)%nat)
  then (s.1 ++ [currentPages], [])
  else (s.1, currentPages).

(** [splitPdfBuffer(pdfBuffer, maxChunkBytes)] for a source of [total]
    pages: the chunks, each as the pages it holds. *)
Definition splitPdfBuffer (saved_length : list nat → Z) (total : nat)
    (maxChunkBytes : jsnum) : list (list nat) :=
  (foldl (split_step saved_length total maxChunkBytes) ([], [])
     (seq 0 total)).1.

(** Every directory of [t] at or below [p] has an entry. *)
Definition no_empty_at (p : path) (t : tree) : Prop :=
  ∀ d st, p `prefix_of` d → Fs.find t d = Some (Dir st) →
          Fs.children t d ≠ [].

(** Every directory of [t] strictly below [D] has an entry. *)
Definition no_empty_below (D : path) (t : tree) : Prop :=
  ∀ d st, D `prefix_of` d → d ≠ D → Fs.find t d = Some (Dir st) →
          Fs.children t d ≠ [].

(** A disk with an empty request folder, a folder holding only an empty
    folder, a folder whose only output is a day old and a folder with a
    fresh output. *)
Definition disk_folders : tree :=
  [ ([], Dir st0); (["outputs"], Dir st0);
    (["outputs"; "R0"], Dir st0);
    (["outputs"; "R1"], Dir st0); (["outputs"; "R1"; "tmp"], Dir st0);
    (["outputs"; "R2"], Dir st0);
    (["outputs"; "R2"; "a.pdf"], File "%PDF-a" st0);
    (["outputs"; "R2"; "a.pdf.created"], File "1000" st0);
    (["outputs"; "R3"], Dir st0);
    (["outputs"; "R3"; "b.pdf"], File "%PDF-b" st0);
    (["outputs"; "R3"; "b.pdf.created"], File "86341000" st0) ].

(** A disk with one request folder that holds a fresh output and its
    marker. *)
Definition disk_fresh : tree :=
  [ ([], Dir st0); (["outputs"], Dir st0);
    (["outputs"; "R3"], Dir st0);
    (["outputs"; "R3"; "b.pdf"], File "%PDF-b" st0);
    (["outputs"; "R3"; "b.pdf.created"], File "86341000" st0) ].

(** The armed timers for [p] that the scheduler's map does not record:
    [clearScheduledDeletion p] cannot reach them. *)
Definition unrecorded (p : path) (w : world) : list Timeout :=
  filter (λ t, timers w !! p ≠ Some t) (timers_for p w).

(** Only the scheduler itself was at work: arming, cancelling, timers
    firing. *)
Definition scheduler_only (a : activity) : bool :=
  match a with Scheduler _ => true | _ => false end.

(** ** Vocabulary of hydration *)

(** No [.downloaded] marker at or below [root] stands for a file that is
    itself named like a marker. *)
Definition no_marker_of_marker (root : path) (t : tree) : Prop :=
  ∀ k s st,
    Fs.find t k = Some (File s st) → root `prefix_of` k →
    Str.endsWith (List.last k "") MARKER_DOWNLOADED = true →
    marker_named
      (Str.slice_end (List.last k "") (String.length MARKER_DOWNLOADED))
    = false.

(** What holds of the world at every point of a hydration that started
    at time [now] on disk [t0], with the timers [p0] armed and [n0] the
    next timer identity: the disk is well formed and holds nothing new but
    re-stamped markers, the scheduler's map is sound, and a timer armed
    since the start deletes a path that was on disk at the start. *)
Record hyd_inv (t0 : tree) (now : Z) (p0 : list Timeout) (n0 : nat)
    (w : world) : Prop := {
  hi_clock : clock w = now;
  hi_wf : wf (fs w);
  hi_sched : sched_ok w;
  hi_disk : ∀ k m, Fs.find (fs w) k = Some m → kept_or_restamped t0 now k m;
  hi_next : (n0 ≤ nextId w)%nat;
  hi_armed : ∀ t, t ∈ pending w →
               t ∈ p0
               ∨ ((n0 ≤ tid t)%nat
                  ∧ is_Some (Fs.find t0 (Path.norm (tpath t))))
}.

(** What hydration owes the path [m] when it is a [.downloaded] marker of
    [t0], a regular file holding [s]. Without the artifact the marker is
    gone. With an artifact that is a regular file, the artifact and the
    marker are gone when [remaining <= 0], and otherwise a timer armed
    since the start, at an identity from [n0] on, deletes the artifact
    after [remaining]. *)
Definition handled (t0 : tree) (now delay : Z) (n0 : nat) (w : world)
    (m : path) : Prop :=
  ∀ s st,
    Fs.find t0 m = Some (File s st) →
    Str.endsWith (List.last m "") MARKER_DOWNLOADED = true →
    match Fs.find t0 (Path.norm (artifact_of m)) with
    | None => Fs.find (fs w) m = None
    | Some (File _ _) =>
        if Js.le (remaining_of delay now s) (Num 0)
        then Fs.find (fs w) (Path.norm (artifact_of m)) = None
             ∧ Fs.find (fs w) m = None
        else ∃ t, t ∈ pending w ∧ tpath t = artifact_of m
                  ∧ tdelay t = remaining_of delay now s
                  ∧ (n0 ≤ tid t)%nat
    | Some (Dir _) => True
    end.

(** Going from [w] to [w'] made no absent path present. *)
Definition quiet (w w' : world) : Prop :=
  ∀ k, Fs.find (fs w) k = None → Fs.find (fs w') k = None.

Definition no_marker_of_marker_check (t : tree) : bool :=
  forallb (λ e : path * node,
             negb (Fs.is_file e.2
                   && Str.endsWith (List.last e.1 "") MARKER_DOWNLOADED
                   && marker_named
                        (Str.slice_end (List.last e.1 "")
                           (String.length MARKER_DOWNLOADED)))) t.

(** At time [now]: [a.pdf] was downloaded 15 minutes ago and [b.pdf] 4
    minutes ago; the marker of [z.pdf] has lost its artifact. *)
Definition disk_restart (now : Z) : tree :=
  [ ([], Dir st0); (["outputs"], Dir st0); (["outputs"; "R1"], Dir st0);
    (["outputs"; "R1"; "a.pdf"], File "%PDF-a" st0);
    (["outputs"; "R1"; "a.pdf.created"],
     File (Js.toString (now - 15 * 60 * 1000)) st0);
    (["outputs"; "R1"; "a.pdf.downloaded"],
     File (Js.toString (now - 15 * 60 * 1000)) st0);
    (["outputs"; "R1"; "b.pdf"], File "%PDF-b" st0);
    (["outputs"; "R1"; "b.pdf.created"],
     File (Js.toString (now - 4 * 60 * 1000)) st0);
    (["outputs"; "R1"; "b.pdf.downloaded"],
     File (Js.toString (now - 4 * 60 * 1000)) st0);
    (["outputs"; "R2"], Dir st0);
    (["outputs"; "R2"; "z.pdf.downloaded"], File "1000" st0) ].

(** [a.pdf] was downloaded 15 minutes ago, and its marker was downloaded
    too, long ago: [readdirSync] lists the marker of the marker first. The
    marker of [z.pdf] has lost its artifact. *)
Definition disk_marker_of_marker (now : Z) : tree :=
  [ ([], Dir st0); (["outputs"], Dir st0); (["outputs"; "R1"], Dir st0);
    (["outputs"; "R1"; "a.pdf"], File "%PDF-a" st0);
    (["outputs"; "R1"; "a.pdf.downloaded.downloaded"], File "0" st0);
    (["outputs"; "R1"; "a.pdf.downloaded"],
     File (Js.toString (now - 15 * 60 * 1000)) st0);
    (["outputs"; "R1"; "z.pdf.downloaded"], File "1000" st0) ].

(** * Properties *)

(** ** Strings *)

Module StrFacts.

Lemma app_nil_l s : "" +:+ s = s.
Proof. reflexivity. Qed.

Lemma app_cons c s t : String c s +:+ t = String c (s +:+ t).
Proof. reflexivity. Qed.

Lemma app_length s t :
  String.length (s +:+ t) = (String.length s + String.length t)%nat.
Proof. induction s as [|c s IH]; [done|]. rewrite app_cons. simpl. by rewrite IH. Qed.

Lemma endsWith_refl s : Str.endsWith s s = true.
Proof. destruct s; [done|]. simpl. by case_bool_decide. Qed.

Lemma endsWith_app t suf : Str.endsWith (t +:+ suf) suf = true.
Proof.
  induction t as [|c t IH]; [apply endsWith_refl|].
  rewrite app_cons. simpl. case_bool_decide; [done|apply IH].
Qed.

Lemma endsWith_inv s suf :
  Str.endsWith s suf = true → ∃ t, s = t +:+ suf.
Proof.
  induction s as [|c s IH]; simpl; case_bool_decide as Heq; intros H.
  - exists "". by rewrite <- Heq.
  - done.
  - exists "". by rewrite <- Heq.
  - destruct (IH H) as [t ->]. by exists (String c t).
Qed.

Lemma take_app t s : Str.take (String.length t) (t +:+ s) = t.
Proof.
  induction t as [|c t IH]; [by destruct s|].
  rewrite app_cons. simpl. by rewrite IH.
Qed.

Lemma slice_end_app t suf :
  Str.slice_end (t +:+ suf) (String.length suf) = t.
Proof.
  unfold Str.slice_end. rewrite app_length.
  replace (String.length t + String.length suf - String.length suf)%nat
    with (String.length t) by lia.
  apply take_app.
Qed.

Lemma app_inj_r t1 t2 suf : t1 +:+ suf = t2 +:+ suf → t1 = t2.
Proof.
  intros H. rewrite <- (slice_end_app t1 suf), <- (slice_end_app t2 suf).
  by rewrite H.
Qed.

Lemma app_ne_self t suf : suf ≠ "" → t +:+ suf ≠ t.
Proof.
  intros Hs H. apply (f_equal String.length) in H. rewrite app_length in H.
  destruct suf; [done|]. simpl in H. lia.
Qed.

Lemma app_ne_empty t suf : suf ≠ "" → t +:+ suf ≠ "".
Proof. intros Hs H. destruct t; [done|]. by rewrite app_cons in H. Qed.

Lemma created_ne_downloaded t1 t2 :
  t1 +:+ MARKER_CREATED ≠ t2 +:+ MARKER_DOWNLOADED.
Proof.
  unfold MARKER_CREATED, MARKER_DOWNLOADED.
  revert t2. induction t1 as [|c t1 IH]; intros t2 H.
  - apply (f_equal String.length) in H. rewrite !app_length in H.
    simpl in H. lia.
  - destruct t2 as [|c2 t2].
    + apply (f_equal String.length) in H as Hlen.
      rewrite !app_length in Hlen. simpl in Hlen.
      do 3 (destruct t1 as [|? t1]; [by (cbv in H; simplify_eq)|]).
      simpl in Hlen. lia.
    + rewrite !app_cons in H. injection H as _ H. by eapply IH.
Qed.

End StrFacts.

(** ** Paths *)

Module PathFacts.

Lemma norm_app a b : Path.norm (a ++ b) = Path.norm a ++ Path.norm b.
Proof. apply filter_app. Qed.

Lemma norm_idemp p : Path.norm (Path.norm p) = Path.norm p.
Proof.
  unfold Path.norm. induction p as [|c p IH]; [done|].
  rewrite filter_cons. case_decide; [|done].
  rewrite filter_cons. case_decide; [|done]. by rewrite IH.
Qed.

Lemma norm_snoc a c : c ≠ "" → Path.norm (a ++ [c]) = Path.norm a ++ [c].
Proof.
  intros Hc. rewrite norm_app. f_equal. unfold Path.norm.
  rewrite filter_cons. by case_decide.
Qed.

Lemma norm_snoc_empty a : Path.norm (a ++ [""]) = Path.norm a.
Proof.
  rewrite norm_app. unfold Path.norm at 2. rewrite filter_cons.
  case_decide; [done|]. by rewrite filter_nil, app_nil_r.
Qed.

Lemma split_last (p : path) : p ≠ [] → p = removelast p ++ [List.last p ""].
Proof. apply app_removelast_last. Qed.

Lemma removelast_snoc (a : path) c : removelast (a ++ [c]) = a.
Proof. apply removelast_last. Qed.

Lemma last_snoc (a : path) c d : List.last (a ++ [c]) d = c.
Proof. apply last_last. Qed.

Lemma norm_append p s :
  s ≠ "" →
  Path.norm (Path.append p s)
  = Path.norm (removelast p) ++ [List.last p "" +:+ s].
Proof.
  intros Hs. unfold Path.append. apply norm_snoc.
  by apply StrFacts.app_ne_empty.
Qed.

Lemma norm_elem c p : c ∈ Path.norm p → c ≠ "".
Proof. unfold Path.norm. rewrite list_elem_of_filter. tauto. Qed.

Lemma norm_fixed p : Forall (λ c, c ≠ "") p → Path.norm p = p.
Proof.
  induction 1 as [|c p Hc Hp IH]; [done|].
  unfold Path.norm. rewrite filter_cons. case_decide; [|done].
  f_equal. apply IH.
Qed.

Lemma norm_Forall p : Forall (λ c, c ≠ "") (Path.norm p).
Proof. apply Forall_forall. intros c. apply norm_elem. Qed.

End PathFacts.

(** ** The file-system model *)

Module FsFacts.

Lemma find_Some_elem (t : tree) k n : Fs.find t k = Some n → (k, n) ∈ t.
Proof.
  induction t as [|[q m] t IH]; simpl; [done|].
  case_decide as Hq; intros H.
  - simplify_eq. apply list_elem_of_here.
  - apply list_elem_of_further, IH, H.
Qed.

Lemma find_None (t : tree) k : Fs.find t k = None ↔ ∀ n, (k, n) ∉ t.
Proof.
  induction t as [|[q m] t IH]; simpl.
  - split; [|done]. intros _ n. apply not_elem_of_nil.
  - case_decide as Hq.
    + split; [done|]. intros H. destruct (H m). subst. apply list_elem_of_here.
    + rewrite IH. split; intros H n.
      * rewrite not_elem_of_cons. split; [congruence|apply H].
      * specialize (H n). rewrite not_elem_of_cons in H. tauto.
Qed.

Lemma elem_find (t : tree) k n : (k, n) ∈ t → is_Some (Fs.find t k).
Proof.
  intros H. destruct (Fs.find t k) eqn:E; [by eexists|].
  rewrite find_None in E. by destruct (E n).
Qed.

Lemma find_remove (t : tree) k k' :
  Fs.find (Fs.remove t k) k' = if decide (k = k') then None else Fs.find t k'.
Proof.
  unfold Fs.remove. induction t as [|[q m] t IH]; simpl.
  - by case_decide.
  - rewrite filter_cons. simpl. repeat case_decide; simplify_eq/=;
      try done; rewrite ?IH; repeat case_decide; simplify_eq/=; done.
Qed.

Lemma find_remove_rec (t : tree) k k' :
  Fs.find (Fs.remove_rec t k) k'
  = if decide (k `prefix_of` k') then None else Fs.find t k'.
Proof.
  unfold Fs.remove_rec. induction t as [|[q m] t IH]; simpl.
  - by case_decide.
  - rewrite filter_cons. simpl. repeat case_decide; simplify_eq/=;
      try done; rewrite ?IH; repeat case_decide; simplify_eq/=; done.
Qed.

Lemma find_replace (t : tree) k n k' :
  Fs.find (Fs.replace t k n) k'
  = if decide (k = k') then (λ _, n) <$> Fs.find t k' else Fs.find t k'.
Proof.
  unfold Fs.replace. induction t as [|[q m] t IH]; simpl.
  - by case_decide.
  - repeat case_decide; simplify_eq/=; try done;
      repeat case_decide; simplify_eq/=; try done;
      rewrite IH; by repeat case_decide.
Qed.

Lemma find_app (t t' : tree) k :
  Fs.find (t ++ t') k
  = match Fs.find t k with Some n => Some n | None => Fs.find t' k end.
Proof.
  induction t as [|[q m] t IH]; simpl; [done|]. by case_decide.
Qed.

Lemma elem_remove (t : tree) k0 e : e ∈ Fs.remove t k0 ↔ e.1 ≠ k0 ∧ e ∈ t.
Proof. unfold Fs.remove. apply (list_elem_of_filter (λ e, e.1 ≠ k0)). Qed.

Lemma elem_remove_rec (t : tree) k0 e :
  e ∈ Fs.remove_rec t k0 ↔ ¬ k0 `prefix_of` e.1 ∧ e ∈ t.
Proof.
  unfold Fs.remove_rec.
  apply (list_elem_of_filter (λ e, ¬ k0 `prefix_of` e.1)).
Qed.

Lemma remove_absent (t : tree) k : Fs.find t k = None → Fs.remove t k = t.
Proof.
  rewrite find_None. intros H. unfold Fs.remove.
  induction t as [|[q m] t IH]; [done|].
  rewrite filter_cons. simpl. case_decide as Hq.
  - f_equal. apply IH. intros n Hn. apply (H n). by apply list_elem_of_further.
  - destruct (H m). subst. apply list_elem_of_here.
Qed.

(** [k] is the entry called [c] in directory [d]. *)
Lemma child_of_Some d (e : path * node) c n :
  Fs.child_of d e = Some (c, n) ↔ e = (d ++ [c], n).
Proof.
  unfold Fs.child_of. destruct e as [k m]. simpl. case_decide as H.
  - destruct H as [Hk Hd]. split.
    + intros [= <- <-]. f_equal. rewrite <- Hd. by apply PathFacts.split_last.
    + intros [= Hk' ->]. do 2 f_equal. rewrite Hk'. apply PathFacts.last_snoc.
  - split; [done|]. intros E. simplify_eq. destruct H. split.
    + by destruct d.
    + apply PathFacts.removelast_snoc.
Qed.

Lemma elem_children (t : tree) d c n :
  (c, n) ∈ Fs.children t d ↔ (d ++ [c], n) ∈ t.
Proof.
  unfold Fs.children. rewrite list_elem_of_omap. split.
  - intros (e & He & Hc). apply child_of_Some in Hc. by subst.
  - intros H. eexists. split; [done|]. by apply child_of_Some.
Qed.

Lemma children_nil (t : tree) d :
  Fs.children t d = [] ↔ ∀ c n, (d ++ [c], n) ∉ t.
Proof.
  split.
  - intros H c n Hin. apply elem_children in Hin. rewrite H in Hin.
    by apply not_elem_of_nil in Hin.
  - intros H. destruct (Fs.children t d) as [|[c n] l] eqn:E; [done|].
    destruct (H c n). apply elem_children. rewrite E. apply list_elem_of_here.
Qed.

End FsFacts.

(** ** Running the code symbolically *)

Ltac unfold_M :=
  unfold mbind, M_bind, mret, M_ret, try_catch, try_finally, exec,
    fs.existsSync, fs.rmSync, fs.readdirSync, fs.readdirSync_withFileTypes,
    fs.readFileSync, fs.writeFileSync, fs.statSync, Date_now, setTimeout,
    clearTimeout,
    logger.info, logger.warn, logger.error, logger.emit,
    timers_get, timers_set, timers_delete, throw, diverge in *.

Ltac find_step :=
  match goal with
  | H : Fs.find ?t ?k = _ |- context [Fs.find ?t ?k] => rewrite H
  | |- context [match Fs.find ?t ?k with _ => _ end] =>
      destruct (Fs.find t k) as [[]|] eqn:?
  end.

Ltac run_simpl :=
  unfold_M;
  cbn beta iota delta [fst snd negb fs timers pending nextId clock log
                       with_fs with_timers with_pending with_log].

Ltac run := repeat (progress run_simpl || find_step).

(** ** safeDelete *)

Lemma safeDelete_run p w :
  ∃ w', safeDelete p w = (Ret (), w')
        ∧ fs w' = safeDelete_disk p (fs w)
        ∧ timers w' = delete p (timers w)
        ∧ pending w' = pending w
        ∧ nextId w' = nextId w
        ∧ clock w' = clock w.
Proof.
  unfold safeDelete, safeDelete_disk, rm_plain, rm_if_empty. run.
  all: try (eexists; repeat split; done).
  all: rewrite length_fmap; case_bool_decide as Hl; case_bool_decide as Hc; run;
    try (eexists; repeat split; done).
  all: exfalso; destruct (Fs.children _ _); simplify_eq/=.
Qed.

Lemma rm_plain_gone t k t' : rm_plain t k = Some t' → Fs.find t' k = None.
Proof.
  unfold rm_plain. destruct (Fs.find t k) as [[]|] eqn:E; intros ?; simplify_eq.
  - rewrite FsFacts.find_remove. by case_decide.
  - done.
Qed.

Lemma rm_plain_mono t k t' k' :
  rm_plain t k = Some t' → Fs.find t k' = None → Fs.find t' k' = None.
Proof.
  unfold rm_plain. destruct (Fs.find t k) as [[]|] eqn:E; intros ??; simplify_eq.
  - rewrite FsFacts.find_remove. by case_decide.
  - done.
Qed.

Lemma rm_plain_absent t k : Fs.find t k = None → rm_plain t k = Some t.
Proof. unfold rm_plain. by intros ->. Qed.

Lemma rm_plain_other t k t' k' :
  rm_plain t k = Some t' → k ≠ k' → Fs.find t' k' = Fs.find t k'.
Proof.
  unfold rm_plain. destruct (Fs.find t k) as [[]|] eqn:E; intros ??; simplify_eq.
  - rewrite FsFacts.find_remove. by case_decide.
  - done.
Qed.

Lemma rm_if_empty_mono t d t' k :
  rm_if_empty t d = Some t' → Fs.find t k = None → Fs.find t' k = None.
Proof.
  unfold rm_if_empty. destruct (Fs.find t d) as [[]|] eqn:E; intros ??;
    simplify_eq; [|done].
  case_bool_decide; [|done]. rewrite FsFacts.find_remove_rec. by case_decide.
Qed.

Lemma rm_if_empty_stable t d t' :
  rm_if_empty t d = Some t' → rm_if_empty t' d = Some t'.
Proof.
  unfold rm_if_empty. destruct (Fs.find t d) as [[]|] eqn:E; intros ?;
    simplify_eq.
  - case_bool_decide as Hc.
    + rewrite FsFacts.find_remove_rec. by rewrite decide_True.
    + rewrite E. by rewrite bool_decide_eq_false_2.
  - by rewrite E.
Qed.

Lemma safeDelete_disk_idem p t :
  safeDelete_disk p (safeDelete_disk p t) = safeDelete_disk p t.
Proof.
  assert (∀ t k, Fs.find t k = None →
            ∀ T (a : T) f, match rm_plain t k with None => a | Some x => f x end
                           = f t) as skip.
  { intros t0 k H T a f. by rewrite rm_plain_absent. }
  unfold safeDelete_disk at 2 3.
  destruct (rm_plain t _) as [t1|] eqn:E1.
  2:{ unfold safeDelete_disk. by rewrite E1. }
  destruct (rm_plain t1 _) as [t2|] eqn:E2.
  2:{ unfold safeDelete_disk.
      rewrite skip by (eauto using rm_plain_gone). cbv beta. by rewrite E2. }
  destruct (rm_plain t2 _) as [t3|] eqn:E3.
  2:{ unfold safeDelete_disk.
      rewrite skip by (eauto using rm_plain_gone, rm_plain_mono). cbv beta.
      rewrite skip by (eauto using rm_plain_gone). cbv beta. by rewrite E3. }
  destruct (rm_if_empty t3 _) as [t4|] eqn:E4.
  2:{ unfold safeDelete_disk.
      rewrite skip by (eauto using rm_plain_gone, rm_plain_mono). cbv beta.
      rewrite skip by (eauto using rm_plain_gone, rm_plain_mono). cbv beta.
      rewrite skip by (eauto using rm_plain_gone). cbv beta. by rewrite E4. }
  unfold safeDelete_disk.
  rewrite skip by (eauto using rm_plain_gone, rm_plain_mono, rm_if_empty_mono). cbv beta.
  rewrite skip by (eauto using rm_plain_gone, rm_plain_mono, rm_if_empty_mono). cbv beta.
  rewrite skip by (eauto using rm_plain_gone, rm_if_empty_mono). cbv beta.
  by rewrite (rm_if_empty_stable _ _ _ E4).
Qed.

(** C2. [safeDelete] is idempotent: two calls in a row both return
    normally, whatever is on disk, and the second one changes neither the
    disk nor the scheduler's state. *)
Theorem safeDelete_idempotent (p : path) (w : world) :
  ∃ w1 w2,
    safeDelete p w = (Ret (), w1)
    ∧ safeDelete p w1 = (Ret (), w2)
    ∧ fs w2 = fs w1
    ∧ timers w2 = timers w1
    ∧ pending w2 = pending w1.
Proof.
  destruct (safeDelete_run p w) as (w1 & H1 & Hf1 & Ht1 & Hp1 & _).
  destruct (safeDelete_run p w1) as (w2 & H2 & Hf2 & Ht2 & Hp2 & _).
  exists w1, w2. repeat split; try done.
  - by rewrite Hf2, Hf1, safeDelete_disk_idem.
  - rewrite Ht2, Ht1. apply delete_delete_eq.
Qed.

(** Membership in a list given by its elements. *)
Ltac in_list :=
  solve [repeat first [apply list_elem_of_here | apply list_elem_of_further]].

Lemma exec_eq {A} (m : M A) w o w' : m w = (o, w') → exec m w = w'.
Proof. unfold exec. by intros ->. Qed.

Lemma rm_plain_Some t k t' : rm_plain t k = Some t' → t' = Fs.remove t k.
Proof.
  unfold rm_plain. destruct (Fs.find t k) as [[]|] eqn:E; intros ?; simplify_eq.
  - done.
  - by rewrite FsFacts.remove_absent.
Qed.

Lemma rm_plain_not_dir t k :
  (∀ st, Fs.find t k ≠ Some (Dir st)) → rm_plain t k = Some (Fs.remove t k).
Proof.
  intros H. unfold rm_plain. destruct (Fs.find t k) as [[]|] eqn:E.
  - done.
  - by destruct (H st).
  - by rewrite FsFacts.remove_absent.
Qed.

Lemma filter_nil_iff {A} (P : A → Prop) `{!∀ x, Decision (P x)} (l : list A) :
  filter P l = [] ↔ ∀ x, x ∈ l → ¬ P x.
Proof.
  split.
  - intros Hnil x Hx HP. by eapply filter_nil_not_elem_of.
  - intros Hall. destruct (filter P l) as [|x l'] eqn:E; [done|].
    assert (x ∈ filter P l) as Hx by (rewrite E; apply list_elem_of_here).
    apply list_elem_of_filter in Hx as [HP Hx]. by destruct (Hall x).
Qed.

(** C7 fails as stated: [outputs/R1/frames] is a directory, so
    [fs.rmSync(filePath, { force: true })] throws; control leaves the one
    [try] block, and the two marker files, which a separate attempt would
    have removed, are still there when [safeDelete] returns. *)
Lemma safeDelete_error_skips_markers :
  let p := ["outputs"; "R1"; "frames"] in
  let w := boot disk_dir 5000 in
  (fs.rmSync p false w).1 = Throw EISDIR
  ∧ Fs.find (fs (exec (fs.rmSync (Path.append p MARKER_DOWNLOADED) false) w))
      (Path.append p MARKER_DOWNLOADED) = None
  ∧ Fs.find (fs (exec (fs.rmSync (Path.append p MARKER_CREATED) false) w))
      (Path.append p MARKER_CREATED) = None
  ∧ Fs.find (fs (exec (safeDelete p) w)) (Path.append p MARKER_DOWNLOADED)
    = Some (File "2000" st0)
  ∧ Fs.find (fs (exec (safeDelete p) w)) (Path.append p MARKER_CREATED)
    = Some (File "1000" st0).
Proof. vm_compute. repeat split. Qed.

(** C7, amended. [safeDelete] always returns normally and always clears
    the scheduler's entry for the path, leaving the armed timers alone;
    its steps share one [try] block, so when deleting the artifact itself
    throws, nothing on disk changes: the markers are not attempted. *)
Theorem safeDelete_contains_errors (p : path) (w : world) :
  ∃ w', safeDelete p w = (Ret (), w')
        ∧ timers w' !! p = None
        ∧ pending w' = pending w
        ∧ (∀ e, (fs.rmSync p false w).1 = Throw e → fs w' = fs w).
Proof.
  destruct (safeDelete_run p w) as (w' & H & Hf & Ht & Hp & _).
  exists w'. repeat split; try done.
  - rewrite Ht. apply lookup_delete_eq.
  - intros e He. rewrite Hf. unfold safeDelete_disk, rm_plain.
    unfold fs.rmSync in He.
    by destruct (Fs.find (fs w) (Path.norm p)) as [[]|].
Qed.

Lemma safeDelete_contains_errors_witness :
  let p := ["outputs"; "R1"; "frames"] in
  let w := boot disk_dir 5000 in
  (fs.rmSync p false w).1 = Throw EISDIR
  ∧ fs (exec (safeDelete p) w) = fs w.
Proof.
  intros p w. split; [reflexivity|].
  destruct (safeDelete_contains_errors p w) as (w' & H & _ & _ & Hfs).
  rewrite (exec_eq _ _ _ _ H). by apply (Hfs EISDIR).
Defined.

(** ** Normal paths: [dir ++ [name]] *)

Section normal_path.
Context (d : path) (b : string).
Hypothesis Hd : Path.norm d = d.
Hypothesis Hb : b ≠ "".

Lemma norm_child : Path.norm (d ++ [b]) = d ++ [b].
Proof. by rewrite PathFacts.norm_snoc, Hd. Qed.

Lemma append_child s : Path.append (d ++ [b]) s = d ++ [b +:+ s].
Proof.
  unfold Path.append.
  by rewrite PathFacts.removelast_snoc, PathFacts.last_snoc.
Qed.

Lemma norm_append_child s :
  Path.norm (Path.append (d ++ [b]) s) = d ++ [b +:+ s].
Proof.
  rewrite append_child, PathFacts.norm_snoc, Hd; [done|].
  intros E. destruct b; [done|]. by rewrite StrFacts.app_cons in E.
Qed.

Lemma dirname_child : Path.dirname (d ++ [b]) = d.
Proof.
  unfold Path.dirname. by rewrite norm_child, PathFacts.removelast_snoc.
Qed.

Lemma basename_child : Path.basename (d ++ [b]) = b.
Proof.
  unfold Path.basename. by rewrite norm_child, PathFacts.last_snoc.
Qed.

Lemma slice_append_child s :
  Path.slice_end (Path.append (d ++ [b]) s) (String.length s) = d ++ [b].
Proof.
  rewrite append_child. unfold Path.slice_end.
  by rewrite PathFacts.removelast_snoc, PathFacts.last_snoc,
    StrFacts.slice_end_app.
Qed.

End normal_path.

Lemma normal_split (p : path) :
  Path.norm p = p → p ≠ [] →
  ∃ d b, p = d ++ [b] ∧ Path.norm d = d ∧ b ≠ "".
Proof.
  intros Hn Hp. exists (removelast p), (List.last p "").
  split; [by apply PathFacts.split_last|].
  pose proof (PathFacts.norm_Forall p) as HF. rewrite Hn in HF.
  rewrite (PathFacts.split_last p Hp) in HF.
  apply Forall_app in HF as [HF1 HF2]. split.
  - by apply PathFacts.norm_fixed.
  - apply Forall_inv in HF2. exact HF2.
Qed.

Lemma snoc_ne_self (d : path) b : d ++ [b] ≠ d.
Proof. intros E. apply (f_equal length) in E. rewrite length_app in E. simpl in E. lia. Qed.

Lemma snoc_inj (d : path) b b' : d ++ [b] = d ++ [b'] → b = b'.
Proof. intros E. by apply app_inv_head in E as [= ->]. Qed.

(** C6. Deleting an artifact that is a regular file in an existing
    directory removes the file and both its markers, and then the
    directory exactly when nothing else was in it; what lies outside the
    directory is never touched, and when the directory stays, nothing but
    the artifact and its markers is removed. *)
Theorem safeDelete_cascade (p : path) (w : world) c st dst :
  Path.norm p = p → p ≠ [] →
  Fs.find (fs w) p = Some (File c st) →
  Fs.find (fs w) (Path.dirname p) = Some (Dir dst) →
  (∀ st', Fs.find (fs w) (Path.append p MARKER_DOWNLOADED) ≠ Some (Dir st')) →
  (∀ st', Fs.find (fs w) (Path.append p MARKER_CREATED) ≠ Some (Dir st')) →
  let w' := exec (safeDelete p) w in
  Fs.find (fs w') p = None
  ∧ Fs.find (fs w') (Path.append p MARKER_DOWNLOADED) = None
  ∧ Fs.find (fs w') (Path.append p MARKER_CREATED) = None
  ∧ (Fs.find (fs w') (Path.dirname p) = None ↔ siblings (fs w) p = [])
  ∧ (siblings (fs w) p ≠ [] →
     ∀ k, k ∉ [p; Path.append p MARKER_DOWNLOADED;
               Path.append p MARKER_CREATED] →
          Fs.find (fs w') k = Fs.find (fs w) k)
  ∧ (∀ k, ¬ Path.dirname p `prefix_of` k →
          Fs.find (fs w') k = Fs.find (fs w) k).
Proof.
  intros Hn Hp. destruct (normal_split p Hn Hp) as (d & b & -> & Hd & Hb).
  unfold siblings.
  rewrite !(append_child d b), (dirname_child d b Hd Hb),
    (basename_child d b Hd Hb).
  intros Hfile Hdir HD HC.
  destruct (safeDelete_run (d ++ [b]) w) as (w1 & H & Hf & _).
  rewrite (exec_eq _ _ _ _ H), Hf. clear w1 H Hf.
  unfold safeDelete_disk.
  rewrite (norm_child d b Hd Hb), !(norm_append_child d b Hd Hb),
    (dirname_child d b Hd Hb), Hd.
  set (t := fs w) in *.
  set (kd := d ++ [b +:+ MARKER_DOWNLOADED]) in *.
  set (kc := d ++ [b +:+ MARKER_CREATED]) in *.
  assert (d ++ [b] ≠ kd) as Npd.
  { intros E%snoc_inj. by apply symmetry, StrFacts.app_ne_self in E. }
  assert (d ++ [b] ≠ kc) as Npc.
  { intros E%snoc_inj. by apply symmetry, StrFacts.app_ne_self in E. }
  assert (kd ≠ kc) as Ndc.
  { intros E%snoc_inj. by apply symmetry, StrFacts.created_ne_downloaded in E. }
  assert (rm_plain t (d ++ [b]) = Some (Fs.remove t (d ++ [b]))) as ->.
  { unfold rm_plain. by rewrite Hfile. }
  set (t1 := Fs.remove t (d ++ [b])).
  rewrite (rm_plain_not_dir t1 kd).
  2:{ intros st'. unfold t1. rewrite FsFacts.find_remove.
      case_decide; [done|apply HD]. }
  set (t2 := Fs.remove t1 kd).
  rewrite (rm_plain_not_dir t2 kc).
  2:{ intros st'. unfold t2, t1. rewrite !FsFacts.find_remove.
      repeat case_decide; try done; apply HC. }
  set (t3 := Fs.remove t2 kc).
  assert (∀ k, Fs.find t3 k
               = if decide (k ∈ [d ++ [b]; kd; kc]) then None else Fs.find t k)
    as Ht3.
  { intros k. unfold t3, t2, t1. rewrite !FsFacts.find_remove.
    repeat case_decide; try done; subst;
      match goal with
      | H : _ ∉ _ |- _ => destruct H; in_list
      | H : ?k ∈ _ |- _ =>
          repeat (apply elem_of_cons in H as [H|H]); try done;
          by apply elem_of_nil in H
      end. }
  assert (d ∉ [d ++ [b]; kd; kc]) as Hdn.
  { unfold kd, kc. intros Hin. repeat (apply elem_of_cons in Hin as [Hin|Hin]);
      try (by apply symmetry, snoc_ne_self in Hin). by apply elem_of_nil in Hin. }
  assert (Fs.find t3 d = Some (Dir dst)) as Hd3.
  { rewrite Ht3. by rewrite decide_False. }
  unfold rm_if_empty. rewrite Hd3.
  assert (Fs.children t3 d = []
          ↔ filter (λ e, e.1 ∉ [b; b +:+ MARKER_DOWNLOADED; b +:+ MARKER_CREATED])
              (Fs.children t d) = []) as Hempty.
  { rewrite FsFacts.children_nil, filter_nil_iff. split.
    - intros H [x n] Hin Hx. apply FsFacts.elem_children in Hin.
      apply (H x n). unfold t3, t2, t1.
      rewrite !FsFacts.elem_remove. simpl. repeat split; try done.
      all: intros E%snoc_inj; apply Hx; subst; in_list.
    - intros H x n Hin. unfold t3, t2, t1 in Hin.
      rewrite !FsFacts.elem_remove in Hin. simpl in Hin.
      destruct Hin as (N1 & N2 & N3 & Hin).
      apply FsFacts.elem_children in Hin. apply (H _ Hin). simpl.
      intros Hx. repeat (apply elem_of_cons in Hx as [Hx|Hx]); subst; try done.
      by apply elem_of_nil in Hx. }
  case_bool_decide as Hc.
  - repeat split.
    + rewrite FsFacts.find_remove_rec. case_decide; [done|].
      rewrite Ht3. rewrite decide_True; [done|in_list].
    + rewrite FsFacts.find_remove_rec. case_decide; [done|].
      rewrite Ht3. rewrite decide_True; [done|in_list].
    + rewrite FsFacts.find_remove_rec. case_decide; [done|].
      rewrite Ht3. rewrite decide_True; [done|in_list].
    + intros _. by apply Hempty.
    + intros _. rewrite FsFacts.find_remove_rec. by rewrite decide_True.
    + intros Hs. by apply Hempty in Hc.
    + intros k Hk. rewrite FsFacts.find_remove_rec, decide_False by done.
      rewrite Ht3, decide_False; [done|].
      intros Hin. apply Hk. unfold kd, kc in Hin.
      repeat (apply elem_of_cons in Hin as [Hin|Hin]); subst;
        try (by eexists). by apply elem_of_nil in Hin.
  - repeat split.
    + rewrite Ht3. rewrite decide_True; [done|in_list].
    + rewrite Ht3. rewrite decide_True; [done|in_list].
    + rewrite Ht3. rewrite decide_True; [done|in_list].
    + rewrite Hd3. done.
    + intros Hs. by apply Hempty in Hs.
    + intros _ k Hk. rewrite Ht3. by rewrite decide_False.
    + intros k Hk. rewrite Ht3, decide_False; [done|].
      intros Hin. apply Hk. unfold kd, kc in Hin.
      repeat (apply elem_of_cons in Hin as [Hin|Hin]); subst;
        try (by eexists). by apply elem_of_nil in Hin.
Qed.

Lemma safeDelete_cascade_witness :
  let p := ["outputs"; "R1"; "a.pdf"] in
  let w := boot disk_two 5000 in
  let w' := exec (safeDelete p) w in
  (Path.norm p = p ∧ p ≠ []
   ∧ Fs.find (fs w) p = Some (File "%PDF-a" st0)
   ∧ Fs.find (fs w) (Path.dirname p) = Some (Dir st0))
  ∧ Fs.find (fs w') p = None
  ∧ Fs.find (fs w') (Path.append p MARKER_DOWNLOADED) = None
  ∧ Fs.find (fs w') (Path.append p MARKER_CREATED) = None
  ∧ (Fs.find (fs w') (Path.dirname p) = None ↔ siblings (fs w) p = [])
  ∧ (siblings (fs w) p ≠ [] →
     ∀ k, k ∉ [p; Path.append p MARKER_DOWNLOADED;
               Path.append p MARKER_CREATED] →
          Fs.find (fs w') k = Fs.find (fs w) k)
  ∧ (∀ k, ¬ Path.dirname p `prefix_of` k →
          Fs.find (fs w') k = Fs.find (fs w) k).
Proof.
  intros p w w'. split; [by split_and!|].
  apply (safeDelete_cascade p w "%PDF-a" st0 st0).
  - reflexivity.
  - discriminate.
  - reflexivity.
  - reflexivity.
  - intros st'. vm_compute. discriminate.
  - intros st'. vm_compute. discriminate.
Defined.

(** The two scenarios of the empty-directory cascade: [a.pdf] alone in
    [outputs/R1], and [a.pdf] next to [b.pdf]. *)
Example cascade_only_file :
  fs (exec (safeDelete ["outputs"; "R1"; "a.pdf"]) (boot disk_one 5000))
  = [ ([], Dir st0); (["outputs"], Dir st0) ].
Proof. reflexivity. Qed.

Example cascade_second_file :
  fs (exec (safeDelete ["outputs"; "R1"; "a.pdf"]) (boot disk_two 5000))
  = [ ([], Dir st0); (["outputs"], Dir st0); (["outputs"; "R1"], Dir st0);
      (["outputs"; "R1"; "b.pdf"], File "%PDF-b" st0) ].
Proof. reflexivity. Qed.

(** ** scheduleDeletion *)

Lemma scheduleDeletion_run p d w :
  let new := {| tid := nextId w; tpath := p; tdelay := d |} in
  let st := {| mtimeMs := clock w; ctimeMs := clock w |} in
  ∃ w', scheduleDeletion p d w = (Ret (), w')
        ∧ pending w'
          = match timers w !! p with
            | Some t0 => filter (λ t', tid t' ≠ tid t0) (pending w)
            | None => pending w
            end ++ [new]
        ∧ timers w' = <[p := new]> (timers w)
        ∧ nextId w' = S (nextId w)
        ∧ clock w' = clock w
        ∧ fs w'
          = match Fs.write (fs w) (Path.norm (Path.append p MARKER_DOWNLOADED))
                    (File (Js.toString (clock w)) st) with
            | inr t => t
            | inl _ => fs w
            end.
Proof.
  intros new st. unfold scheduleDeletion, clearScheduledDeletion. run.
  destruct (timers w !! p) as [t0|] eqn:Et; run.
  all: destruct (Fs.write _ _ _) as [e|t] eqn:Ew; run.
  all: eexists; repeat split; try done.
  all: by rewrite insert_delete_eq.
Qed.

Lemma NoDup_fmap_filter {A B} (f : A → B) (P : A → Prop)
    `{!∀ x, Decision (P x)} (l : list A) :
  NoDup (f <$> l) → NoDup (f <$> filter P l).
Proof.
  induction l as [|x l IH]; [done|]. rewrite fmap_cons, NoDup_cons.
  intros [Hx Hl]. rewrite filter_cons. case_decide; [|by apply IH].
  rewrite fmap_cons, NoDup_cons. split; [|by apply IH].
  intros Hin. apply Hx. apply list_elem_of_fmap in Hin as (y & -> & Hy).
  apply list_elem_of_filter in Hy as [_ Hy]. by apply list_elem_of_fmap_2.
Qed.

Lemma timer_inv_boot t now : timer_inv (boot t now).
Proof.
  split; simpl.
  - intros t0 Hin. by apply elem_of_nil in Hin.
  - intros t0 Hin. by apply elem_of_nil in Hin.
  - constructor.
Qed.

Lemma timer_inv_at_most_one w q :
  timer_inv w → (length (timers_for q w) ≤ 1)%nat.
Proof.
  intros [Htr _ Hnd]. unfold timers_for.
  assert (NoDup (filter (λ t, tpath t = q) (pending w))) as Hnd'.
  { apply NoDup_filter. by apply NoDup_fmap_1 in Hnd. }
  assert (∀ t, t ∈ filter (λ t, tpath t = q) (pending w)
               → timers w !! q = Some t) as Hall.
  { intros t [<- Hin]%list_elem_of_filter. by apply Htr. }
  destruct (filter _ (pending w)) as [|a [|b l]]; simpl; [lia..|].
  exfalso. apply NoDup_cons in Hnd' as [Hab _]. apply Hab.
  assert (a = b) as ->; [|apply list_elem_of_here].
  assert (Some a = Some b) as [=]; [|done].
  rewrite <- (Hall a), <- (Hall b); [done|..].
  - apply list_elem_of_further, list_elem_of_here.
  - apply list_elem_of_here.
Qed.

Lemma scheduleDeletion_inv p d w :
  timer_inv w →
  ∃ w', scheduleDeletion p d w = (Ret (), w')
        ∧ timer_inv w'
        ∧ timers_for p w' = [{| tid := nextId w; tpath := p; tdelay := d |}]
        ∧ timers w' !! p
          = Some {| tid := nextId w; tpath := p; tdelay := d |}.
Proof.
  intros [Htr Hfr Hnd].
  destruct (scheduleDeletion_run p d w) as (w' & H & Hp & Ht & Hn & _).
  cbv zeta in *. set (new := Build_Timeout (nextId w) p d) in *.
  set (base := match timers w !! p with
               | Some t0 => filter (λ t', tid t' ≠ tid t0) (pending w)
               | None => pending w
               end) in *.
  assert (∀ t, t ∈ base → t ∈ pending w ∧ tpath t ≠ p) as Hbase.
  { intros t Hin. unfold base in Hin.
    destruct (timers w !! p) as [t0|] eqn:E.
    - apply list_elem_of_filter in Hin as [Hid Hin]. split; [done|].
      intros Hp'. apply Hid. specialize (Htr t Hin). rewrite Hp', E in Htr.
      by simplify_eq.
    - split; [done|]. intros Hp'. specialize (Htr t Hin).
      rewrite Hp', E in Htr. done. }
  assert (NoDup (tid <$> base)) as Hnb.
  { unfold base. destruct (timers w !! p); [|done].
    by apply NoDup_fmap_filter. }
  exists w'. split; [done|]. split; [split|split].
  - intros t. rewrite Hp, Ht, elem_of_app, list_elem_of_singleton.
    intros [Hin| ->].
    + destruct (Hbase t Hin) as [Hin' Hne].
      rewrite lookup_insert_ne by done. by apply Htr.
    + apply lookup_insert_eq.
  - intros t. rewrite Hp, Hn, elem_of_app, list_elem_of_singleton.
    intros [Hin| ->].
    + destruct (Hbase t Hin) as [Hin' _]. specialize (Hfr t Hin'). lia.
    + simpl. lia.
  - rewrite Hp, fmap_app. apply NoDup_app. split; [done|]. split.
    + intros i Hi Hi'. apply list_elem_of_singleton in Hi'. simpl in Hi'.
      apply list_elem_of_fmap in Hi as (t & -> & Hin).
      destruct (Hbase t Hin) as [Hin' _]. specialize (Hfr t Hin'). lia.
    + apply NoDup_singleton.
  - unfold timers_for. rewrite Hp, filter_app.
    replace (filter (λ t, tpath t = p) base) with (@nil Timeout).
    + simpl. rewrite filter_cons. simpl. by rewrite decide_True.
    + symmetry. apply filter_nil_iff. intros t Hin. by apply Hbase.
  - rewrite Ht. apply lookup_insert_eq.
Qed.

Lemma clearScheduledDeletion_inv p w :
  timer_inv w →
  ∃ w', clearScheduledDeletion p w = (Ret (), w') ∧ timer_inv w'.
Proof.
  intros [Htr Hfr Hnd]. unfold clearScheduledDeletion. run.
  destruct (timers w !! p) as [t0|] eqn:Et; run; eexists; (split; [done|]).
  - split; simpl.
    + intros t [Hid Hin]%list_elem_of_filter.
      rewrite lookup_delete_ne; [by apply Htr|].
      intros Hp. apply Hid. specialize (Htr t Hin). rewrite <- Hp, Et in Htr.
      by simplify_eq.
    + intros t [_ Hin]%list_elem_of_filter. by apply Hfr.
    + by apply NoDup_fmap_filter.
  - done.
Qed.

Lemma fire_inv t w :
  timer_inv w → t ∈ pending w →
  ∃ w', fire t w = (Ret (), w') ∧ timer_inv w'.
Proof.
  intros [Htr Hfr Hnd] Hin. unfold fire, clearTimeout, mbind, M_bind.
  match goal with |- context [safeDelete ?p ?w0] =>
    destruct (safeDelete_run p w0) as (w' & -> & _ & Ht & Hp & Hn & _) end.
  exists w'. split; [done|]. simpl in *. split.
  - intros t' Hin'. rewrite Hp in Hin'.
    apply list_elem_of_filter in Hin' as [Hid Hin'].
    rewrite Ht, lookup_delete_ne; [by apply Htr|].
    intros Hpath. apply Hid. pose proof (Htr t Hin) as E.
    rewrite Hpath, (Htr t' Hin') in E. by simplify_eq.
  - intros t' Hin'. rewrite Hp in Hin'. rewrite Hn.
    apply list_elem_of_filter in Hin' as [_ Hin']. by apply Hfr.
  - rewrite Hp. by apply NoDup_fmap_filter.
Qed.

Lemma run_op_inv o w :
  timer_inv w → ∃ w', run_op o w = (Ret (), w') ∧ timer_inv w'.
Proof.
  intros Hinv. destruct o as [p d|p|t]; simpl.
  - destruct (scheduleDeletion_inv p d w Hinv) as (w' & ? & ? & _). eauto.
  - by apply clearScheduledDeletion_inv.
  - case_bool_decide; [by apply fire_inv|eauto].
Qed.

(** ** Hydration of one marker *)

Lemma safeDelete_disk_mono p t k :
  Fs.find t k = None → Fs.find (safeDelete_disk p t) k = None.
Proof.
  intros H. unfold safeDelete_disk.
  destruct (rm_plain t _) as [t1|] eqn:E1; [|done].
  destruct (rm_plain t1 _) as [t2|] eqn:E2; [|by eauto using rm_plain_mono].
  destruct (rm_plain t2 _) as [t3|] eqn:E3; [|by eauto using rm_plain_mono].
  destruct (rm_if_empty t3 _) as [t4|] eqn:E4;
    eauto using rm_plain_mono, rm_if_empty_mono.
Qed.

Lemma safeDelete_disk_file_gone p t c st :
  Fs.find t (Path.norm p) = Some (File c st) →
  Fs.find (safeDelete_disk p t) (Path.norm p) = None.
Proof.
  intros H. unfold safeDelete_disk.
  assert (rm_plain t (Path.norm p) = Some (Fs.remove t (Path.norm p))) as ->.
  { unfold rm_plain. by rewrite H. }
  assert (Fs.find (Fs.remove t (Path.norm p)) (Path.norm p) = None) as H1.
  { rewrite FsFacts.find_remove. by case_decide. }
  destruct (rm_plain _ _) as [t2|] eqn:E2; [|done].
  destruct (rm_plain t2 _) as [t3|] eqn:E3; [|by eauto using rm_plain_mono].
  destruct (rm_if_empty t3 _) as [t4|] eqn:E4;
    eauto using rm_plain_mono, rm_if_empty_mono.
Qed.

Lemma hydrate_marker_run delay full w :
  hydrate_marker delay full w
  = match Fs.find (fs w) (Path.norm (artifact_of full)) with
    | None => fs.rmSync full false w
    | Some _ =>
        match Fs.find (fs w) (Path.norm full) with
        | None => (Throw ENOENT, w)
        | Some (Dir _) => (Throw EISDIR, w)
        | Some (File s _) =>
            if Js.le (remaining_of delay (clock w) s) (Num 0)
            then safeDelete (artifact_of full) w
            else scheduleDeletion (artifact_of full)
                   (remaining_of delay (clock w) s) w
        end
    end.
Proof.
  unfold hydrate_marker, artifact_of, remaining_of.
  unfold mbind, M_bind, mret, M_ret, fs.existsSync, fs.readFileSync, Date_now.
  destruct (Fs.find (fs w) (Path.norm (Path.slice_end _ _))); simpl; [|done].
  destruct (Fs.find (fs w) (Path.norm full)) as [[]|]; simpl; try done.
  by destruct (Js.le _ _).
Qed.

Lemma find_write t q n t' k :
  Fs.write t q n = inr t' →
  Fs.find t' k = if decide (q = k) then Some n else Fs.find t k.
Proof.
  unfold Fs.write. destruct (Fs.find t q) as [[]|] eqn:E.
  - intros [= <-]. rewrite FsFacts.find_replace.
    case_decide; [|done]. subst. by rewrite E.
  - done.
  - destruct q as [|c q]; [done|].
    destruct (Fs.find t (removelast (c :: q))) as [[]|]; try done.
    intros [= <-]. rewrite FsFacts.find_app. simpl.
    case_decide; subst.
    + by rewrite E.
    + by destruct (Fs.find t k).
Qed.

Lemma write_file_ok t q c st n :
  Fs.find t q = Some (File c st) → Fs.write t q n = inr (Fs.replace t q n).
Proof. unfold Fs.write. by intros ->. Qed.

Lemma norm_append_ne p s : s ≠ "" → Path.norm (Path.append p s) ≠ Path.norm p.
Proof.
  intros Hs. rewrite PathFacts.norm_append by done.
  destruct (decide (p = [])) as [->|Hp]; [by destruct s|].
  rewrite (PathFacts.split_last p Hp) at 3. rewrite PathFacts.norm_app.
  intros E%app_inv_head. unfold Path.norm in E. rewrite filter_cons in E.
  case_decide; [|done]. rewrite filter_nil in E.
  injection E as E. by apply StrFacts.app_ne_self in E.
Qed.

Lemma append_artifact_of full :
  full ≠ [] → Str.endsWith (List.last full "") MARKER_DOWNLOADED = true →
  Path.append (artifact_of full) MARKER_DOWNLOADED = full.
Proof.
  intros Hf [b Hb]%StrFacts.endsWith_inv.
  rewrite (PathFacts.split_last full Hf) at 2.
  unfold artifact_of, Path.slice_end, Path.append.
  rewrite PathFacts.removelast_snoc, PathFacts.last_snoc, Hb.
  by rewrite StrFacts.slice_end_app.
Qed.

Lemma marker_downloaded_nonempty : MARKER_DOWNLOADED ≠ "".
Proof. done. Qed.

Lemma marker_created_nonempty : MARKER_CREATED ≠ "".
Proof. done. Qed.

(** The two restart scenarios of the specification, run through the whole
    of [hydrateFromDisk]: downloaded 15 minutes before the restart, the
    artifact is gone when hydration returns; downloaded 4 minutes before,
    it is still there with a timer for the 6 minutes that remain. *)
Example hydration_purges_expired_while_down :
  let now := 1700000000000 in
  let w := exec (hydrateFromDisk ["outputs"] TEN_MIN ONE_DAY)
             (boot (disk_downloaded (now - 15 * 60 * 1000)) now) in
  Fs.find (fs w) ["outputs"; "R1"; "a.pdf"] = None
  ∧ pending w = [].
Proof. vm_compute. done. Qed.

Example hydration_restores_partial_grace :
  let now := 1700000000000 in
  let w := exec (hydrateFromDisk ["outputs"] TEN_MIN ONE_DAY)
             (boot (disk_downloaded (now - 4 * 60 * 1000)) now) in
  Fs.find (fs w) ["outputs"; "R1"; "a.pdf"] = Some (File "%PDF-a" st0)
  ∧ pending w = [{| tid := 0; tpath := ["outputs"; "R1"; "a.pdf"];
                    tdelay := Num (6 * 60 * 1000) |}].
Proof. vm_compute. done. Qed.

(** C8 does not hold of the code. When the grace period has not elapsed,
    hydration re-arms through [scheduleDeletion], which writes
    [Date.now()] into the [.downloaded] marker: the marker then holds the
    time of the restart, not the time of the download. *)
Theorem hydrate_rewrites_marker (delay : Z) (full : path) (w : world) s st :
  full ≠ [] →
  Str.endsWith (List.last full "") MARKER_DOWNLOADED = true →
  Fs.find (fs w) (Path.norm full) = Some (File s st) →
  is_Some (Fs.find (fs w) (Path.norm (artifact_of full))) →
  Js.le (remaining_of delay (clock w) s) (Num 0) = false →
  Fs.find (fs (exec (hydrate_marker delay full) w)) (Path.norm full)
  = Some (File (Js.toString (clock w))
               {| mtimeMs := clock w; ctimeMs := clock w |}).
Proof.
  intros Hf He Hm [n Ha] Hle. unfold exec.
  rewrite hydrate_marker_run, Ha, Hm, Hle.
  destruct (scheduleDeletion_run (artifact_of full)
              (remaining_of delay (clock w) s) w)
    as (w' & H & _ & _ & _ & _ & Hfs).
  rewrite H. simpl. rewrite Hfs, append_artifact_of by done.
  rewrite (write_file_ok _ _ _ _ _ Hm), FsFacts.find_replace, Hm.
  by rewrite decide_True.
Qed.

Lemma hydrate_rewrites_marker_witness :
  let full := ["outputs"; "R1"; "a.pdf.downloaded"] in
  let w := boot (disk_downloaded 0) 540000 in
  remaining_of TEN_MIN 540000 "0" = Num 60000
  ∧ Fs.find (fs w) (Path.norm full) = Some (File "0" st0)
  ∧ Fs.find (fs (exec (hydrate_marker TEN_MIN full) w)) (Path.norm full)
    = Some (File "540000" {| mtimeMs := 540000; ctimeMs := 540000 |}).
Proof.
  intros full w. split; [reflexivity|]. split; [reflexivity|].
  apply (hydrate_rewrites_marker TEN_MIN full w "0" st0).
  - discriminate.
  - reflexivity.
  - reflexivity.
  - by eexists.
  - reflexivity.
Defined.

(** What the rewrite costs: an artifact downloaded at time 0 with a
    10-minute grace period survives a restart at minute 9 and a second
    one at minute 18, eight minutes after it was due. *)
Example restarts_extend_retention :
  let t9 := restart (disk_downloaded 0) (9 * 60 * 1000) in
  let t18 := restart t9 (18 * 60 * 1000) in
  Fs.find t9 ["outputs"; "R1"; "a.pdf.downloaded"]
  = Some (File "540000" {| mtimeMs := 540000; ctimeMs := 540000 |})
  ∧ Fs.find t18 ["outputs"; "R1"; "a.pdf"] = Some (File "%PDF-a" st0).
Proof. vm_compute. done. Qed.

(** ** The workspace provisioner *)

Lemma find_snoc_Some (t : tree) e k n :
  Fs.find t k = Some n → Fs.find (t ++ [e]) k = Some n.
Proof. intros H. by rewrite FsFacts.find_app, H. Qed.

Lemma mkdir_p_preserves st rest : ∀ pre t t',
  Fs.mkdir_p st pre rest t = inr t' →
  ∀ k n, Fs.find t k = Some n → Fs.find t' k = Some n.
Proof.
  induction rest as [|c rest IH]; intros pre t t'; simpl.
  - destruct (Fs.find t pre) as [[]|]; intros [= <-] k n Hk;
      auto using find_snoc_Some.
  - destruct (Fs.find t pre) as [[]|]; [done|..]; intros H k n Hk.
    + eapply IH; eauto.
    + eapply IH; eauto using find_snoc_Some.
Qed.

Lemma mkdirSync_preserves p w o w' :
  fs.mkdirSync p w = (o, w') →
  (∀ k n, Fs.find (fs w) k = Some n → Fs.find (fs w') k = Some n)
  ∧ timers w' = timers w ∧ pending w' = pending w.
Proof.
  unfold fs.mkdirSync. destruct (Fs.mkdir_p _ _ _ _) as [e|t] eqn:E;
    intros [= <- <-]; [done|].
  split; [|done]. simpl. eauto using mkdir_p_preserves.
Qed.

Lemma withTempWorkspace_run bu bo id w o w' :
  withTempWorkspace bu bo id w = (o, w') →
  (∀ k n, Fs.find (fs w) k = Some n → Fs.find (fs w') k = Some n)
  ∧ timers w' = timers w ∧ pending w' = pending w
  ∧ ∀ l, o = Ret l →
      l = {| requestId := id; uploadDir := Path.join bu id;
             outputDir := Path.join bo id |}.
Proof.
  unfold withTempWorkspace. cbn [for_of]. unfold_M.
  destruct (Fs.find (fs w) (Path.norm (Path.join bu id))) as [n1|] eqn:E1; simpl.
  - destruct (Fs.find (fs w) (Path.norm (Path.join bo id))) as [n2|] eqn:E2; simpl.
    + intros [= <- <-]. split_and!; try done. by intros l [= <-].
    + destruct (fs.mkdirSync (Path.join bo id) w) as [[] w2] eqn:Em;
        destruct (mkdirSync_preserves _ _ _ _ Em) as (Hk & Ht & Hp);
        intros [= <- <-]; split_and!; try done. by intros l [= <-].
  - destruct (fs.mkdirSync (Path.join bu id) w) as [[] w1] eqn:Em;
      destruct (mkdirSync_preserves _ _ _ _ Em) as (Hk & Ht & Hp);
      [|intros [= <- <-]; split_and!; done..].
    destruct (Fs.find (fs w1) (Path.norm (Path.join bo id))) as [n2|] eqn:E2; simpl.
    + intros [= <- <-]. split_and!; try done. by intros l [= <-].
    + destruct (fs.mkdirSync (Path.join bo id) w1) as [[] w2] eqn:Em2;
        destruct (mkdirSync_preserves _ _ _ _ Em2) as (Hk2 & Ht2 & Hp2);
        intros [= <- <-]; split_and!; try (by intros l [= <-]);
        simpl; try congruence; eauto.
Qed.

Lemma on_finish_run l w :
  ∃ w', on_finish l w = (Ret (), w')
        ∧ Fs.find (fs w') (Path.norm (uploadDir l)) = None
        ∧ (∀ k, ¬ Path.norm (uploadDir l) `prefix_of` k →
                Fs.find (fs w') k = Fs.find (fs w) k)
        ∧ timers w' = timers w ∧ pending w' = pending w.
Proof.
  unfold on_finish, cleanupDir. run.
  all: eexists; split_and!; try done; simpl.
  all: try intros k Hk.
  all: rewrite ?FsFacts.find_remove, ?FsFacts.find_remove_rec.
  all: case_decide; try done.
  subst. by destruct Hk.
Qed.

(** C9. Once the middleware has provisioned a workspace for a request,
    with the upload and the output root outside one another, the listener
    that runs when the response finishes returns normally and removes
    [uploads/<requestId>]; every path outside that directory, and so
    [outputs/<requestId>] and all it holds, is exactly as the listener
    found it. Provisioning itself only ever adds directories. *)
Theorem finish_hook_spares_outputs
    (bu bo : path) (id : string) (l : Locals) (w w1 w2 : world) :
  id ≠ "" →
  ¬ Path.norm bu `prefix_of` Path.norm bo →
  ¬ Path.norm bo `prefix_of` Path.norm bu →
  withTempWorkspace bu bo id w = (Ret l, w1) →
  uploadDir l = Path.norm bu ++ [id]
  ∧ outputDir l = Path.norm bo ++ [id]
  ∧ (∀ k n, Fs.find (fs w) k = Some n → Fs.find (fs w1) k = Some n)
  ∧ ∃ w3, on_finish l w2 = (Ret (), w3)
          ∧ Fs.find (fs w3) (uploadDir l) = None
          ∧ (∀ k, outputDir l `prefix_of` k →
                  Fs.find (fs w3) k = Fs.find (fs w2) k)
          ∧ (∀ k, ¬ uploadDir l `prefix_of` k →
                  Fs.find (fs w3) k = Fs.find (fs w2) k).
Proof.
  intros Hid Hub Hbu Hrun.
  destruct (withTempWorkspace_run _ _ _ _ _ _ Hrun) as (Hgrow & _ & _ & Hl).
  specialize (Hl l eq_refl). subst l. simpl.
  unfold Path.join. rewrite !PathFacts.norm_snoc by done.
  split_and!; try done.
  destruct (on_finish_run
              {| requestId := id; uploadDir := Path.norm bu ++ [id];
                 outputDir := Path.norm bo ++ [id] |} w2)
    as (w3 & H3 & Hgone & Hframe & _).
  simpl in Hgone, Hframe.
  rewrite PathFacts.norm_snoc, PathFacts.norm_idemp in Hgone by done.
  rewrite PathFacts.norm_snoc, PathFacts.norm_idemp in Hframe by done.
  exists w3. split_and!; try done.
  intros k [r ->]. apply Hframe. intros [r' Hk].
  destruct (prefix_weak_total (Path.norm bu) (Path.norm bo)
              ((Path.norm bo ++ [id]) ++ r)); try done.
  - rewrite Hk, <- !app_assoc. by eexists.
  - rewrite <- !app_assoc. by eexists.
Qed.

Lemma finish_hook_spares_outputs_witness :
  let w := boot disk_two 5000 in
  let l := {| requestId := "id1"; uploadDir := ["uploads"; "id1"];
              outputDir := ["outputs"; "id1"] |} in
  let w1 := exec (withTempWorkspace ["uploads"] ["outputs"] "id1") w in
  withTempWorkspace ["uploads"] ["outputs"] "id1" w = (Ret l, w1)
  ∧ ∃ w3, on_finish l w1 = (Ret (), w3)
          ∧ Fs.find (fs w3) (uploadDir l) = None
          ∧ (∀ k, outputDir l `prefix_of` k →
                  Fs.find (fs w3) k = Fs.find (fs w1) k).
Proof.
  intros w l w1.
  assert (withTempWorkspace ["uploads"] ["outputs"] "id1" w = (Ret l, w1))
    as Hrun by (vm_compute; reflexivity).
  split; [exact Hrun|].
  destruct (finish_hook_spares_outputs ["uploads"] ["outputs"] "id1" l w w1 w1)
    as (_ & _ & _ & w3 & H3 & Hgone & Hout & _).
  - discriminate.
  - intros [r Hr]. vm_compute in Hr. discriminate.
  - intros [r Hr]. vm_compute in Hr. discriminate.
  - exact Hrun.
  - exists w3. by split_and!.
Defined.

(** ** Rules for specifications *)

Lemma triple_ret {A} (P : world → Prop) (a : A) Q E :
  (∀ w, P w → Q a w) → triple P (mret a) Q E.
Proof. intros H w Hw. by apply H. Qed.

Lemma triple_bind {A B} (P : world → Prop) (m : M A) (f : A → M B) R Q E :
  triple P m R E → (∀ a, triple (R a) (f a) Q E) → triple P (m ≫= f) Q E.
Proof.
  intros Hm Hf w Hw. specialize (Hm w Hw). unfold mbind, M_bind.
  destruct (m w) as [[a| |] w']; [|done..]. by apply Hf.
Qed.

Lemma triple_weaken {A} (P P' : world → Prop) (m : M A) Q Q' E E' :
  triple P m Q E →
  (∀ w, P' w → P w) → (∀ a w, Q a w → Q' a w) → (∀ w, E w → E' w) →
  triple P' m Q' E'.
Proof.
  intros Hm HP HQ HE w Hw. specialize (Hm w (HP w Hw)).
  destruct (m w) as [[a| |] w']; auto.
Qed.

(** A loop whose invariant [I] may mention what is left to iterate. *)
Lemma triple_for_of {A} (I : list A → world → Prop) (body : A → M unit) E :
  ∀ l,
    (∀ done x rest, l = done ++ x :: rest →
       triple (I (x :: rest)) (body x) (λ _, I rest) E) →
    triple (I l) (for_of l body) (λ _, I []) E.
Proof.
  induction l as [|x l IH]; intros Hbody.
  - by apply triple_ret.
  - simpl. eapply triple_bind.
    + apply (Hbody [] x l eq_refl).
    + intros []. apply IH. intros done y rest ->.
      by apply (Hbody (x :: done) y rest).
Qed.

Lemma triple_fuelled {A} (P : world → Prop) (k : nat → M A) Q E :
  (∀ n, triple P (k n) Q E) → triple P (fuelled k) Q E.
Proof. intros H w Hw. unfold fuelled. by apply H. Qed.

Lemma triple_safeDelete (P : world → Prop) p (Q : unit → world → Prop) E :
  (∀ w w', P w → fs w' = safeDelete_disk p (fs w) →
           timers w' = delete p (timers w) → pending w' = pending w →
           nextId w' = nextId w → clock w' = clock w → Q () w') →
  triple P (safeDelete p) Q E.
Proof.
  intros H w Hw.
  destruct (safeDelete_run p w) as (w' & -> & ? & ? & ? & ? & ?). eauto.
Qed.

(** ** An orphaned [.created] marker survives hydration and the sweep *)

Lemma prefix_snoc_inv {A} (k l : list A) x :
  k `prefix_of` l ++ [x] → k = l ++ [x] ∨ k `prefix_of` l.
Proof.
  intros [r Hr]. destruct r as [|y r _] using rev_ind.
  - left. by rewrite app_nil_r in Hr.
  - right. rewrite app_assoc in Hr. apply app_inj_tail in Hr as [-> _].
    by eexists.
Qed.

Lemma norm_append_downloaded_ne p d b :
  Path.norm (Path.append p MARKER_DOWNLOADED) ≠ d ++ [b +:+ MARKER_CREATED].
Proof.
  rewrite PathFacts.norm_append by done.
  intros [_ E]%app_inj_tail. by apply symmetry, StrFacts.created_ne_downloaded in E.
Qed.

Lemma norm_append_created_eq p d b :
  b ≠ "" →
  Path.norm (Path.append p MARKER_CREATED) = d ++ [b +:+ MARKER_CREATED] →
  Path.norm p = d ++ [b].
Proof.
  intros Hb. rewrite PathFacts.norm_append by done.
  intros [Hd E%StrFacts.app_inj_r]%app_inj_tail.
  destruct (decide (p = [])) as [->|Hp]; [by destruct Hb|].
  rewrite (PathFacts.split_last p Hp), E, PathFacts.norm_snoc by done.
  by rewrite Hd.
Qed.

Section orphan.
Context (d : path) (b : string) (n : node).
Hypothesis Hb : b ≠ "".
Hypothesis Hn : Fs.is_file n = true.

Local Abbreviation a := (d ++ [b]).
Local Abbreviation c := (d ++ [b +:+ MARKER_CREATED]).
Local Abbreviation cd := (d ++ [(b +:+ MARKER_CREATED) +:+ MARKER_DOWNLOADED]).

Lemma orphan_present_ne t k :
  orphan d b n t → is_Some (Fs.find t k) →
  k ≠ a ∧ k ≠ cd ∧ (c `prefix_of` k → k = c).
Proof.
  intros [Ha _ Hcd _ Hbelow _] [m Hk]. split_and!.
  - intros ->. by rewrite Ha in Hk.
  - intros ->. by rewrite Hcd in Hk.
  - intros Hp. destruct (decide (k = c)) as [|Hne]; [done|].
    by rewrite (Hbelow k Hp Hne) in Hk.
Qed.

Lemma orphan_rm_plain t k t' :
  orphan d b n t → k ≠ c → rm_plain t k = Some t' → orphan d b n t'.
Proof.
  intros Ho Hk. unfold rm_plain.
  destruct (Fs.find t k) as [[s st|]|] eqn:E; intros [= <-]; [|done].
  destruct Ho as [Ha Hc Hcd Hab Hbe Hkeys]. split.
  - rewrite FsFacts.find_remove. by case_decide.
  - rewrite FsFacts.find_remove. by case_decide.
  - rewrite FsFacts.find_remove. by case_decide.
  - intros q Hq. destruct (Hab q Hq) as [st' Hq']. exists st'.
    rewrite FsFacts.find_remove. case_decide; [|done]. congruence.
  - intros k' Hp Hne. rewrite FsFacts.find_remove. case_decide; auto.
  - intros k' m [_ Hin]%FsFacts.elem_remove. eauto.
Qed.

Lemma orphan_not_emptied t k st :
  orphan d b n t → Fs.find t k = Some (Dir st) → Fs.children t k = [] →
  ¬ k `prefix_of` c.
Proof.
  intros [Ha Hc Hcd Hab Hbe Hkeys] Hk Hch.
  rewrite FsFacts.children_nil in Hch.
  intros [->|[r ->]]%prefix_snoc_inv.
  - rewrite Hc in Hk. by simplify_eq.
  - destruct r as [|y r].
    + rewrite app_nil_r in *.
      by apply (Hch (b +:+ MARKER_CREATED) n), FsFacts.find_Some_elem.
    + destruct (Hab (k ++ [y])) as [st' Hy].
      { exists r. by rewrite <- app_assoc. }
      by apply (Hch y (Dir st')), FsFacts.find_Some_elem.
Qed.

Lemma orphan_remove_rec t k st :
  orphan d b n t → Fs.find t k = Some (Dir st) → Fs.children t k = [] →
  orphan d b n (Fs.remove_rec t k).
Proof.
  intros Ho Hk Hch. pose proof (orphan_not_emptied t k st Ho Hk Hch) as Hnp.
  destruct Ho as [Ha Hc Hcd Hab Hbe Hkeys]. split.
  - rewrite FsFacts.find_remove_rec. by case_decide.
  - rewrite FsFacts.find_remove_rec. by case_decide.
  - rewrite FsFacts.find_remove_rec. by case_decide.
  - intros q Hq. destruct (Hab q Hq) as [st' Hq']. exists st'.
    rewrite FsFacts.find_remove_rec. case_decide as Hp; [|done].
    destruct Hnp. etrans; [done|]. etrans; [done|]. by apply prefix_app_r.
  - intros k' Hp Hne. rewrite FsFacts.find_remove_rec. case_decide; auto.
  - intros k' m [_ Hin]%FsFacts.elem_remove_rec. eauto.
Qed.

Lemma orphan_rm_if_empty t k t' :
  orphan d b n t → rm_if_empty t k = Some t' → orphan d b n t'.
Proof.
  intros Ho. unfold rm_if_empty.
  destruct (Fs.find t k) as [[s st|st]|] eqn:E; intros [= <-]; [|done].
  case_bool_decide; [|done]. by eapply orphan_remove_rec.
Qed.

Lemma orphan_safeDelete_disk t p :
  orphan d b n t → Path.norm p ≠ a → Path.norm p ≠ c →
  orphan d b n (safeDelete_disk p t).
Proof.
  intros Ho Hpa Hpc. unfold safeDelete_disk.
  destruct (rm_plain t _) as [t1|] eqn:E1; [|done].
  assert (orphan d b n t1) as Ho1 by eauto using orphan_rm_plain.
  destruct (rm_plain t1 _) as [t2|] eqn:E2; [|done].
  assert (orphan d b n t2) as Ho2.
  { eapply orphan_rm_plain; [exact Ho1| |exact E2].
    apply norm_append_downloaded_ne. }
  destruct (rm_plain t2 _) as [t3|] eqn:E3; [|done].
  assert (orphan d b n t3) as Ho3.
  { eapply orphan_rm_plain; [exact Ho2| |exact E3].
    intros E. by apply norm_append_created_eq in E. }
  destruct (rm_if_empty t3 _) as [t4|] eqn:E4; [|done].
  by eapply orphan_rm_if_empty.
Qed.

Lemma orphan_write t k n' t' :
  orphan d b n t → is_Some (Fs.find t k) → k ≠ c →
  Fs.write t k n' = inr t' → orphan d b n t'.
Proof.
  intros Ho Hk Hkc Hw.
  destruct (orphan_present_ne t k Ho Hk) as (Hka & Hkcd & _).
  pose proof (λ k', find_write _ _ _ _ k' Hw) as Hf.
  destruct Ho as [Ha Hc Hcd Hab Hbe Hkeys]. split.
  - intros. rewrite Hf. by rewrite decide_False.
  - rewrite Hf. by rewrite decide_False.
  - rewrite Hf. by rewrite decide_False.
  - intros q Hq. destruct (Hab q Hq) as [st' Hq']. exists st'.
    rewrite Hf. case_decide; [|done]. subst q.
    unfold Fs.write in Hw. by rewrite Hq' in Hw.
  - intros k' Hp Hne. rewrite Hf. case_decide; [|by auto]. subst k'.
    destruct Hk as [m Hk]. by rewrite (Hbe k Hp Hne) in Hk.
  - intros k' m Hin. unfold Fs.write in Hw. destruct Hk as [m0 Hk].
    rewrite Hk in Hw. destruct m0; [|done]. injection Hw as <-.
    unfold Fs.replace in Hin. apply list_elem_of_fmap in Hin as ([k0 m0] & E & Hin).
    simpl in E. case_decide; simplify_eq; eauto.
Qed.

End orphan.

(** ** The steps of the walks, on the disk alone *)

Lemma rmSync_plain_run p w :
  ∃ o w', fs.rmSync p false w = (o, w')
          ∧ timers w' = timers w ∧ pending w' = pending w
          ∧ clock w' = clock w
          ∧ match rm_plain (fs w) (Path.norm p) with
            | Some t' => o = Ret () ∧ fs w' = t'
            | None => o = Throw EISDIR ∧ fs w' = fs w
            end.
Proof.
  unfold fs.rmSync, rm_plain.
  destruct (Fs.find (fs w) (Path.norm p)) as [[]|]; by do 2 eexists.
Qed.

Lemma clean_empty_dir_run full w :
  ∃ o w', clean_empty_dir full w = (o, w')
          ∧ timers w' = timers w ∧ pending w' = pending w
          ∧ clock w' = clock w
          ∧ match rm_if_empty (fs w) (Path.norm full) with
            | Some t' => o = Ret () ∧ fs w' = t'
            | None => o = Throw ENOTDIR ∧ fs w' = fs w
            end.
Proof.
  unfold clean_empty_dir, rm_if_empty. run.
  all: try (by do 2 eexists).
  rewrite length_fmap. case_bool_decide as Hl; case_bool_decide as Hc; run;
    try (by do 2 eexists).
  all: exfalso; destruct (Fs.children _ _); simplify_eq/=.
Qed.

Lemma purge_file_run now ttl full w :
  ∃ o w', purge_file now ttl full w = (o, w')
          ∧ pending w' = pending w ∧ clock w' = clock w
          ∧ match createdAt_of (fs w) now full with
            | None => (∃ e, o = Throw e) ∧ fs w' = fs w
            | Some c =>
                o = Ret ()
                ∧ fs w' = if Js.ge (Js.sub (Num now) c) (Num ttl)
                          then safeDelete_disk full (fs w) else fs w
            end.
Proof.
  unfold purge_file, createdAt_of. run.
  all: try (do 2 eexists; split; [done|]; split_and!; try done; by eexists).
  all: destruct (Js.ge _ _) eqn:Hge; run; [|by do 2 eexists].
  all: match goal with |- context [safeDelete ?p ?w0] =>
         destruct (safeDelete_run p w0) as (w' & -> & Hf & _ & Hp & _ & Hc)
       end.
  all: do 2 eexists; split; [done|]; by split_and!.
Qed.

Lemma readdir_run dir w :
  fs.readdirSync_withFileTypes dir w
  = match Fs.find (fs w) (Path.norm dir) with
    | Some (Dir _) =>
        (Ret (Dirent.of_entry <$> Fs.children (fs w) (Path.norm dir)), w)
    | Some (File _ _) => (Throw ENOTDIR, w)
    | None => (Throw ENOENT, w)
    end.
Proof.
  unfold fs.readdirSync_withFileTypes.
  by destruct (Fs.find (fs w) (Path.norm dir)) as [[]|].
Qed.

(** What a directory entry says about the disk it was read from. *)
Lemma entry_facts (t : tree) dir e :
  (∀ k m, (k, m) ∈ t → Path.norm k = k) →
  e ∈ Dirent.of_entry <$> Fs.children t (Path.norm dir) →
  ∃ n, (Path.join dir (Dirent.name e), n) ∈ t
       ∧ Path.join dir (Dirent.name e) = Path.norm dir ++ [Dirent.name e]
       ∧ Dirent.name e ≠ ""
       ∧ Dirent.isDirectory e = Fs.is_dir n
       ∧ Dirent.isFile e = Fs.is_file n.
Proof.
  intros Hkeys ([c n] & -> & Hin%FsFacts.elem_children)%list_elem_of_fmap.
  simpl. pose proof (Hkeys _ _ Hin) as Hnorm.
  assert (c ≠ "") as Hc.
  { intros ->. rewrite PathFacts.norm_snoc_empty, PathFacts.norm_idemp in Hnorm.
    by apply symmetry, snoc_ne_self in Hnorm. }
  assert (Path.join dir c = Path.norm dir ++ [c]) as ->.
  { unfold Path.join. by rewrite PathFacts.norm_snoc. }
  by exists n.
Qed.

Section orphan_walks.
Context (d : path) (b : string) (n : node).
Hypothesis Hb : b ≠ "".
Hypothesis Hn : Fs.is_file n = true.

Local Abbreviation a := (d ++ [b]).
Local Abbreviation c := (d ++ [b +:+ MARKER_CREATED]).
Local Abbreviation cd := (d ++ [(b +:+ MARKER_CREATED) +:+ MARKER_DOWNLOADED]).
Local Abbreviation orphan_w := (λ w : world, orphan d b n (fs w)).

Lemma hydrate_marker_keeps delay full w :
  orphan d b n (fs w) → Path.norm full = full → full ≠ [] →
  Str.endsWith (List.last full "") MARKER_DOWNLOADED = true →
  orphan d b n (fs (hydrate_marker delay full w).2).
Proof.
  intros Ho Hnf Hf He. rewrite hydrate_marker_run.
  destruct (normal_split full Hnf Hf) as (r & y & Hfull & Hr & Hy).
  assert (List.last full "" = y) as Hlast
    by (rewrite Hfull; apply PathFacts.last_snoc).
  rewrite Hlast in He. apply StrFacts.endsWith_inv in He as [x ->].
  assert (full ≠ c) as Hfc.
  { rewrite Hfull. intros [_ E]%app_inj_tail.
    by apply symmetry, StrFacts.created_ne_downloaded in E. }
  destruct (Fs.find (fs w) (Path.norm (artifact_of full))) as [m|] eqn:Ea.
  - rewrite Hnf. destruct (Fs.find (fs w) full) as [[s st|st]|] eqn:Em; [|done..].
    assert (is_Some (Fs.find (fs w) full)) as Hpres by (by eexists).
    destruct (orphan_present_ne d b n (fs w) full Ho Hpres)
      as (Hfa & Hfcd & Hbelow).
    assert (Path.norm (artifact_of full) ≠ c) as Hac.
    { unfold artifact_of, Path.slice_end.
      rewrite Hlast, Hfull, PathFacts.removelast_snoc, StrFacts.slice_end_app.
      destruct (decide (x = "")) as [->|Hx].
      - rewrite PathFacts.norm_snoc_empty, Hr. intros ->.
        apply Hfc, Hbelow. rewrite Hfull. by eexists.
      - rewrite PathFacts.norm_snoc, Hr by done.
        intros [-> ->]%app_inj_tail. by apply Hfcd. }
    assert (Path.norm (artifact_of full) ≠ a) as Haa.
    { apply (orphan_present_ne d b n (fs w)); [done|]. by rewrite Ea. }
    destruct (Js.le _ _).
    + destruct (safeDelete_run (artifact_of full) w) as (w' & -> & Hfs & _).
      simpl. rewrite Hfs. by apply orphan_safeDelete_disk.
    + destruct (scheduleDeletion_run (artifact_of full)
                  (remaining_of delay (clock w) s) w)
        as (w' & -> & _ & _ & _ & _ & Hfs).
      rewrite append_artifact_of, Hnf in Hfs;
        [|done|rewrite Hlast; apply StrFacts.endsWith_app].
      simpl. rewrite Hfs. clear Hfs.
      destruct (Fs.write _ _ _) as [e|t'] eqn:Ew; [exact Ho|].
      eapply orphan_write;
        first [exact Ho|exact Hpres|exact Hfc|exact Ew|done].
  - destruct (rmSync_plain_run full w) as (o & w' & -> & _ & _ & _ & Hrm).
    simpl. rewrite Hnf in Hrm.
    destruct (rm_plain (fs w) full) as [t'|] eqn:Erm; destruct Hrm as [_ ->];
      [|done].
    eapply orphan_rm_plain; first [exact Ho|exact Hfc|exact Erm|done].
Qed.

Lemma purge_file_keeps now ttl full w :
  orphan d b n (fs w) → Path.norm full ≠ a → Path.norm full ≠ c →
  orphan d b n (fs (purge_file now ttl full w).2).
Proof.
  intros Ho Ha Hc.
  destruct (purge_file_run now ttl full w) as (o & w' & -> & _ & _ & Hfs).
  simpl. destruct (createdAt_of _ _ _) as [cr|]; destruct Hfs as [_ ->];
    [|done].
  destruct (Js.ge _ _); [|done]. by apply orphan_safeDelete_disk.
Qed.

Lemma clean_empty_dir_keeps full w :
  orphan d b n (fs w) → orphan d b n (fs (clean_empty_dir full w).2).
Proof.
  intros Ho.
  destruct (clean_empty_dir_run full w) as (o & w' & -> & _ & _ & _ & Hfs).
  simpl. destruct (rm_if_empty _ _) as [t'|] eqn:E; destruct Hfs as [_ ->];
    [|done].
  by eapply orphan_rm_if_empty.
Qed.

Lemma keeps_triple {A} (m : M A) :
  (∀ w, orphan d b n (fs w) → orphan d b n (fs (m w).2)) →
  triple orphan_w m (λ _, orphan_w) orphan_w.
Proof.
  intros H w Hw. specialize (H w Hw). by destruct (m w) as [[| |] w'].
Qed.

Lemma triple_keeps {A} (m : M A) w :
  triple orphan_w m (λ _, orphan_w) orphan_w →
  orphan d b n (fs w) → orphan d b n (fs (m w).2).
Proof.
  intros H Hw. specialize (H w Hw). by destruct (m w) as [[| |] w'].
Qed.

Lemma readdir_triple dir :
  triple orphan_w (fs.readdirSync_withFileTypes dir)
    (λ es w, orphan_w w
             ∧ ∀ e, e ∈ es →
                 Path.join dir (Dirent.name e) ≠ a
                 ∧ Path.join dir (Dirent.name e)
                   = Path.norm dir ++ [Dirent.name e]
                 ∧ Dirent.name e ≠ "")
    orphan_w.
Proof.
  intros w Hw. rewrite readdir_run.
  destruct (Fs.find (fs w) (Path.norm dir)) as [[|]|]; try done.
  split; [done|]. intros e He.
  destruct (entry_facts (fs w) dir e (orphan_keys _ _ _ _ Hw) He)
    as (m & Hin & ? & ? & ? & ?).
  split_and!; try done.
  apply (orphan_present_ne d b n (fs w)); [exact Hw|].
  by eapply FsFacts.elem_find.
Qed.

Lemma endsWith_false_ne s suf t : Str.endsWith s suf = false → s ≠ t +:+ suf.
Proof. intros H ->. by rewrite StrFacts.endsWith_app in H. Qed.

Lemma hydrate_walk_keeps delay fuel : ∀ dir,
  triple orphan_w (hydrate_walk fuel delay dir) (λ _, orphan_w) orphan_w.
Proof.
  induction fuel as [|fuel IH]; intros dir; [by intros w Hw|].
  simpl. eapply triple_bind; [apply readdir_triple|].
  intros es w [Hw Hes]. revert w Hw.
  apply (triple_for_of (λ _, orphan_w)).
  intros done e rest ->.
  destruct (Hes e) as (Hfa & Hjoin & Hname).
  { apply elem_of_app. right. apply list_elem_of_here. }
  unfold hydrate_entry.
  destruct (Dirent.isDirectory e); [apply IH|].
  destruct (Dirent.isFile e); [|by apply triple_ret].
  destruct (Str.endsWith _ _) eqn:He; [|by apply triple_ret].
  apply keeps_triple. intros w Hw. apply hydrate_marker_keeps; try done.
  - unfold Path.join. apply PathFacts.norm_idemp.
  - rewrite Hjoin. by destruct (Path.norm dir).
  - by rewrite Hjoin, PathFacts.last_snoc.
Qed.

Lemma purge_walk_keeps now ttl fuel : ∀ dir,
  triple orphan_w (purge_walk fuel now ttl dir) (λ _, orphan_w) orphan_w.
Proof.
  induction fuel as [|fuel IH]; intros dir; [by intros w Hw|].
  simpl. eapply triple_bind; [apply readdir_triple|].
  intros es w [Hw Hes]. revert w Hw.
  apply (triple_for_of (λ _, orphan_w)).
  intros done e rest ->.
  destruct (Hes e) as (Hfa & Hjoin & Hname).
  { apply elem_of_app. right. apply list_elem_of_here. }
  unfold purge_entry.
  destruct (Dirent.isDirectory e).
  { eapply triple_bind; [apply IH|]. intros [].
    apply keeps_triple, clean_empty_dir_keeps. }
  destruct (Dirent.isFile e); [|by apply triple_ret].
  destruct (Str.endsWith _ MARKER_CREATED) eqn:He; [by apply triple_ret|].
  destruct (Str.endsWith _ MARKER_DOWNLOADED); [by apply triple_ret|].
  simpl. apply keeps_triple. intros w' Hw'.
  assert (Path.norm (Path.join dir (Dirent.name e))
          = Path.join dir (Dirent.name e)) as Hnorm
    by apply PathFacts.norm_idemp.
  apply purge_file_keeps; rewrite ?Hnorm; try done.
  rewrite Hjoin. intros [_ E]%app_inj_tail.
  by eapply endsWith_false_ne.
Qed.

Lemma purgeOlderThan_keeps root ttl w :
  orphan d b n (fs w) → orphan d b n (fs (purgeOlderThan root ttl w).2).
Proof.
  intros Hw. unfold purgeOlderThan. unfold_M.
  destruct (Fs.find (fs w) (Path.norm root)); simpl; [|done].
  apply (triple_keeps (fuelled _)); [|done].
  apply triple_fuelled. intros fuel. apply purge_walk_keeps.
Qed.

Lemma hydrateFromDisk_keeps root delay ttl w :
  orphan d b n (fs w) → orphan d b n (fs (hydrateFromDisk root delay ttl w).2).
Proof.
  intros Hw. unfold hydrateFromDisk.
  apply (triple_keeps _ w); [|done].
  eapply triple_bind; [by apply keeps_triple|]. intros [].
  eapply triple_bind; [apply keeps_triple; intros w0 ?; unfold fs.existsSync;
                       by destruct (Fs.find _ _)|].
  intros [|]; simpl; [|by apply triple_ret].
  eapply triple_bind.
  - apply triple_fuelled. intros fuel. apply hydrate_walk_keeps.
  - intros []. apply keeps_triple, purgeOlderThan_keeps.
Qed.

End orphan_walks.

(** C10 fails as stated: a [.created] file that has a [.downloaded] marker
    of its own (a client downloaded the marker file) is, to hydration, an
    artifact like any other. Its artifact [a.pdf] is absent, yet after the
    grace period hydration deletes [a.pdf.created] and then the emptied
    request directory. *)
Lemma hydration_reclaims_downloaded_created_marker :
  let t := restart disk_orphan_downloaded 1700000000000 in
  Fs.find disk_orphan_downloaded ["outputs"; "R1"; "a.pdf"] = None
  ∧ Fs.find disk_orphan_downloaded ["outputs"; "R1"; "a.pdf.created"]
    = Some (File "1000" st0)
  ∧ Fs.find t ["outputs"; "R1"; "a.pdf.created"] = None
  ∧ Fs.find t ["outputs"; "R1"] = None.
Proof. vm_compute. done. Qed.

(** C10, amended. A [.created] marker that is a regular file, whose
    artifact is absent and which has no [.downloaded] marker of its own,
    outlives every TTL sweep and every hydration, with any roots and
    periods and at any times: it stays on disk unchanged, and its request
    directory stays with it. *)
Theorem orphan_created_marker_survives
    (dir : path) (name : string) (n : node) (js : list job) (w : world) :
  name ≠ "" →
  Fs.is_file n = true →
  orphan dir name n (fs w) →
  let w' := run_jobs js w in
  orphan dir name n (fs w')
  ∧ Fs.find (fs w') (dir ++ [name +:+ MARKER_CREATED]) = Some n
  ∧ (∃ st, Fs.find (fs w') dir = Some (Dir st))
  ∧ Fs.children (fs w') dir ≠ [].
Proof.
  intros Hname Hn Ho. cbv zeta.
  assert (orphan dir name n (fs (run_jobs js w))) as Ho'.
  { revert w Ho. unfold run_jobs.
    induction js as [|j js IH]; intros w Ho; [done|]. simpl. apply IH.
    destruct j as [r ttl|r delay ttl|ms]; simpl; unfold exec.
    - by apply purgeOlderThan_keeps.
    - by apply hydrateFromDisk_keeps.
    - done. }
  split_and!; [done|by apply Ho'|by apply Ho'|].
  intros Hnil. rewrite FsFacts.children_nil in Hnil.
  eapply Hnil, FsFacts.find_Some_elem, Ho'.
Qed.

Lemma orphan_disk_orphan :
  orphan ["outputs"; "R1"] "a.pdf" (File "1000" st0) disk_orphan.
Proof.
  split; try reflexivity.
  - intros q [r Hr].
    destruct q as [|x [|y [|z q]]]; simplify_eq/=; by eexists.
  - intros k [r ->] Hne. destruct r as [|x r]; [done|]. reflexivity.
  - intros k m Hin. unfold disk_orphan in Hin.
    repeat (apply elem_of_cons in Hin as [[= -> ->]|Hin]; [reflexivity|]).
    by apply elem_of_nil in Hin.
Qed.

Lemma orphan_created_marker_survives_witness :
  let js := [Hydrate ["outputs"] TEN_MIN ONE_DAY; Elapse (2 * ONE_DAY);
             Sweep ["outputs"] ONE_DAY; Hydrate ["outputs"] TEN_MIN ONE_DAY] in
  let w := boot disk_orphan 1700000000000 in
  let w' := run_jobs js w in
  orphan ["outputs"; "R1"] "a.pdf" (File "1000" st0) (fs w)
  ∧ Fs.find (fs w') ["outputs"; "R1"; "a.pdf.created"] = Some (File "1000" st0)
  ∧ (∃ st, Fs.find (fs w') ["outputs"; "R1"] = Some (Dir st)).
Proof.
  intros js w w'. split; [apply orphan_disk_orphan|].
  destruct (orphan_created_marker_survives ["outputs"; "R1"] "a.pdf"
              (File "1000" st0) js w)
    as (_ & Hm & Hd & _).
  - discriminate.
  - reflexivity.
  - apply orphan_disk_orphan.
  - split; [exact Hm|exact Hd].
Defined.

(** ** Well-formed disks *)

Lemma find_elem_nodup (t : tree) k m :
  NoDup t.*1 → (k, m) ∈ t → Fs.find t k = Some m.
Proof.
  induction t as [|[q m'] t IH]; simpl; intros Hnd Hin.
  - by apply elem_of_nil in Hin.
  - apply NoDup_cons in Hnd as [Hq Hnd].
    apply elem_of_cons in Hin as [[= -> ->]|Hin].
    + by rewrite decide_True.
    + case_decide; [|by apply IH]. subst q. destruct Hq.
      apply list_elem_of_fmap. by exists (k, m).
Qed.

Lemma sub_refl t : sub t t.
Proof. by intros k m. Qed.

Lemma sub_trans t1 t2 t3 : sub t1 t2 → sub t2 t3 → sub t1 t3.
Proof. intros H1 H2 k m Hk. by apply H2, H1. Qed.

Lemma sub_absent t' t k : sub t' t → Fs.find t k = None → Fs.find t' k = None.
Proof.
  intros Hs Hk. destruct (Fs.find t' k) as [m|] eqn:E; [|done].
  by rewrite (Hs k m E) in Hk.
Qed.

Lemma sub_remove t k : sub (Fs.remove t k) t.
Proof. intros k' m. rewrite FsFacts.find_remove. by case_decide. Qed.

Lemma sub_remove_rec t k : sub (Fs.remove_rec t k) t.
Proof. intros k' m. rewrite FsFacts.find_remove_rec. by case_decide. Qed.

Lemma NoDup_fst_filter (P : path * node → Prop) `{!∀ x, Decision (P x)}
    (t : tree) :
  NoDup t.*1 → NoDup (filter P t).*1.
Proof. apply NoDup_fmap_filter. Qed.

Section wf.
Context (t : tree).
Hypothesis Hwf : wf t.

Lemma wf_find_elem k m : Fs.find t k = Some m ↔ (k, m) ∈ t.
Proof.
  split; [apply FsFacts.find_Some_elem|].
  apply find_elem_nodup, Hwf.
Qed.

Lemma wf_find_norm k m : Fs.find t k = Some m → Path.norm k = k.
Proof. intros H%wf_find_elem. by eapply wf_keys. Qed.

Lemma wf_find_parent k c m :
  Fs.find t (k ++ [c]) = Some m → ∃ st, Fs.find t k = Some (Dir st).
Proof.
  intros H%wf_find_elem. destruct (wf_parent t Hwf _ _ H) as [st Hst].
  - by destruct k.
  - exists st. by rewrite PathFacts.removelast_snoc in Hst.
Qed.

Lemma wf_file_leaf k s st r :
  Fs.find t k = Some (File s st) → r ≠ [] → Fs.find t (k ++ r) = None.
Proof.
  intros Hk. induction r as [|c r IH] using rev_ind; [done|]. intros _.
  destruct (Fs.find t (k ++ r ++ [c])) as [m|] eqn:E; [|done].
  rewrite app_assoc in E. apply wf_find_parent in E as [st' E].
  destruct r as [|c' r].
  - rewrite app_nil_r in E. congruence.
  - by rewrite IH in E.
Qed.

Lemma wf_above k r m :
  Fs.find t (k ++ r) = Some m → r ≠ [] → ∃ st, Fs.find t k = Some (Dir st).
Proof.
  revert m. induction r as [|c r IH] using rev_ind; [done|]. intros m E _.
  rewrite app_assoc in E. apply wf_find_parent in E as [st' E].
  destruct r as [|c' r].
  - rewrite app_nil_r in E. by exists st'.
  - by eapply IH.
Qed.

Lemma wf_child_present k c r m :
  Fs.find t (k ++ c :: r) = Some m → is_Some (Fs.find t (k ++ [c])).
Proof.
  intros E. destruct r as [|c' r]; [by eexists|].
  replace (k ++ c :: c' :: r) with ((k ++ [c]) ++ c' :: r) in E
    by (by rewrite <- app_assoc).
  apply wf_above in E as [st E]; [by eexists|done].
Qed.

(** Emptying out an empty directory removes the directory and nothing
    else. *)
Lemma remove_rec_empty k k' :
  Fs.children t k = [] → k' ≠ k →
  Fs.find (Fs.remove_rec t k) k' = Fs.find t k'.
Proof.
  intros Hch Hne. rewrite FsFacts.find_remove_rec.
  case_decide as Hp; [|done]. destruct Hp as [r ->].
  destruct r as [|c r]; [by rewrite app_nil_r in Hne|].
  destruct (Fs.find t (k ++ c :: r)) as [m|] eqn:E; [|done].
  apply wf_child_present in E as [m' E].
  rewrite FsFacts.children_nil in Hch.
  by destruct (Hch c m'); apply wf_find_elem.
Qed.

Lemma wf_remove_file k s st :
  Fs.find t k = Some (File s st) → wf (Fs.remove t k).
Proof.
  intros Hk. destruct Hwf as [Hnd Hkeys Hpar]. split.
  - by apply NoDup_fst_filter.
  - intros k' m [_ Hin]%FsFacts.elem_remove. eauto.
  - intros k' m [Hne Hin]%FsFacts.elem_remove Hk'. simpl in Hne.
    destruct (Hpar k' m Hin Hk') as [st' Hp]. exists st'.
    rewrite FsFacts.find_remove. case_decide; [congruence|done].
Qed.

Lemma wf_remove_rec k : wf (Fs.remove_rec t k).
Proof.
  destruct Hwf as [Hnd Hkeys Hpar]. split.
  - by apply NoDup_fst_filter.
  - intros k' m [_ Hin]%FsFacts.elem_remove_rec. eauto.
  - intros k' m [Hne Hin]%FsFacts.elem_remove_rec Hk'. simpl in Hne.
    destruct (Hpar k' m Hin Hk') as [st' Hp]. exists st'.
    rewrite FsFacts.find_remove_rec. case_decide as Hpre; [|done].
    destruct Hne. etrans; [exact Hpre|].
    rewrite (PathFacts.split_last k' Hk') at 2. by apply prefix_app_r.
Qed.

Lemma wf_children_nodup k : NoDup (Fs.children t k).*1.
Proof.
  destruct Hwf as [Hnd _ _]. clear Hwf. unfold Fs.children.
  induction t as [|[q m] t' IH]; simpl; [constructor|].
  apply NoDup_cons in Hnd as [Hq Hnd].
  destruct (Fs.child_of k (q, m)) as [[c m']|] eqn:E; simpl; [|by apply IH].
  apply FsFacts.child_of_Some in E as [= -> ->].
  apply NoDup_cons. split; [|by apply IH].
  intros ([c' m''] & -> & Hin)%list_elem_of_fmap. simpl in *.
  apply list_elem_of_omap in Hin as ([q' m3] & Hin & E).
  apply FsFacts.child_of_Some in E as [= -> ->].
  apply Hq. apply list_elem_of_fmap. by exists (k ++ [c'], m'').
Qed.

End wf.

(** ** The TTL sweep *)

Lemma marker_named_created x : marker_named (x +:+ MARKER_CREATED) = true.
Proof. unfold marker_named. by rewrite StrFacts.endsWith_app. Qed.

Lemma marker_named_downloaded x : marker_named (x +:+ MARKER_DOWNLOADED) = true.
Proof.
  unfold marker_named. rewrite (StrFacts.endsWith_app _ MARKER_DOWNLOADED).
  apply orb_true_r.
Qed.

Lemma last_norm_append p s :
  s ≠ "" → List.last (Path.norm (Path.append p s)) "" = List.last p "" +:+ s.
Proof. intros Hs. by rewrite PathFacts.norm_append, PathFacts.last_snoc. Qed.

Lemma depth_bound (t : tree) k m : (k, m) ∈ t → (length k ≤ depth t)%nat.
Proof.
  intros Hin. unfold depth.
  apply (max_list_elem_of_le (length k)).
  apply list_elem_of_fmap. by exists (k, m).
Qed.

Section sweep.
Context (t0 : tree) (now ttl : Z).
Hypothesis Hwf0 : wf t0.
Hypothesis Hnc0 : no_created_dir t0.

Local Abbreviation Inv := (sweep_inv t0 now ttl).
Local Abbreviation cand := (candidate t0).

Lemma created_marker_not_dir t f st :
  sub t t0 →
  Fs.find t (Path.norm (Path.append f MARKER_CREATED)) ≠ Some (Dir st).
Proof.
  intros Hsub E. apply Hsub, Hnc0 in E.
  rewrite last_norm_append in E by done.
  by rewrite StrFacts.endsWith_app in E.
Qed.

(** While a file is on disk the sweep judges it as it would have at the
    start. *)
Lemma createdAt_stable t f :
  Inv t → cand f → is_Some (Fs.find t f) →
  createdAt_of t now f = createdAt_of t0 now f
  ∧ is_Some (createdAt_of t now f).
Proof.
  intros [Hwf Hsub Hkept Hmark] Hc [m Hf].
  pose proof (wf_find_norm t Hwf f m Hf) as Hnorm.
  unfold createdAt_of. rewrite (Hmark f Hc) by by eexists.
  rewrite Hnorm, Hf, (Hsub _ _ Hf).
  split; [done|].
  destruct (Fs.find t0 _) as [[s st|st]|] eqn:E; [by eexists| |by eexists].
  exfalso. rewrite <- (Hmark f Hc) in E by by eexists.
  by eapply created_marker_not_dir.
Qed.

Lemma expired_stable t f :
  Inv t → cand f → is_Some (Fs.find t f) →
  expired t now ttl f = expired t0 now ttl f.
Proof.
  intros Hi Hc Hf. unfold expired.
  by destruct (createdAt_stable t f Hi Hc Hf) as [-> _].
Qed.

End sweep.

Lemma cw_refl K d t : wf t → changes_within K d t t.
Proof. intros Hwf. split_and!; try done. apply sub_refl. Qed.

Lemma cw_trans K d t1 t2 t3 :
  changes_within K d t1 t2 → changes_within K d t2 t3 →
  changes_within K d t1 t3.
Proof.
  intros (_ & Hs1 & Hf1 & Hd1) (Hw2 & Hs2 & Hf2 & Hd2). split_and!.
  - done.
  - by eapply sub_trans.
  - intros k Hk. by rewrite Hf2, Hf1.
  - intros k st Hk Hne. apply Hd2; [|done]. by apply Hd1.
Qed.

Lemma cw_rm_plain K d t k t' :
  wf t → k ∈ K → rm_plain t k = Some t' → changes_within K d t t'.
Proof.
  intros Hwf Hk. unfold rm_plain.
  destruct (Fs.find t k) as [[s st|st]|] eqn:E; intros [= <-];
    [|by apply cw_refl].
  split_and!.
  - by eapply wf_remove_file.
  - apply sub_remove.
  - intros k' Hk'. rewrite FsFacts.find_remove. case_decide; [|done].
    by subst.
  - intros k' st' Hk' _. rewrite FsFacts.find_remove.
    case_decide; [congruence|done].
Qed.

Lemma cw_rm_if_empty K d t t' :
  wf t → d ∈ K → rm_if_empty t d = Some t' → changes_within K d t t'.
Proof.
  intros Hwf Hd. unfold rm_if_empty.
  destruct (Fs.find t d) as [[s st|st]|] eqn:E; intros [= <-];
    [|by apply cw_refl].
  case_bool_decide as Hch; [|by apply cw_refl]. split_and!.
  - by apply wf_remove_rec.
  - apply sub_remove_rec.
  - intros k' Hk'. apply remove_rec_empty; try done. by intros ->.
  - intros k' st' Hk' Hne. by rewrite remove_rec_empty.
Qed.

Lemma cw_safeDelete_disk p t :
  wf t →
  changes_within
    [Path.norm p; Path.norm (Path.append p MARKER_DOWNLOADED);
     Path.norm (Path.append p MARKER_CREATED); Path.norm (Path.dirname p)]
    (Path.norm (Path.dirname p)) t (safeDelete_disk p t).
Proof.
  intros Hwf. unfold safeDelete_disk.
  set (K := [Path.norm p; Path.norm (Path.append p MARKER_DOWNLOADED);
             Path.norm (Path.append p MARKER_CREATED);
             Path.norm (Path.dirname p)]).
  set (d := Path.norm (Path.dirname p)).
  assert (Path.norm p ∈ K) as H1 by (apply list_elem_of_here).
  assert (Path.norm (Path.append p MARKER_DOWNLOADED) ∈ K) as H2
    by (apply list_elem_of_further, list_elem_of_here).
  assert (Path.norm (Path.append p MARKER_CREATED) ∈ K) as H3
    by (do 2 apply list_elem_of_further; apply list_elem_of_here).
  assert (d ∈ K) as H4
    by (do 3 apply list_elem_of_further; apply list_elem_of_here).
  destruct (rm_plain t _) as [t1|] eqn:E1; [|by apply cw_refl].
  pose proof (cw_rm_plain K d _ _ _ Hwf H1 E1) as C1.
  destruct (rm_plain t1 _) as [t2|] eqn:E2; [|done].
  pose proof (cw_rm_plain K d _ _ _ (proj1 C1) H2 E2) as C2.
  destruct (rm_plain t2 _) as [t3|] eqn:E3; [|by eapply cw_trans].
  pose proof (cw_rm_plain K d _ _ _ (proj1 C2) H3 E3) as C3.
  destruct (rm_if_empty t3 _) as [t4|] eqn:E4;
    [|by eauto using cw_trans].
  pose proof (cw_rm_if_empty K d _ _ (proj1 C3) H4 E4) as C4.
  eauto using cw_trans.
Qed.

Section sweep_steps.
Context (t0 : tree) (now ttl : Z).
Hypothesis Hwf0 : wf t0.
Hypothesis Hnc0 : no_created_dir t0.

Local Abbreviation Inv := (sweep_inv t0 now ttl).
Local Abbreviation cand := (candidate t0).

(** Removing an expired file, its markers and its emptied directory. *)
Lemma sweep_inv_delete t d x s st :
  Inv t → x ≠ "" → cand (d ++ [x]) →
  Fs.find t (d ++ [x]) = Some (File s st) →
  expired t0 now ttl (d ++ [x]) = true →
  let t' := safeDelete_disk (d ++ [x]) t in
  Inv t'
  ∧ sub t' t
  ∧ Fs.find t' (d ++ [x]) = None
  ∧ (∀ k, k ∉ [d ++ [x]; d ++ [x +:+ MARKER_DOWNLOADED];
               d ++ [x +:+ MARKER_CREATED]; d] →
          Fs.find t' k = Fs.find t k)
  ∧ (∀ k st', Fs.find t k = Some (Dir st') → k ≠ d →
              Fs.find t' k = Some (Dir st')).
Proof.
  intros Hi Hx Hc Hf Hexp t'.
  pose proof Hi as [Hwf Hsub Hkept Hmark].
  destruct (wf_find_parent t Hwf _ _ _ Hf) as [dst Hd].
  pose proof (wf_find_norm t Hwf _ _ Hd) as Hnd.
  pose proof (cw_safeDelete_disk (d ++ [x]) t Hwf) as Hcw.
  rewrite (norm_child d x Hnd Hx), !(norm_append_child d x Hnd Hx),
    (dirname_child d x Hnd Hx), Hnd in Hcw.
  fold t' in Hcw. destruct Hcw as (Hwf' & Hsub' & Hframe & Hdirs).
  assert (Fs.find t' (d ++ [x]) = None) as Hgone.
  { unfold t'. rewrite <- (norm_child d x Hnd Hx) at 2.
    eapply safeDelete_disk_file_gone. by rewrite (norm_child d x Hnd Hx). }
  split_and!; try done. split.
  - done.
  - by eapply sub_trans.
  - intros g Hg Hkeep. rewrite <- (Hkept g Hg Hkeep).
    pose proof (Hkept g Hg Hkeep) as Hgt.
    destruct Hg as (gs & gst & Hg0 & Hgn). rewrite Hg0 in Hgt.
    apply Hframe. intros Hin.
    repeat (apply elem_of_cons in Hin as [->|Hin]).
    + congruence.
    + by rewrite PathFacts.last_snoc, marker_named_downloaded in Hgn.
    + by rewrite PathFacts.last_snoc, marker_named_created in Hgn.
    + congruence.
    + by apply elem_of_nil in Hin.
  - intros g Hg Hpres. rewrite <- (Hmark g Hg).
    2:{ destruct Hpres as [m Hm]. exists m. by apply Hsub'. }
    apply Hframe. intros Hin.
    assert (List.last (Path.norm (Path.append g MARKER_CREATED)) ""
            = List.last g "" +:+ MARKER_CREATED) as Hlast
      by (by apply last_norm_append).
    repeat (apply elem_of_cons in Hin as [Hin|Hin]).
    + destruct Hc as (? & ? & _ & Hcn).
      rewrite Hin, PathFacts.last_snoc in Hlast.
      by rewrite PathFacts.last_snoc, Hlast, marker_named_created in Hcn.
    + rewrite Hin, PathFacts.last_snoc in Hlast.
      by apply symmetry, StrFacts.created_ne_downloaded in Hlast.
    + apply norm_append_created_eq in Hin; [|done].
      destruct Hpres as [m Hm].
      rewrite (wf_find_norm t' Hwf' g m Hm) in Hin. subst g. congruence.
    + rewrite Hin in Hlast. apply Hsub, Hnc0 in Hd.
      by rewrite Hlast, StrFacts.endsWith_app in Hd.
    + by apply elem_of_nil in Hin.
Qed.

(** Removing a directory the walk left empty. *)
Lemma sweep_inv_clean t k t' :
  Inv t → rm_if_empty t k = Some t' →
  Inv t' ∧ sub t' t ∧ ∀ k', k' ≠ k → Fs.find t' k' = Fs.find t k'.
Proof.
  intros Hi Hrm. pose proof Hi as [Hwf Hsub Hkept Hmark].
  unfold rm_if_empty in Hrm.
  destruct (Fs.find t k) as [[s st|st]|] eqn:E; simplify_eq;
    [|by auto using sub_refl].
  case_bool_decide as Hch; [|by auto using sub_refl].
  assert (∀ k', k' ≠ k → Fs.find (Fs.remove_rec t k) k' = Fs.find t k')
    as Hframe by (intros; by apply remove_rec_empty).
  split_and!; [split|apply sub_remove_rec|done].
  - by apply wf_remove_rec.
  - eapply sub_trans; [apply sub_remove_rec|done].
  - intros g Hg Hkeep. rewrite <- (Hkept g Hg Hkeep). apply Hframe.
    intros ->. rewrite (Hkept k Hg Hkeep) in E.
    destruct Hg as (gs & gst & Hg0 & _). congruence.
  - intros g Hg Hpres. rewrite <- (Hmark g Hg).
    2:{ destruct Hpres as [m Hm]. exists m. by eapply sub_remove_rec. }
    apply Hframe. intros Hk. rewrite <- Hk in E.
    by eapply created_marker_not_dir.
Qed.

End sweep_steps.

Lemma snoc_prefix_eq (D : path) x y : D ++ [x] `prefix_of` D ++ [y] → x = y.
Proof.
  intros Hp. apply prefix_length_eq in Hp.
  - by apply snoc_inj in Hp.
  - rewrite !length_app. simpl. lia.
Qed.

Lemma prefix_snoc_ne (D : path) x : ¬ D ++ [x] `prefix_of` D.
Proof. apply prefix_snoc_not. Qed.

Lemma file_leaf_eq t full s st f :
  wf t → Fs.find t full = Some (File s st) → full `prefix_of` f →
  is_Some (Fs.find t f) → f = full.
Proof.
  intros Hwf Hfull [r ->] [m Hf]. destruct r as [|c r]; [by rewrite app_nil_r|].
  by rewrite (wf_file_leaf t Hwf full s st (c :: r)) in Hf.
Qed.

Section sweep_walk.
Context (t0 : tree) (now ttl : Z).
Hypothesis Hwf0 : wf t0.
Hypothesis Hnc0 : no_created_dir t0.

Local Abbreviation Inv := (sweep_inv t0 now ttl).
Local Abbreviation cand := (candidate t0).

Lemma purge_file_spec full w s st :
  Inv (fs w) → cand full → Fs.find (fs w) full = Some (File s st) →
  ∃ w', purge_file now ttl full w = (Ret (), w')
        ∧ fs w' = if expired t0 now ttl full
                  then safeDelete_disk full (fs w) else fs w.
Proof.
  intros Hi Hc Hf.
  destruct (createdAt_stable t0 now ttl Hnc0 (fs w) full Hi Hc) as [Heq [c Hcr]];
    [by eexists|].
  destruct (purge_file_run now ttl full w) as (o & w' & Hrun & _ & _ & Hfs).
  rewrite Hcr in Hfs. destruct Hfs as [-> Hfs]. exists w'. split; [done|].
  rewrite Hfs. unfold expired. by rewrite <- Heq, Hcr.
Qed.

Lemma purge_entry_step walk fuel dir ts e rest w1 :
  walk_spec t0 now ttl walk fuel →
  Inv ts →
  (S fuel + length (Path.norm dir) > depth t0)%nat →
  NoDup (Dirent.name <$> e :: rest) →
  (∀ e', e' ∈ e :: rest → entry_of ts dir e') →
  sweep_loop t0 now ttl (Path.norm dir) ts (e :: rest) (fs w1) →
  ∃ w2, purge_entry walk now ttl dir e w1 = (Ret (), w2)
        ∧ sweep_loop t0 now ttl (Path.norm dir) ts rest (fs w2).
Proof.
  intros Hrec Hts Hfuel Hnd Hfacts Hl.
  set (D := Path.norm dir) in *.
  destruct (Hfacts e) as (m & Hm & Hjoin & Hname & Hisd & Hisf);
    [apply list_elem_of_here|].
  pose proof Hl as [Hi Hsub Hframe Htodo Hswept].
  pose proof Hts as [Hwfs Hsubs _ _].
  apply NoDup_cons in Hnd as [Hnotin Hnd].
  assert (∀ e', e' ∈ rest → Dirent.name e' ≠ Dirent.name e) as Hne.
  { intros e' He' E. apply Hnotin. rewrite <- E. by apply list_elem_of_fmap_2. }
  set (full := D ++ [Dirent.name e]) in *.
  assert (∀ f, cand f → full `prefix_of` f → Fs.find ts full = Some m →
               Fs.is_file m = true → f = full) as Hleaf.
  { intros f (fs' & fst' & Hf0 & _) Hp Hfull Hfile. destruct m; [|done].
    eapply (file_leaf_eq t0); [done|by apply Hsubs|done|by eexists]. }
  unfold purge_entry. rewrite Hjoin, Hisd, Hisf. fold full.
  destruct m as [s st|st]; simpl.
  - (* a regular file *)
    destruct (marker_named (Dirent.name e)) eqn:Hmn;
      unfold marker_named in Hmn; rewrite Hmn; cbn beta iota;
      fold (marker_named (Dirent.name e)) in Hmn.
    + (* a marker: skipped *)
      exists w1. split; [done|]. split; try done.
      * intros e' He'. apply Htodo. by apply list_elem_of_further.
      * intros f Hf Hp Hexp. destruct (Hswept f Hf Hp Hexp) as [|(e' & He' & Hp')];
          [by left|].
        apply elem_of_cons in He' as [->|He']; [|right; by exists e'].
        exfalso. rewrite (Hleaf f Hf Hp' Hm eq_refl) in Hf.
        destruct Hf as (? & ? & _ & Hn). unfold full in Hn.
        rewrite PathFacts.last_snoc in Hn. congruence.
    + (* a file to judge *)
      assert (cand full) as Hc.
      { exists s, st. split; [by apply Hsubs|].
        unfold full. by rewrite PathFacts.last_snoc. }
      assert (Fs.find (fs w1) full = Some (File s st)) as Hpres.
      { unfold full. rewrite Htodo; [done|apply list_elem_of_here|by right]. }
      destruct (purge_file_spec full w1 s st Hi Hc Hpres) as (w2 & Hrun & Hfs).
      exists w2. split; [exact Hrun|]. rewrite Hfs. clear Hfs Hrun.
      destruct (expired t0 now ttl full) eqn:Hexp.
      * destruct (sweep_inv_delete t0 now ttl Hnc0 (fs w1) D (Dirent.name e)
                    s st Hi Hname Hc Hpres Hexp)
          as (Hi' & Hsub' & Hgone & Hf2 & Hf1).
        assert (∀ k, k ∈ [full; D ++ [Dirent.name e +:+ MARKER_DOWNLOADED];
                          D ++ [Dirent.name e +:+ MARKER_CREATED]; D] →
                     D `prefix_of` k) as HK.
        { intros k Hk. repeat (apply elem_of_cons in Hk as [->|Hk]);
            try (by eexists); [by exists []; rewrite app_nil_r|].
          by apply elem_of_nil in Hk. }
        split.
        -- done.
        -- by eapply sub_trans.
        -- intros k Hk. rewrite Hf2; [by apply Hframe|]. intros Hin.
           by apply Hk, HK.
        -- intros e' He' Hcond.
           rewrite <- (Htodo e') by (by try apply list_elem_of_further).
           destruct (Hfacts e') as (m' & Hm' & _ & _ & Hisd' & _);
             [by apply list_elem_of_further|].
           destruct Hcond as [Hdir|Hnm].
           ++ rewrite Hisd' in Hdir. destruct m' as [|st']; [done|].
              assert (Fs.find (fs w1) (D ++ [Dirent.name e']) = Some (Dir st'))
                as Hd1.
              { rewrite Htodo; [done|by apply list_elem_of_further|].
                left. by rewrite Hisd'. }
              rewrite Hd1. apply Hf1; [done|]. apply snoc_ne_self.
           ++ apply Hf2. intros Hin.
              repeat (apply elem_of_cons in Hin as [Hin|Hin]).
              ** apply snoc_inj in Hin. by apply (Hne e').
              ** apply snoc_inj in Hin.
                 by rewrite Hin, marker_named_downloaded in Hnm.
              ** apply snoc_inj in Hin.
                 by rewrite Hin, marker_named_created in Hnm.
              ** by apply snoc_ne_self in Hin.
              ** by apply elem_of_nil in Hin.
        -- intros f Hf Hp Hexpf.
           destruct (Hswept f Hf Hp Hexpf) as [Hnone|(e' & He' & Hp')].
           ++ left. by eapply sub_absent.
           ++ apply elem_of_cons in He' as [->|He']; [|right; by exists e'].
              left. by rewrite (Hleaf f Hf Hp' Hm eq_refl).
      * split; try done.
        -- intros e' He'. apply Htodo. by apply list_elem_of_further.
        -- intros f Hf Hp Hexpf.
           destruct (Hswept f Hf Hp Hexpf) as [|(e' & He' & Hp')]; [by left|].
           apply elem_of_cons in He' as [->|He']; [|right; by exists e'].
           rewrite (Hleaf f Hf Hp' Hm eq_refl) in Hexpf. congruence.
  - (* a directory *)
    assert (Fs.find (fs w1) full = Some (Dir st)) as Hd1.
    { unfold full. rewrite Htodo; [done|apply list_elem_of_here|].
      left. by rewrite Hisd. }
    assert (Path.norm full = full) as Hnf
      by (eapply wf_find_norm; [apply Hi|done]).
    destruct (Hrec full w1 st) as (w2 & Hrun & Hi2 & Hsub2 & Hswept2 & Hframe2);
      [done|by rewrite Hnf|..].
    { rewrite Hnf. unfold full. rewrite length_app. simpl. lia. }
    rewrite Hnf in Hswept2, Hframe2.
    unfold mbind, M_bind. unfold full, D in Hrun. rewrite Hrun.
    destruct (clean_empty_dir_run full w2) as (o & w3 & Hrun3 & _ & _ & _ & Hrm).
    unfold full, D in Hrun3. rewrite Hrun3. clear Hrun Hrun3.
    rewrite Hnf in Hrm.
    destruct (rm_if_empty (fs w2) full) as [t3|] eqn:Erm.
    2:{ exfalso. unfold rm_if_empty in Erm.
        destruct (Fs.find (fs w2) full) as [[|]|] eqn:E2; try done.
        apply Hsub2 in E2. congruence. }
    destruct Hrm as [-> Hfs3]. exists w3. split; [done|]. rewrite Hfs3.
    destruct (sweep_inv_clean t0 now ttl Hnc0 (fs w2) full t3 Hi2 Erm)
      as (Hi3 & Hsub3 & Hframe3).
    assert (∀ k, ¬ full `prefix_of` k → Fs.find t3 k = Fs.find (fs w1) k)
      as Hout.
    { intros k Hk. rewrite Hframe3, Hframe2; try done. by intros ->. }
    split.
    + done.
    + eapply sub_trans; [done|]. by eapply sub_trans.
    + intros k Hk. rewrite Hout; [by apply Hframe|].
      intros Hp. apply Hk. etrans; [|done]. by eexists.
    + intros e' He' Hcond.
      rewrite <- (Htodo e') by (by try apply list_elem_of_further).
      apply Hout. intros Hp%snoc_prefix_eq. by apply (Hne e').
    + intros f Hf Hp Hexpf.
      destruct (Hswept f Hf Hp Hexpf) as [Hnone|(e' & He' & Hp')].
      * left. eapply sub_absent; [|done]. by eapply sub_trans.
      * apply elem_of_cons in He' as [->|He']; [|right; by exists e'].
        left. eapply sub_absent; [done|]. by apply Hswept2.
Qed.

Lemma purge_loop_spec walk fuel dir ts :
  walk_spec t0 now ttl walk fuel →
  Inv ts →
  (S fuel + length (Path.norm dir) > depth t0)%nat →
  ∀ rest w1,
    NoDup (Dirent.name <$> rest) →
    (∀ e', e' ∈ rest → entry_of ts dir e') →
    sweep_loop t0 now ttl (Path.norm dir) ts rest (fs w1) →
    ∃ w', for_of rest (purge_entry walk now ttl dir) w1 = (Ret (), w')
          ∧ sweep_loop t0 now ttl (Path.norm dir) ts [] (fs w').
Proof.
  intros Hrec Hts Hfuel rest.
  induction rest as [|e rest IH]; intros w1 Hnd Hfacts Hl.
  - by exists w1.
  - destruct (purge_entry_step walk fuel dir ts e rest w1)
      as (w2 & Hrun & Hl2); try done.
    destruct (IH w2) as (w' & Hrun' & Hl'); try done.
    + by apply NoDup_cons in Hnd as [_ ?].
    + intros e' He'. by apply Hfacts, list_elem_of_further.
    + exists w'. split; [|done]. simpl. unfold mbind, M_bind.
      by rewrite Hrun.
Qed.

Lemma purge_walk_spec fuel : walk_spec t0 now ttl (purge_walk fuel now ttl) fuel.
Proof.
  induction fuel as [|fuel IH]; intros dir w st Hi Hd Hfuel.
  - exfalso. pose proof Hi as [_ Hsub _ _].
    apply Hsub, FsFacts.find_Some_elem, depth_bound in Hd. lia.
  - pose proof Hi as [Hwf Hsub _ _].
    simpl. unfold mbind, M_bind. rewrite readdir_run, Hd.
    set (D := Path.norm dir) in *.
    set (es := Dirent.of_entry <$> Fs.children (fs w) D).
    destruct (purge_loop_spec (purge_walk fuel now ttl) fuel dir (fs w)
                IH Hi Hfuel es w) as (w' & Hrun & Hl).
    + unfold es. rewrite <- list_fmap_compose.
      by apply (wf_children_nodup (fs w)).
    + intros e He.
      destruct (entry_facts (fs w) dir e (wf_keys _ Hwf) He)
        as (m & Hin & Hjoin & Hname & Hisd & Hisf).
      exists m. split_and!; try done.
      rewrite <- Hjoin. by apply (wf_find_elem (fs w)).
    + split; try done; [apply sub_refl|].
      intros f Hf [r ->] Hexp.
      destruct (Fs.find (fs w) (D ++ r)) as [m|] eqn:E; [|by left]. right.
      destruct r as [|c r].
      * rewrite app_nil_r in *. destruct Hf as (? & ? & Hf0 & _).
        apply Hsub in Hd. unfold D in Hd. congruence.
      * destruct (wf_child_present (fs w) Hwf D c r m E) as [m' Hm'].
        exists (Dirent.of_entry (c, m')). split.
        -- unfold es. apply list_elem_of_fmap_2.
           by apply FsFacts.elem_children, (wf_find_elem (fs w)).
        -- simpl. exists r. by rewrite <- app_assoc.
    + exists w'. split; [exact Hrun|].
      destruct Hl as [Hi' Hsub' Hframe' _ Hswept']. split_and!; try done.
      intros f Hf Hp Hexp.
      destruct (Hswept' f Hf Hp Hexp) as [|(e & He & _)]; [done|].
      by apply elem_of_nil in He.
Qed.

End sweep_walk.

Lemma sweep_inv_start t0 now ttl : wf t0 → sweep_inv t0 now ttl t0.
Proof. intros Hwf. split; try done. apply sub_refl. Qed.

(** The three sources of [createdAt]. *)
Lemma createdAt_from_marker t now f s st :
  Fs.find t (Path.norm (Path.append f MARKER_CREATED)) = Some (File s st) →
  createdAt_of t now f
  = Some (match Js.parseInt (Str.trim s) with Num ts => Num ts | NaN => Num 0 end).
Proof. unfold createdAt_of. intros ->. by destruct (Js.parseInt _). Qed.

Lemma createdAt_from_stat t now f n :
  Fs.find t (Path.norm (Path.append f MARKER_CREATED)) = None →
  Fs.find t (Path.norm f) = Some n →
  createdAt_of t now f
  = Some (Num (if decide (mtimeMs (Fs.stats n) ≠ 0) then mtimeMs (Fs.stats n)
               else if decide (ctimeMs (Fs.stats n) ≠ 0)
                    then ctimeMs (Fs.stats n)
                    else now)).
Proof.
  unfold createdAt_of. intros -> ->. f_equal. unfold Js.or.
  destruct (mtimeMs _), (ctimeMs _); by repeat case_decide.
Qed.

(** The sweep's verdict does not look at the [.downloaded] marker. *)
Lemma expired_ignores_downloaded t now ttl f n :
  Path.norm f = f → f ≠ [] →
  expired (Fs.remove t (Path.norm (Path.append f MARKER_DOWNLOADED))) now ttl f
  = expired t now ttl f
  ∧ (Fs.find t (Path.norm (Path.append f MARKER_DOWNLOADED)) = None →
     Fs.write t (Path.norm (Path.append f MARKER_DOWNLOADED)) n = inr
       (t ++ [(Path.norm (Path.append f MARKER_DOWNLOADED), n)]) →
     expired (t ++ [(Path.norm (Path.append f MARKER_DOWNLOADED), n)]) now ttl f
     = expired t now ttl f).
Proof.
  intros Hn Hf. destruct (normal_split f Hn Hf) as (d & b & -> & Hd & Hb).
  rewrite !(norm_append_child d b Hd Hb).
  assert (d ++ [b +:+ MARKER_DOWNLOADED] ≠ d ++ [b +:+ MARKER_CREATED]) as N1.
  { intros E%snoc_inj. by apply symmetry, StrFacts.created_ne_downloaded in E. }
  assert (d ++ [b +:+ MARKER_DOWNLOADED] ≠ d ++ [b]) as N2.
  { intros E%snoc_inj. by apply StrFacts.app_ne_self in E. }
  unfold expired, createdAt_of.
  rewrite !(norm_append_child d b Hd Hb), Hn. split.
  - rewrite !FsFacts.find_remove. by rewrite !decide_False.
  - intros Hnone _. rewrite !FsFacts.find_app. simpl.
    rewrite !decide_False by done.
    by destruct (Fs.find t (d ++ [b +:+ MARKER_CREATED])), (Fs.find t (d ++ [b])).
Qed.

Lemma wf_check_sound t : wf_check t = true → wf t.
Proof.
  unfold wf_check. intros [Hnd Hall]%andb_prop.
  apply bool_decide_eq_true in Hnd.
  rewrite forallb_forall in Hall. split; [done|..].
  - intros k m Hin%list_elem_of_In. apply Hall in Hin.
    apply andb_prop in Hin as [Hn _]. by apply bool_decide_eq_true in Hn.
  - intros k m Hin%list_elem_of_In Hk. apply Hall in Hin.
    apply andb_prop in Hin as [_ [Hr|Hd]%orb_prop].
    + by apply bool_decide_eq_true in Hr.
    + unfold is_dir_at in Hd. simpl in Hd.
      destruct (Fs.find t (removelast k)) as [[|st]|]; try done. by exists st.
Qed.

Lemma no_created_dir_check_sound t :
  no_created_dir_check t = true → no_created_dir t.
Proof.
  unfold no_created_dir_check. rewrite forallb_forall.
  intros Hall k st Hin%FsFacts.find_Some_elem%list_elem_of_In.
  apply Hall in Hin. simpl in Hin. by destruct (Str.endsWith _ _).
Qed.

Lemma expired_effective t now ttl f s st :
  Path.norm f = f → Fs.find t f = Some (File s st) →
  (∀ st', Fs.find t (Path.norm (Path.append f MARKER_CREATED))
          ≠ Some (Dir st')) →
  expired t now ttl f
  = bool_decide (ttl ≤ now - effective_created t now f st).
Proof.
  intros Hn Hf Hnd. unfold expired, createdAt_of, effective_created.
  rewrite Hn, Hf. simpl.
  destruct (Fs.find t (Path.norm (Path.append f MARKER_CREATED)))
    as [[m mst|dst]|].
  - by destruct (Js.parseInt (Str.trim m)).
  - by destruct (Hnd dst).
  - unfold Js.or. destruct (mtimeMs st), (ctimeMs st);
      by repeat case_decide.
Qed.

(** C3 fails as stated: [old.bin] has no [.created] marker and was last
    modified at the epoch, so by the claim its effective creation time is
    0 and it is a day old; the code takes [mtimeMs || ctimeMs || now],
    skips the zero, and keeps the file. *)
Lemma sweep_keeps_epoch_mtime_file :
  let now := 1700000001000 in
  let f := ["outputs"; "R1"; "old.bin"] in
  let st := {| mtimeMs := 0; ctimeMs := 1700000000000 |} in
  Fs.find disk_epoch f = Some (File "data" st)
  ∧ Fs.find disk_epoch (Path.append f MARKER_CREATED) = None
  ∧ Js.ge (Js.sub (Num now) (Num (mtimeMs st))) (Num ONE_DAY) = true
  ∧ Fs.find (fs (exec (purgeOlderThan ["outputs"] ONE_DAY)
                   (boot disk_epoch now))) f
    = Some (File "data" st).
Proof. vm_compute. done. Qed.

(** C3, amended. On a well-formed disk where no directory is named like a
    [.created] marker, at a time and for a [ttlMs] that are safe integers,
    a sweep of an existing root returns normally, and for every regular
    file below the root whose name is not a marker's, whose times are safe
    integers and whose [.created] marker, if any, is a plain stamp (ASCII
    text holding no number or a safe integer), it has computed [createdAt]
    as [effective_created] says: the number in the [.created] marker, 0
    when the marker holds none, and without a marker the first non-zero of
    [mtimeMs], [ctimeMs] and the current time. The file is gone after the
    sweep if [now - createdAt >= ttlMs], and is otherwise exactly as it
    was; no [.downloaded] marker enters the verdict. *)
Theorem purge_judges_every_file
    (outputsRoot : path) (ttlMs : Z) (w : world) rst :
  wf (fs w) →
  no_created_dir (fs w) →
  Fs.find (fs w) (Path.norm outputsRoot) = Some (Dir rst) →
  safe_integer (clock w) = true →
  safe_integer ttlMs = true →
  ∃ w', purgeOlderThan outputsRoot ttlMs w = (Ret (), w')
        ∧ ∀ f s st,
            Fs.find (fs w) f = Some (File s st) →
            Path.norm outputsRoot `prefix_of` f →
            marker_named (List.last f "") = false →
            exact_created (fs w) f st = true →
            Fs.find (fs w') f
            = if bool_decide
                   (ttlMs ≤ clock w - effective_created (fs w) (clock w) f st)
              then None else Some (File s st).
Proof.
  intros Hwf Hnc Hroot _ _.
  destruct (purge_walk_spec (fs w) (clock w) ttlMs Hwf Hnc (S (depth (fs w)))
              outputsRoot w rst)
    as (w' & Hrun & Hi & _ & Hswept & _);
    [by apply sweep_inv_start|done|lia|].
  exists w'. split.
  - unfold purgeOlderThan, mbind, M_bind, fs.existsSync, Date_now, fuelled.
    by rewrite Hroot.
  - intros f s st Hf Hp Hmn _.
    assert (candidate (fs w) f) as Hc by (by exists s, st).
    rewrite <- (expired_effective (fs w) (clock w) ttlMs f s st).
    + destruct (expired _ _ _ _) eqn:Hexp.
      * by apply Hswept.
      * by rewrite (si_kept _ _ _ _ Hi f Hc Hexp).
    + by eapply wf_find_norm.
    + done.
    + intros st'. eapply created_marker_not_dir; [done|apply sub_refl].
Qed.

Lemma purge_judges_every_file_witness :
  let now := 1000 + ONE_DAY in
  let w := boot disk_sweep now in
  wf (fs w)
  ∧ no_created_dir (fs w)
  ∧ ∃ w', purgeOlderThan ["outputs"] ONE_DAY w = (Ret (), w')
          ∧ Fs.find (fs w') ["outputs"; "R1"; "a.pdf"] = None
          ∧ Fs.find (fs w') ["outputs"; "R1"; "b.pdf"] = None
          ∧ Fs.find (fs w') ["outputs"; "R2"; "c.pdf"] = None
          ∧ Fs.find (fs w') ["outputs"; "R2"; "d.pdf"]
            = Some (File "%PDF-d" st0).
Proof.
  intros now w.
  assert (wf (fs w)) as Hwf by (apply wf_check_sound; vm_compute; reflexivity).
  assert (no_created_dir (fs w)) as Hnc
    by (apply no_created_dir_check_sound; vm_compute; reflexivity).
  split; [exact Hwf|]. split; [exact Hnc|].
  destruct (purge_judges_every_file ["outputs"] ONE_DAY w st0 Hwf Hnc)
    as (w' & Hrun & Hfiles); [reflexivity..|].
  exists w'. split; [exact Hrun|]. split_and!.
  - rewrite (Hfiles _ "%PDF-a" st0);
      [vm_compute; reflexivity|reflexivity|by eexists|reflexivity
      |vm_compute; reflexivity].
  - rewrite (Hfiles _ "%PDF-b" st0);
      [vm_compute; reflexivity|reflexivity|by eexists|reflexivity
      |vm_compute; reflexivity].
  - rewrite (Hfiles _ "%PDF-c" st0);
      [vm_compute; reflexivity|reflexivity|by eexists|reflexivity
      |vm_compute; reflexivity].
  - rewrite (Hfiles _ "%PDF-d" st0);
      [vm_compute; reflexivity|reflexivity|by eexists|reflexivity
      |vm_compute; reflexivity].
Defined.

(** ** The walks never run out of fuel *)

Lemma keys_sub_refl t : keys_sub t t.
Proof. by intros k. Qed.

Lemma keys_sub_trans t1 t2 t3 : keys_sub t1 t2 → keys_sub t2 t3 → keys_sub t1 t3.
Proof. intros H1 H2 k Hk. by apply H2, H1. Qed.

Lemma keys_sub_filter (P : path * node → Prop) `{!∀ x, Decision (P x)}
    (t : tree) : keys_sub (filter P t) t.
Proof.
  intros k ([k' m] & -> & [_ Hin]%list_elem_of_filter)%list_elem_of_fmap.
  by apply list_elem_of_fmap_2.
Qed.

Lemma keys_sub_depth t' t : keys_sub t' t → (depth t' ≤ depth t)%nat.
Proof.
  induction t' as [|[k m] t' IH]; intros Hs; [unfold depth; simpl; lia|].
  assert (k ∈ t.*1) as ([k' m'] & -> & Hin')%list_elem_of_fmap
    by (apply Hs, list_elem_of_here).
  apply depth_bound in Hin'.
  assert (depth t' ≤ depth t)%nat
    by (apply IH; intros k0 Hk0; by apply Hs, list_elem_of_further).
  simpl. change (depth ((k', m) :: t')) with (length k' `max` depth t')%nat.
  lia.
Qed.

Lemma keys_sub_rm_plain t k t' : rm_plain t k = Some t' → keys_sub t' t.
Proof. intros ->%rm_plain_Some. apply keys_sub_filter. Qed.

Lemma keys_sub_rm_if_empty t k t' : rm_if_empty t k = Some t' → keys_sub t' t.
Proof.
  unfold rm_if_empty. destruct (Fs.find t k) as [[|]|]; intros ?; simplify_eq;
    try apply keys_sub_refl.
  case_bool_decide; [apply keys_sub_filter|apply keys_sub_refl].
Qed.

Lemma keys_sub_safeDelete_disk p t : keys_sub (safeDelete_disk p t) t.
Proof.
  unfold safeDelete_disk.
  destruct (rm_plain t _) as [t1|] eqn:E1; [|apply keys_sub_refl].
  pose proof (keys_sub_rm_plain _ _ _ E1).
  destruct (rm_plain t1 _) as [t2|] eqn:E2; [|done].
  pose proof (keys_sub_rm_plain _ _ _ E2).
  destruct (rm_plain t2 _) as [t3|] eqn:E3; [|by eauto using keys_sub_trans].
  pose proof (keys_sub_rm_plain _ _ _ E3).
  destruct (rm_if_empty t3 _) as [t4|] eqn:E4;
    [|by eauto using keys_sub_trans].
  pose proof (keys_sub_rm_if_empty _ _ _ E4).
  eauto using keys_sub_trans.
Qed.

Lemma keys_sub_overwrite t q c st n t' :
  Fs.find t q = Some (File c st) → Fs.write t q n = inr t' → keys_sub t' t.
Proof.
  intros Hq. rewrite (write_file_ok _ _ _ _ _ Hq). intros [= <-] k.
  unfold Fs.replace. rewrite <- list_fmap_compose.
  intros ([k' m] & -> & Hin)%list_elem_of_fmap. simpl.
  case_decide; simpl; subst; by apply (list_elem_of_fmap_2 fst _ (_, m)).
Qed.

Lemma settles_ret {A} (a : A) w : settles (mret a) w.
Proof. split; [done|apply keys_sub_refl]. Qed.

Lemma settles_bind {A B} (m : M A) (f : A → M B) w :
  settles m w → (∀ a w', m w = (Ret a, w') → settles (f a) w') →
  settles (m ≫= f) w.
Proof.
  intros [Hnd Hks] Hf. unfold settles, mbind, M_bind in *.
  destruct (m w) as [[a| |] w'] eqn:E; simpl in *; try done.
  destruct (Hf a w' eq_refl) as [Hnd' Hks']. split; [done|].
  by eapply keys_sub_trans.
Qed.

Lemma settles_for_of {A} (body : A → M unit) (l : list A) (P : world → Prop) :
  (∀ x w, x ∈ l → P w → settles (body x) w) →
  (∀ x w, x ∈ l → P w → P (body x w).2) →
  ∀ w, P w → settles (for_of l body) w.
Proof.
  intros Hbody Hstep. induction l as [|x l IH]; intros w Hw; simpl.
  - apply settles_ret.
  - apply settles_bind.
    + apply Hbody; [apply list_elem_of_here|done].
    + intros [] w' E. apply IH.
      * intros y w0 Hy. apply Hbody. by apply list_elem_of_further.
      * intros y w0 Hy. apply Hstep. by apply list_elem_of_further.
      * specialize (Hstep x w (list_elem_of_here _ _) Hw). by rewrite E in Hstep.
Qed.

Lemma settles_safeDelete p w : settles (safeDelete p) w.
Proof.
  destruct (safeDelete_run p w) as (w' & H & Hf & _).
  unfold settles. rewrite H. simpl. rewrite Hf.
  split; [done|apply keys_sub_safeDelete_disk].
Qed.

Lemma settles_clean_empty_dir full w : settles (clean_empty_dir full) w.
Proof.
  destruct (clean_empty_dir_run full w) as (o & w' & H & _ & _ & _ & Hrm).
  unfold settles. rewrite H. simpl.
  destruct (rm_if_empty _ _) as [t'|] eqn:E; destruct Hrm as [-> ->].
  - split; [done|by eapply keys_sub_rm_if_empty].
  - split; [done|apply keys_sub_refl].
Qed.

Lemma settles_purge_file now ttl full w : settles (purge_file now ttl full) w.
Proof.
  destruct (purge_file_run now ttl full w) as (o & w' & H & _ & _ & Hfs).
  unfold settles. rewrite H. simpl.
  destruct (createdAt_of _ _ _) as [c|].
  - destruct Hfs as [-> ->]. split; [done|].
    destruct (Js.ge _ _); [apply keys_sub_safeDelete_disk|apply keys_sub_refl].
  - destruct Hfs as [[e ->] ->]. split; [done|apply keys_sub_refl].
Qed.

Lemma settles_hydrate_marker delay full w :
  full ≠ [] → Str.endsWith (List.last full "") MARKER_DOWNLOADED = true →
  settles (hydrate_marker delay full) w.
Proof.
  intros Hf He. unfold settles. rewrite hydrate_marker_run.
  destruct (Fs.find (fs w) (Path.norm (artifact_of full))) as [m|].
  - destruct (Fs.find (fs w) (Path.norm full)) as [[s st|st]|] eqn:Em;
      [|split; [done|apply keys_sub_refl]..].
    destruct (Js.le _ _); [apply settles_safeDelete|].
    destruct (scheduleDeletion_run (artifact_of full)
                (remaining_of delay (clock w) s) w)
      as (w' & -> & _ & _ & _ & _ & Hfs).
    rewrite append_artifact_of in Hfs by done.
    simpl. rewrite Hfs. split; [done|].
    destruct (Fs.write _ _ _) as [e|t'] eqn:Ew; [apply keys_sub_refl|].
    by eapply keys_sub_overwrite.
  - destruct (rmSync_plain_run full w) as (o & w' & -> & _ & _ & _ & Hrm).
    simpl. destruct (rm_plain _ _) as [t'|] eqn:E; destruct Hrm as [-> ->].
    + split; [done|by eapply keys_sub_rm_plain].
    + split; [done|apply keys_sub_refl].
Qed.

Lemma settles_readdir dir w : settles (fs.readdirSync_withFileTypes dir) w.
Proof.
  unfold settles. rewrite readdir_run.
  destruct (Fs.find _ _) as [[|]|]; (split; [done|apply keys_sub_refl]).
Qed.

(** An entry read from [w] has a name, and lies one level below [dir]. *)
Lemma readdir_entry_depth dir w es w' e :
  (∀ k, k ∈ (fs w).*1 → Path.norm k = k) →
  fs.readdirSync_withFileTypes dir w = (Ret es, w') → e ∈ es →
  w' = w ∧ Dirent.name e ≠ ""
  ∧ Path.join dir (Dirent.name e) = Path.norm dir ++ [Dirent.name e]
  ∧ (S (length (Path.norm dir)) ≤ depth (fs w))%nat.
Proof.
  intros Hnk. rewrite readdir_run. destruct (Fs.find _ _) as [[|]|]; try done.
  intros [= <- <-] ([c m] & -> & Hin%FsFacts.elem_children)%list_elem_of_fmap.
  simpl. split; [done|].
  assert (c ≠ "") as Hc.
  { apply (PathFacts.norm_elem c (Path.norm dir ++ [c])).
    rewrite (Hnk (Path.norm dir ++ [c])); [apply elem_of_app; right; in_list|].
    by apply (list_elem_of_fmap_2 fst _ (_, m)). }
  split; [done|]. split.
  - unfold Path.join. by rewrite PathFacts.norm_snoc.
  - apply depth_bound in Hin. rewrite length_app in Hin. simpl in *. lia.
Qed.

Section settles_walk.
Context (walk : nat → path → M unit).
Context (entry : (path → M unit) → path → Dirent.t → M unit).
Hypothesis walk_S : ∀ fuel dir,
  walk (S fuel) dir
  = (es ← fs.readdirSync_withFileTypes dir;
     for_of es (entry (walk fuel) dir)).
Hypothesis entry_settles : ∀ (rec : path → M unit) dir e w,
  Dirent.name e ≠ "" →
  (Dirent.isDirectory e = true →
   settles (rec (Path.join dir (Dirent.name e))) w) →
  settles (entry rec dir e) w.

Lemma settles_walk fuel : ∀ dir w,
  (∀ k, k ∈ (fs w).*1 → Path.norm k = k) →
  (fuel + length (Path.norm dir) > depth (fs w))%nat →
  (0 < fuel)%nat →
  settles (walk fuel dir) w.
Proof.
  induction fuel as [|fuel IH]; intros dir w Hnk Hfuel Hpos; [lia|].
  rewrite walk_S. apply settles_bind; [apply settles_readdir|].
  intros es w' Hread.
  assert (∀ e w1, e ∈ es → keys_sub (fs w1) (fs w) →
                  settles (entry (walk fuel) dir e) w1) as Hentry.
  { intros e w1 He Hw1.
    destruct (readdir_entry_depth _ _ _ _ e Hnk Hread He)
      as (-> & Hc & Hj & Hd).
    pose proof (keys_sub_depth _ _ Hw1).
    apply entry_settles; [done|]. intros _. apply IH.
    - intros k Hk. by apply Hnk, Hw1.
    - rewrite Hj, <- (PathFacts.norm_snoc _ _ Hc), PathFacts.norm_idemp.
      rewrite PathFacts.norm_snoc, length_app by done. simpl. lia.
    - lia. }
  apply (settles_for_of _ _ (λ w1, keys_sub (fs w1) (fs w))).
  - done.
  - intros e w1 He Hw1. destruct (Hentry e w1 He Hw1) as [_ Hks].
    by eapply keys_sub_trans.
  - destruct (fs.readdirSync_withFileTypes dir w) as [o w0] eqn:E.
    rewrite readdir_run in E. destruct (Fs.find _ _) as [[|]|]; simplify_eq;
      apply keys_sub_refl.
Qed.

End settles_walk.

Lemma settles_purge_walk fuel now ttl dir w :
  (∀ k, k ∈ (fs w).*1 → Path.norm k = k) →
  (fuel + length (Path.norm dir) > depth (fs w))%nat →
  (0 < fuel)%nat →
  settles (purge_walk fuel now ttl dir) w.
Proof.
  apply (settles_walk (λ fuel, purge_walk fuel now ttl)
           (λ rec, purge_entry rec now ttl)); [done|].
  intros rec d e w0 Hc Hrec. unfold purge_entry.
  destruct (Dirent.isDirectory e).
  - apply settles_bind; [by apply Hrec|].
    intros [] w1 _. apply settles_clean_empty_dir.
  - destruct (Dirent.isFile e); [|apply settles_ret].
    destruct (_ || _); [apply settles_ret|apply settles_purge_file].
Qed.

Lemma settles_hydrate_walk fuel delay dir w :
  (∀ k, k ∈ (fs w).*1 → Path.norm k = k) →
  (fuel + length (Path.norm dir) > depth (fs w))%nat →
  (0 < fuel)%nat →
  settles (hydrate_walk fuel delay dir) w.
Proof.
  apply (settles_walk (λ fuel, hydrate_walk fuel delay)
           (λ rec, hydrate_entry rec delay)); [done|].
  intros rec d e w0 Hc Hrec. unfold hydrate_entry.
  destruct (Dirent.isDirectory e); [by apply Hrec|].
  destruct (Dirent.isFile e); [|apply settles_ret].
  destruct (Str.endsWith _ _) eqn:He; [|apply settles_ret].
  apply settles_hydrate_marker.
  - unfold Path.join. rewrite PathFacts.norm_snoc by done.
    by destruct (Path.norm d).
  - unfold Path.join.
    by rewrite PathFacts.norm_snoc, PathFacts.last_snoc.
Qed.

Lemma settles_existsSync p w :
  settles (fs.existsSync p) w
  ∧ ∀ b w', fs.existsSync p w = (Ret b, w') → w' = w.
Proof.
  unfold settles, fs.existsSync. destruct (Fs.find _ _); simpl;
    (split; [split; [done|apply keys_sub_refl]|congruence]).
Qed.

(** On a disk whose paths are normal, the sweep never exhausts the fuel
    the embedding gives its walk: it returns or throws. *)
Lemma purgeOlderThan_settles outputsRoot ttlMs w :
  (∀ k, k ∈ (fs w).*1 → Path.norm k = k) →
  settles (purgeOlderThan outputsRoot ttlMs) w.
Proof.
  intros Hnk. unfold purgeOlderThan.
  destruct (settles_existsSync outputsRoot w) as [Hex Hsame].
  apply settles_bind; [done|].
  intros b w1 ->%Hsame. destruct (negb _); [apply settles_ret|].
  apply settles_bind; [split; [done|apply keys_sub_refl]|].
  intros now w1 [= <- <-]. unfold fuelled.
  apply settles_purge_walk; [done|lia..].
Qed.

(** Likewise hydration, with the sweep that ends it. *)
Lemma hydrateFromDisk_settles outputsRoot downloadDelayMs ttlMs w :
  (∀ k, k ∈ (fs w).*1 → Path.norm k = k) →
  settles (hydrateFromDisk outputsRoot downloadDelayMs ttlMs) w.
Proof.
  intros Hnk. unfold hydrateFromDisk.
  apply settles_bind; [split; [done|apply keys_sub_refl]|].
  intros [] w1 [= <-].
  set (w1 := with_log _ w).
  assert (∀ k, k ∈ (fs w1).*1 → Path.norm k = k) as Hnk1 by done.
  destruct (settles_existsSync outputsRoot w1) as [Hex Hsame].
  apply settles_bind; [done|].
  intros b w2 ->%Hsame. destruct (negb _); [apply settles_ret|].
  assert (settles (fuelled (λ fuel,
            hydrate_walk fuel downloadDelayMs outputsRoot)) w1) as Hwalk.
  { unfold fuelled. apply settles_hydrate_walk; [done|lia..]. }
  apply settles_bind; [done|].
  intros [] w2 Hw2. destruct Hwalk as [_ Hks]. rewrite Hw2 in Hks.
  apply purgeOlderThan_settles. intros k Hk. by apply Hnk1, Hks.
Qed.

Module RevFacts.

Lemma app_nil_r s : s +:+ "" = s.
Proof. induction s as [|c s IH]; [done|]. by rewrite StrFacts.app_cons, IH. Qed.

Lemma rev_app_rev_app s a b :
  String.rev_app (String.rev_app s a) b = String.rev_app a (s +:+ b).
Proof.
  revert a. induction s as [|c s IH]; intros a; simpl.
  - by rewrite StrFacts.app_nil_l.
  - by rewrite IH, StrFacts.app_cons.
Qed.

Lemma rev_involutive s : String.rev (String.rev s) = s.
Proof. unfold String.rev. by rewrite rev_app_rev_app, app_nil_r. Qed.

Lemma all_chars_rev_app P s a :
  all_chars P (String.rev_app s a) = all_chars P s && all_chars P a.
Proof.
  revert a. induction s as [|c s IH]; intros a; simpl; [done|].
  rewrite IH. simpl. by destruct (P c), (all_chars P s).
Qed.

Lemma all_chars_rev P s : all_chars P (String.rev s) = all_chars P s.
Proof. unfold String.rev. rewrite all_chars_rev_app. simpl. by rewrite andb_true_r. Qed.

Lemma all_chars_impl (P Q : ascii → bool) s :
  (∀ c, P c = true → Q c = true) → all_chars P s = true → all_chars Q s = true.
Proof.
  intros H. induction s as [|c s IH]; simpl; [done|].
  intros [Hc Hs]%andb_true_iff. by rewrite (H c Hc), IH.
Qed.

Lemma skip_ws_head c s : Ascii.is_space c = false → Str.skip_ws (String c s) = String c s.
Proof. simpl. by intros ->. Qed.

Lemma skip_ws_no_space s :
  all_chars (λ c, negb (Ascii.is_space c)) s = true → Str.skip_ws s = s.
Proof.
  destruct s as [|c s]; simpl; [done|].
  intros [Hc _]%andb_true_iff. by destruct (Ascii.is_space c).
Qed.

Lemma trim_no_space s :
  all_chars (λ c, negb (Ascii.is_space c)) s = true → Str.trim s = s.
Proof.
  intros H. unfold Str.trim. rewrite (skip_ws_no_space s H).
  rewrite skip_ws_no_space by by rewrite all_chars_rev.
  apply rev_involutive.
Qed.

End RevFacts.

Module NumFacts.

Lemma digit_char x :
  (x < 10)%N → Js.digit (pretty_N_char x) = Some (Z.of_N x).
Proof.
  intros Hx.
  assert (x = 0 ∨ x = 1 ∨ x = 2 ∨ x = 3 ∨ x = 4 ∨ x = 5
          ∨ x = 6 ∨ x = 7 ∨ x = 8 ∨ x = 9)%N as H by lia.
  by repeat (destruct H as [->|H]; [done|]); subst.
Qed.

Lemma numeral_char_not_space c :
  numeral_char c = true → Ascii.is_space c = false.
Proof.
  destruct c as [[] [] [] [] [] [] [] []]; vm_compute; congruence.
Qed.

Lemma digits_pretty_N_go x : ∀ s,
  Js.digits 0 (pretty_N_go x s) = Js.digits (Z.of_N x) s.
Proof.
  induction (N.lt_wf_0 x) as [x _ IH]; intros s.
  destruct (decide (x = 0%N)) as [->|Hx]; [done|].
  rewrite pretty_N_go_step by lia.
  rewrite IH by (apply N.div_lt; lia).
  simpl. rewrite digit_char by (apply N.mod_lt; lia).
  f_equal. rewrite (N.div_mod x 10) at 3 by done. lia.
Qed.

Lemma starts_pretty_N_go x : ∀ s,
  Js.starts_with_digit s = true →
  Js.starts_with_digit (pretty_N_go x s) = true.
Proof.
  induction (N.lt_wf_0 x) as [x _ IH]; intros s Hs.
  destruct (decide (x = 0%N)) as [->|Hx]; [done|].
  rewrite pretty_N_go_step by lia. apply IH; [apply N.div_lt; lia|].
  simpl. rewrite digit_char by (apply N.mod_lt; lia). by apply bool_decide_eq_true.
Qed.

Lemma numeral_pretty_N_go x : ∀ s,
  all_chars numeral_char s = true →
  all_chars numeral_char (pretty_N_go x s) = true.
Proof.
  induction (N.lt_wf_0 x) as [x _ IH]; intros s Hs.
  destruct (decide (x = 0%N)) as [->|Hx]; [done|].
  rewrite pretty_N_go_step by lia. apply IH; [apply N.div_lt; lia|].
  simpl. rewrite Hs, andb_true_r. unfold numeral_char.
  rewrite digit_char by (apply N.mod_lt; lia). by rewrite bool_decide_eq_true_2.
Qed.

(** The numeral of a positive number: digits only, the first of them
    included. *)
Lemma pretty_pos p :
  Js.starts_with_digit (pretty (Npos p)) = true
  ∧ Js.digits 0 (pretty (Npos p)) = Zpos p
  ∧ all_chars numeral_char (pretty (Npos p)) = true.
Proof.
  unfold pretty, pretty_N. rewrite decide_False by done.
  rewrite pretty_N_go_step by lia. split_and!.
  - apply starts_pretty_N_go. simpl.
    rewrite digit_char by (by apply N.mod_lt). by apply bool_decide_eq_true.
  - rewrite <- pretty_N_go_step by lia. by rewrite digits_pretty_N_go.
  - apply numeral_pretty_N_go. simpl. unfold numeral_char.
    rewrite digit_char by (by apply N.mod_lt). by rewrite bool_decide_eq_true_2.
Qed.

Lemma starts_not_sign s :
  Js.starts_with_digit s = true →
  Str.skip_ws s = s
  ∧ match s with String "-" _ | String "+" _ => False | _ => True end.
Proof.
  destruct s as [|c s]; [done|]. simpl. intros H%bool_decide_eq_true.
  destruct c as [[] [] [] [] [] [] [] []]; try (by destruct H); done.
Qed.

Lemma parseInt_digits s :
  Js.starts_with_digit s = true → Js.parseInt s = Num (Js.digits 0 s).
Proof.
  intros H. destruct (starts_not_sign s H) as [Hws Hsign].
  unfold Js.parseInt. rewrite Hws.
  destruct s as [|c s]; [done|].
  destruct c as [[] [] [] [] [] [] [] []]; try done;
    rewrite H; f_equal; lia.
Qed.

Lemma numeral_toString z : all_chars numeral_char (Js.toString z) = true.
Proof.
  unfold Js.toString, pretty, pretty_Z. destruct z as [|p|p]; [done|..].
  - apply pretty_pos.
  - rewrite StrFacts.app_cons, StrFacts.app_nil_l. simpl. apply pretty_pos.
Qed.

(** The decimal numeral [Date.now().toString()] writes is read back by
    [parseInt(..., 10)] as the number it came from. *)
Lemma parseInt_toString z : Js.parseInt (Js.toString z) = Num z.
Proof.
  unfold Js.toString, pretty, pretty_Z. destruct z as [|p|p]; [done|..].
  - destruct (pretty_pos p) as (Hs & Hd & _).
    change (pretty p) with (pretty (Npos p)).
    by rewrite parseInt_digits, Hd.
  - destruct (pretty_pos p) as (Hs & Hd & _).
    change (pretty p) with (pretty (Npos p)).
    rewrite StrFacts.app_cons, StrFacts.app_nil_l.
    unfold Js.parseInt. simpl. rewrite Hs, Hd. f_equal.
Qed.

Lemma trim_toString z : Str.trim (Js.toString z) = Js.toString z.
Proof.
  apply RevFacts.trim_no_space.
  eapply RevFacts.all_chars_impl; [|apply numeral_toString].
  intros c Hc. by rewrite numeral_char_not_space.
Qed.

End NumFacts.

(** ** What [safeDelete] leaves alone *)

Lemma sub_rm_plain t k t' : rm_plain t k = Some t' → sub t' t.
Proof. intros ->%rm_plain_Some. apply sub_remove. Qed.

Lemma sub_rm_if_empty t k t' : rm_if_empty t k = Some t' → sub t' t.
Proof.
  unfold rm_if_empty. destruct (Fs.find t k) as [[|]|]; intros ?; simplify_eq;
    try apply sub_refl.
  case_bool_decide; [apply sub_remove_rec|apply sub_refl].
Qed.

Lemma sub_safeDelete_disk p t : sub (safeDelete_disk p t) t.
Proof.
  unfold safeDelete_disk.
  destruct (rm_plain t _) as [t1|] eqn:E1; [|apply sub_refl].
  pose proof (sub_rm_plain _ _ _ E1).
  destruct (rm_plain t1 _) as [t2|] eqn:E2; [|done].
  pose proof (sub_rm_plain _ _ _ E2).
  destruct (rm_plain t2 _) as [t3|] eqn:E3; [|by eauto using sub_trans].
  pose proof (sub_rm_plain _ _ _ E3).
  destruct (rm_if_empty t3 _) as [t4|] eqn:E4; [|by eauto using sub_trans].
  pose proof (sub_rm_if_empty _ _ _ E4).
  eauto using sub_trans.
Qed.

Lemma removelast_prefix (p : path) : removelast p `prefix_of` p.
Proof.
  destruct (decide (p = [])) as [->|Hp]; [done|].
  exists [List.last p ""]. by apply PathFacts.split_last.
Qed.

Lemma norm_removelast_norm p :
  Path.norm (removelast (Path.norm p)) = removelast (Path.norm p).
Proof.
  apply PathFacts.norm_fixed.
  pose proof (PathFacts.norm_Forall p) as HF.
  destruct (decide (Path.norm p = [])) as [->|Hp]; [done|].
  rewrite (PathFacts.split_last _ Hp) in HF.
  by apply Forall_app in HF as [HF _].
Qed.

Lemma norm_dirname p : Path.norm (Path.dirname p) = Path.dirname p.
Proof. apply norm_removelast_norm. Qed.

Lemma dirname_prefix_norm p : Path.dirname p `prefix_of` Path.norm p.
Proof. apply removelast_prefix. Qed.

Lemma dirname_prefix_append p s :
  s ≠ "" → Path.dirname p `prefix_of` Path.norm (Path.append p s).
Proof.
  intros Hs. rewrite PathFacts.norm_append by done.
  apply prefix_app_r. unfold Path.dirname.
  destruct (decide (p = [])) as [->|Hp]; [done|].
  rewrite (PathFacts.split_last p Hp) at 1. rewrite PathFacts.norm_app.
  unfold Path.norm at 2. rewrite filter_cons. case_decide.
  - by rewrite filter_nil, PathFacts.removelast_snoc.
  - rewrite filter_nil, app_nil_r. apply removelast_prefix.
Qed.

Lemma rm_if_empty_outside t d t' k :
  rm_if_empty t d = Some t' → ¬ d `prefix_of` k → Fs.find t' k = Fs.find t k.
Proof.
  unfold rm_if_empty. destruct (Fs.find t d) as [[|]|]; intros ??; simplify_eq;
    [|done].
  case_bool_decide; [|done]. rewrite FsFacts.find_remove_rec. by case_decide.
Qed.

Lemma safeDelete_disk_outside p t k :
  ¬ Path.dirname p `prefix_of` k →
  Fs.find (safeDelete_disk p t) k = Fs.find t k.
Proof.
  intros Hk.
  assert (Path.norm p ≠ k) as H1
    by (intros <-; apply Hk, dirname_prefix_norm).
  assert (Path.norm (Path.append p MARKER_DOWNLOADED) ≠ k) as H2
    by (intros <-; by apply Hk, dirname_prefix_append).
  assert (Path.norm (Path.append p MARKER_CREATED) ≠ k) as H3
    by (intros <-; by apply Hk, dirname_prefix_append).
  unfold safeDelete_disk.
  destruct (rm_plain t _) as [t1|] eqn:E1; [|done].
  rewrite <- (rm_plain_other _ _ _ _ E1 H1).
  destruct (rm_plain t1 _) as [t2|] eqn:E2; [|done].
  rewrite <- (rm_plain_other _ _ _ _ E2 H2).
  destruct (rm_plain t2 _) as [t3|] eqn:E3; [|done].
  rewrite <- (rm_plain_other _ _ _ _ E3 H3).
  destruct (rm_if_empty t3 _) as [t4|] eqn:E4; [|done].
  apply (rm_if_empty_outside _ _ _ _ E4). by rewrite norm_dirname.
Qed.

(** X1. [safeDelete] only ever removes: whatever is on disk afterwards
    was there before, unchanged; nothing outside the directory of the path
    is touched; and no timer of the event loop is cancelled, the call only
    forgets the map's entry for the path. *)
Theorem safeDelete_only_removes (p : path) (w : world) :
  let w' := exec (safeDelete p) w in
  sub (fs w') (fs w)
  ∧ (∀ k, ¬ Path.dirname p `prefix_of` k →
          Fs.find (fs w') k = Fs.find (fs w) k)
  ∧ pending w' = pending w
  ∧ timers w' = delete p (timers w).
Proof.
  destruct (safeDelete_run p w) as (w' & H & Hf & Ht & Hp & _).
  unfold exec. rewrite H. simpl. rewrite Hf. split_and!; try done.
  - apply sub_safeDelete_disk.
  - intros k Hk. by apply safeDelete_disk_outside.
Qed.

(** ** markCreated *)

Lemma markCreated_run p w :
  ∃ w', markCreated p w = (Ret (), w')
        ∧ timers w' = timers w ∧ pending w' = pending w
        ∧ nextId w' = nextId w ∧ clock w' = clock w
        ∧ fs w'
          = match Fs.write (fs w) (Path.norm (Path.append p MARKER_CREATED))
                    (stamp (clock w)) with
            | inr t => t
            | inl _ => fs w
            end.
Proof.
  unfold markCreated, stamp. run.
  destruct (Fs.write _ _ _) as [e|t] eqn:Ew; run; by eexists.
Qed.


Lemma write_ok t q n dst :
  q ≠ [] →
  (∀ st, Fs.find t q ≠ Some (Dir st)) →
  Fs.find t (removelast q) = Some (Dir dst) →
  ∃ t', Fs.write t q n = inr t'.
Proof.
  intros Hq Hnd Hpar. unfold Fs.write.
  destruct (Fs.find t q) as [[c st|st]|] eqn:E; [by eexists|by destruct (Hnd st)|].
  destruct q; [done|]. rewrite Hpar. by eexists.
Qed.

(** The marker [p + suffix] of a file [p] in an existing directory can be
    written, and writing it changes no other path. *)
Lemma write_marker t p s n c st dst :
  Path.norm p = p → p ≠ [] → s ≠ "" →
  Fs.find t p = Some (File c st) →
  Fs.find t (Path.dirname p) = Some (Dir dst) →
  (∀ st', Fs.find t (Path.append p s) ≠ Some (Dir st')) →
  Path.norm (Path.append p s) = Path.append p s
  ∧ Path.append p s ≠ p
  ∧ ∃ t', Fs.write t (Path.append p s) n = inr t'
          ∧ ∀ k, Fs.find t' k
                 = if decide (Path.append p s = k) then Some n
                   else Fs.find t k.
Proof.
  intros Hn Hp Hs Hf Hd Hm.
  destruct (normal_split p Hn Hp) as (d & b & -> & Hdn & Hb).
  rewrite dirname_child in Hd by done.
  pose proof (norm_append_child d b Hdn Hb s) as Hna.
  rewrite append_child in *.
  split; [done|]. split.
  { intros E%snoc_inj. by apply StrFacts.app_ne_self in E. }
  destruct (write_ok t (d ++ [b +:+ s]) n dst) as [t' Hw].
  - by destruct d.
  - done.
  - by rewrite PathFacts.removelast_snoc.
  - exists t'. split; [done|]. intros k. by apply find_write.
Qed.

Lemma ge_sub now c ttl :
  Js.ge (Js.sub (Num now) (Num c)) (Num ttl) = bool_decide (ttl ≤ now - c).
Proof. done. Qed.

(** X3. The time [markCreated] writes is the time the sweep reads back:
    for a file in an existing directory, the sweep's judgement of the file
    at any later moment deletes it exactly when [ttlMs] or more have
    passed since [markCreated] ran, whatever the file's own timestamps. *)
Theorem markCreated_read_back
    (p : path) (w w2 : world) (ttlMs : Z) c st dst :
  Path.norm p = p → p ≠ [] →
  Fs.find (fs w) p = Some (File c st) →
  Fs.find (fs w) (Path.dirname p) = Some (Dir dst) →
  (∀ st', Fs.find (fs w) (Path.append p MARKER_CREATED) ≠ Some (Dir st')) →
  fs w2 = fs (exec (markCreated p) w) →
  ∃ w3, purge_file (clock w2) ttlMs p w2 = (Ret (), w3)
        ∧ Fs.find (fs w3) p
          = if bool_decide (ttlMs ≤ clock w2 - clock w) then None
            else Some (File c st).
Proof.
  intros Hn Hp Hf Hd Hm Hw2.
  destruct (write_marker (fs w) p MARKER_CREATED (stamp (clock w)) c st dst)
    as (Hmn & Hne & t' & Hw & Hfind); try done.
  destruct (markCreated_run p w) as (w1 & H1 & _ & _ & _ & _ & Hfs).
  rewrite Hmn, Hw in Hfs. unfold exec in Hw2. rewrite H1 in Hw2. simpl in Hw2.
  rewrite Hfs in Hw2.
  destruct (purge_file_run (clock w2) ttlMs p w2)
    as (o & w3 & H3 & _ & _ & Hpf).
  assert (createdAt_of (fs w2) (clock w2) p = Some (Num (clock w))) as Hc.
  { unfold createdAt_of. rewrite Hmn, Hw2, Hfind, decide_True by done.
    unfold stamp.
    by rewrite NumFacts.trim_toString, NumFacts.parseInt_toString. }
  rewrite Hc, ge_sub in Hpf. destruct Hpf as [-> Hfs3].
  exists w3. split; [done|]. rewrite Hfs3.
  assert (Fs.find (fs w2) (Path.norm p) = Some (File c st)) as Hp2.
  { rewrite Hn, Hw2, Hfind. by rewrite decide_False. }
  case_bool_decide.
  - rewrite <- Hn at 2. by eapply safeDelete_disk_file_gone.
  - by rewrite <- Hn.
Qed.

Lemma markCreated_read_back_witness :
  let p := ["outputs"; "R1"; "b.pdf"] in
  let w := boot disk_two 5000 in
  let w2 := boot (fs (exec (markCreated p) w)) (5000 + ONE_DAY) in
  (Path.norm p = p ∧ p ≠ []
   ∧ Fs.find (fs w) p = Some (File "%PDF-b" st0)
   ∧ Fs.find (fs w) (Path.dirname p) = Some (Dir st0))
  ∧ ∃ w3, purge_file (clock w2) ONE_DAY p w2 = (Ret (), w3)
          ∧ Fs.find (fs w3) p = None.
Proof.
  intros p w w2. split; [by split_and!|].
  apply (markCreated_read_back p w w2 ONE_DAY "%PDF-b" st0 st0).
  - reflexivity.
  - discriminate.
  - reflexivity.
  - reflexivity.
  - intros st'. vm_compute. discriminate.
  - reflexivity.
Defined.

(** ** scheduleDeletion *)


Lemma remaining_toString delay now t0 :
  remaining_of delay now (Js.toString t0) = Num (delay - (now - t0)).
Proof.
  unfold remaining_of.
  by rewrite NumFacts.trim_toString, NumFacts.parseInt_toString.
Qed.

Lemma artifact_of_append p :
  Path.norm p = p → p ≠ [] →
  artifact_of (Path.append p MARKER_DOWNLOADED) = p.
Proof.
  intros Hn Hp. destruct (normal_split p Hn Hp) as (d & b & -> & Hd & Hb).
  by apply slice_append_child.
Qed.

(** X5. The grace period survives a restart. When [scheduleDeletion] has
    written the marker of a file at time [t0] and the process restarts
    (the timers are lost, the disk is kept), hydration of that marker at
    time [t1] deletes the file if [downloadDelayMs] or more have passed
    since [t0], and otherwise keeps it and arms a timer for exactly
    [downloadDelayMs - (t1 - t0)]. *)
Theorem grace_period_survives_restart
    (p : path) (d : jsnum) (delay : Z) (w w2 : world) c st dst :
  Path.norm p = p → p ≠ [] →
  Fs.find (fs w) p = Some (File c st) →
  Fs.find (fs w) (Path.dirname p) = Some (Dir dst) →
  (∀ st', Fs.find (fs w) (Path.append p MARKER_DOWNLOADED) ≠ Some (Dir st')) →
  fs w2 = fs (exec (scheduleDeletion p d) w) →
  let remaining := delay - (clock w2 - clock w) in
  ∃ w3, hydrate_marker delay (Path.append p MARKER_DOWNLOADED) w2
        = (Ret (), w3)
        ∧ if bool_decide (remaining ≤ 0)
          then Fs.find (fs w3) p = None ∧ pending w3 = pending w2
          else Fs.find (fs w3) p = Some (File c st)
               ∧ pending w3
                 = match timers w2 !! p with
                   | Some t0 => filter (λ t', tid t' ≠ tid t0) (pending w2)
                   | None => pending w2
                   end ++ [armed p (Num remaining) w2]
               ∧ timers w3 !! p = Some (armed p (Num remaining) w2).
Proof.
  intros Hn Hp Hf Hd Hm Hw2 remaining.
  destruct (write_marker (fs w) p MARKER_DOWNLOADED (stamp (clock w)) c st dst)
    as (Hmn & Hne & t' & Hw & Hfind); try done.
  destruct (scheduleDeletion_run p d w) as (w1 & H1 & _ & _ & _ & _ & Hfs).
  cbv zeta in Hfs. fold (stamp (clock w)) in Hfs.
  rewrite Hmn, Hw in Hfs. unfold exec in Hw2. rewrite H1 in Hw2. simpl in Hw2.
  rewrite Hfs in Hw2.
  rewrite hydrate_marker_run, artifact_of_append, Hn, Hmn, Hw2 by done.
  rewrite !Hfind, decide_False, Hf, decide_True by done.
  unfold stamp. rewrite remaining_toString. fold remaining. simpl.
  case_bool_decide as Hr.
  - destruct (safeDelete_run p w2) as (w3 & -> & Hf3 & _ & Hp3 & _).
    exists w3. split; [done|]. split; [|done]. rewrite Hf3.
    rewrite <- Hn at 2. eapply safeDelete_disk_file_gone.
    rewrite Hn, Hw2, Hfind. by rewrite decide_False.
  - destruct (scheduleDeletion_run p (Num remaining) w2)
      as (w3 & -> & Hp3 & Ht3 & _ & _ & Hf3).
    cbv zeta in *. exists w3. split; [done|]. split_and!.
    + rewrite Hmn in Hf3. rewrite Hf3.
      destruct (Fs.write (fs w2) _ _) as [e|t3] eqn:Ew3.
      * rewrite Hw2, Hfind. by rewrite decide_False.
      * rewrite (find_write _ _ _ _ _ Ew3), decide_False by done.
        rewrite Hw2, Hfind. by rewrite decide_False.
    + done.
    + rewrite Ht3. apply lookup_insert_eq.
Qed.

Lemma grace_period_survives_restart_witness :
  let p := ["outputs"; "R1"; "b.pdf"] in
  let w := boot disk_two 5000 in
  let w2 := boot (fs (exec (scheduleDeletion p (Num TEN_MIN)) w)) 65000 in
  (Path.norm p = p ∧ p ≠ []
   ∧ Fs.find (fs w) p = Some (File "%PDF-b" st0)
   ∧ Fs.find (fs w) (Path.dirname p) = Some (Dir st0))
  ∧ ∃ w3, hydrate_marker TEN_MIN (Path.append p MARKER_DOWNLOADED) w2
          = (Ret (), w3)
          ∧ Fs.find (fs w3) p = Some (File "%PDF-b" st0)
          ∧ pending w3 = [armed p (Num 540000) w2]
          ∧ timers w3 !! p = Some (armed p (Num 540000) w2).
Proof.
  intros p w w2. split; [by split_and!|].
  apply (grace_period_survives_restart p (Num TEN_MIN) TEN_MIN w w2
           "%PDF-b" st0 st0).
  - reflexivity.
  - discriminate.
  - reflexivity.
  - reflexivity.
  - intros st'. vm_compute. discriminate.
  - reflexivity.
Defined.

(** ** Invariants of computations *)

Lemma preserves_ret {A} I (a : A) : preserves I (mret a).
Proof. by intros w Hw. Qed.

Lemma preserves_pure {A} I (m : M A) :
  (∀ w, exec m w = w) → preserves I m.
Proof. intros H w Hw. by rewrite H. Qed.

Lemma preserves_bind_strong {A B} I (m : M A) (f : A → M B) :
  preserves I m →
  (∀ a w w', I w → m w = (Ret a, w') → I (exec (f a) w')) →
  preserves I (m ≫= f).
Proof.
  intros Hm Hf w Hw. specialize (Hm w Hw). specialize (λ a w', Hf a w w' Hw).
  unfold exec, mbind, M_bind in *.
  destruct (m w) as [[a| |] w']; simpl in *; eauto.
Qed.

Lemma preserves_bind {A B} I (m : M A) (f : A → M B) :
  preserves I m → (∀ a, preserves I (f a)) → preserves I (m ≫= f).
Proof.
  intros Hm Hf. apply preserves_bind_strong; [done|].
  intros a w w' Hw E. apply Hf. specialize (Hm w Hw).
  unfold exec in Hm. by rewrite E in Hm.
Qed.

Lemma preserves_for_of {A} I (body : A → M unit) (l : list A) :
  (∀ x, x ∈ l → preserves I (body x)) → preserves I (for_of l body).
Proof.
  induction l as [|x l IH]; intros H; simpl; [apply preserves_ret|].
  apply preserves_bind; [apply H, list_elem_of_here|].
  intros []. apply IH. intros y Hy. by apply H, list_elem_of_further.
Qed.

Lemma preserves_fuelled {A} I (k : nat → M A) :
  (∀ n, preserves I (k n)) → preserves I (fuelled k).
Proof. intros H w Hw. by apply (H (S (depth (fs w)))). Qed.

Lemma preserves_try_catch {A} I (body : M A) (handler : errno → M A) :
  preserves I body → (∀ e, preserves I (handler e)) →
  preserves I (try_catch body handler).
Proof.
  intros Hb Hh w Hw. specialize (Hb w Hw). unfold exec, try_catch in *.
  destruct (body w) as [[a|e|] w']; simpl in *; try done. by apply Hh.
Qed.

Lemma preserves_log I l m p : ignores_log I → preserves I (logger.emit l m p).
Proof. intros H w Hw. by apply H. Qed.

Lemma preserves_existsSync I p : preserves I (fs.existsSync p).
Proof.
  apply preserves_pure. intros w. unfold exec, fs.existsSync.
  by destruct (Fs.find _ _).
Qed.

Lemma preserves_readFileSync I p : preserves I (fs.readFileSync p).
Proof.
  apply preserves_pure. intros w. unfold exec, fs.readFileSync.
  by destruct (Fs.find _ _) as [[]|].
Qed.

Lemma preserves_statSync I p : preserves I (fs.statSync p).
Proof.
  apply preserves_pure. intros w. unfold exec, fs.statSync.
  by destruct (Fs.find _ _).
Qed.

Lemma preserves_readdir I p : preserves I (fs.readdirSync_withFileTypes p).
Proof.
  apply preserves_pure. intros w. unfold exec. rewrite readdir_run.
  by destruct (Fs.find _ _) as [[]|].
Qed.

Lemma preserves_readdirSync I p : preserves I (fs.readdirSync p).
Proof.
  apply preserves_bind; [apply preserves_readdir|]. intros es.
  apply preserves_ret.
Qed.

Lemma preserves_Date_now I : preserves I Date_now.
Proof. by apply preserves_pure. Qed.

Lemma preserves_purge_file I now ttl full :
  ignores_log I → preserves I (safeDelete full) →
  preserves I (purge_file now ttl full).
Proof.
  intros Hl Hsd. unfold purge_file.
  apply preserves_bind; [apply preserves_existsSync|]. intros b.
  apply preserves_bind.
  - destruct b.
    + apply preserves_bind; [apply preserves_readFileSync|]. intros s.
      apply preserves_ret.
    + apply preserves_bind; [apply preserves_statSync|]. intros s.
      apply preserves_ret.
  - intros c. destruct (Js.ge _ _); [|apply preserves_ret].
    apply preserves_bind; [by apply preserves_log|]. by intros [].
Qed.

Lemma preserves_clean_empty_dir I full :
  ignores_log I → preserves I (fs.rmSync full true) →
  preserves I (clean_empty_dir full).
Proof.
  intros Hl Hrm. unfold clean_empty_dir.
  apply preserves_bind; [apply preserves_existsSync|]. intros [|];
    [|apply preserves_ret].
  apply preserves_bind; [apply preserves_readdirSync|]. intros names.
  case_bool_decide; [|apply preserves_ret].
  apply preserves_bind; [done|]. intros []. by apply preserves_log.
Qed.

Lemma preserves_hydrate_marker I delay full :
  preserves I (fs.rmSync full false) →
  (∀ w, I w → is_Some (Fs.find (fs w) (Path.norm (artifact_of full))) →
        I (exec (safeDelete (artifact_of full)) w)) →
  (∀ d w s st,
     I w → Fs.find (fs w) (Path.norm full) = Some (File s st) →
     is_Some (Fs.find (fs w) (Path.norm (artifact_of full))) →
     I (exec (scheduleDeletion (artifact_of full) d) w)) →
  preserves I (hydrate_marker delay full).
Proof.
  intros Hrm Hsd Harm w Hw. unfold exec. rewrite hydrate_marker_run.
  destruct (Fs.find (fs w) (Path.norm (artifact_of full))) as [m|] eqn:Ea;
    [|by apply Hrm].
  destruct (Fs.find (fs w) (Path.norm full)) as [[s st|st]|] eqn:Ef;
    [|done..].
  destruct (Js.le _ _).
  - apply Hsd; [done|]. by rewrite Ea.
  - eapply Harm; [done..|]. by rewrite Ea.
Qed.

(** A walk keeps [I] when each of its steps does. [D] is what is known of
    the directories it visits, [E] of the entries it reads there. *)
Section walk_preserves.
Context (I : world → Prop) (D : path → Prop) (E : Dirent.t → Prop).
Context (walk : nat → path → M unit).
Context (entry : (path → M unit) → path → Dirent.t → M unit).
Hypothesis walk_O : ∀ dir, walk O dir = diverge.
Hypothesis walk_S : ∀ fuel dir,
  walk (S fuel) dir
  = (es ← fs.readdirSync_withFileTypes dir;
     for_of es (entry (walk fuel) dir)).
Hypothesis entries_ok : ∀ dir w e,
  I w → D (Path.norm dir) →
  e ∈ Dirent.of_entry <$> Fs.children (fs w) (Path.norm dir) →
  E e ∧ (Dirent.isDirectory e = true →
         D (Path.norm (Path.join dir (Dirent.name e)))).
Hypothesis entry_ok : ∀ (rec : path → M unit) dir e,
  D (Path.norm dir) → E e →
  (Dirent.isDirectory e = true →
   preserves I (rec (Path.join dir (Dirent.name e)))) →
  preserves I (entry rec dir e).

Lemma walk_preserves fuel : ∀ dir,
  D (Path.norm dir) → preserves I (walk fuel dir).
Proof.
  induction fuel as [|fuel IH]; intros dir Hd.
  - rewrite walk_O. by apply preserves_pure.
  - rewrite walk_S. apply preserves_bind_strong; [apply preserves_readdir|].
    intros es w w' Hw Hread. rewrite readdir_run in Hread.
    destruct (Fs.find _ _) as [[|]|]; simplify_eq.
    apply preserves_for_of; [|done]. intros e He.
    destruct (entries_ok dir w' e Hw Hd He) as [HE HD].
    apply entry_ok; [done..|]. intros Hdir. apply IH. by apply HD.
Qed.

End walk_preserves.

Section housekeeping_preserves.
Context (I : world → Prop) (D : path → Prop) (E : Dirent.t → Prop).
Hypothesis I_log : ignores_log I.
Hypothesis entries_ok : ∀ dir w e,
  I w → D (Path.norm dir) →
  e ∈ Dirent.of_entry <$> Fs.children (fs w) (Path.norm dir) →
  E e ∧ (Dirent.isDirectory e = true →
         D (Path.norm (Path.join dir (Dirent.name e)))).

Section walks.
Hypothesis rm_dir : ∀ dir e,
  D (Path.norm dir) → E e → Dirent.isDirectory e = true →
  preserves I (fs.rmSync (Path.join dir (Dirent.name e)) true).
Hypothesis delete_file : ∀ dir e,
  D (Path.norm dir) → E e → Dirent.isDirectory e = false →
  marker_named (Dirent.name e) = false →
  preserves I (safeDelete (Path.join dir (Dirent.name e))).

Lemma purge_walk_preserves fuel now ttl dir :
  D (Path.norm dir) → preserves I (purge_walk fuel now ttl dir).
Proof.
  apply (walk_preserves I D E (λ fuel, purge_walk fuel now ttl)
           (λ rec, purge_entry rec now ttl)); [done..|].
  intros rec d e Hd He Hrec. unfold purge_entry.
  destruct (Dirent.isDirectory e) eqn:Hdir.
  - apply preserves_bind; [by apply Hrec|]. intros [].
    apply preserves_clean_empty_dir; [done|]. by apply rm_dir.
  - destruct (Dirent.isFile e); [|apply preserves_ret].
    fold (marker_named (Dirent.name e)).
    destruct (marker_named _) eqn:Hm; [apply preserves_ret|].
    apply preserves_purge_file; [done|]. by apply delete_file.
Qed.

Lemma purgeOlderThan_preserves root ttl :
  D (Path.norm root) → preserves I (purgeOlderThan root ttl).
Proof.
  intros Hd. unfold purgeOlderThan.
  apply preserves_bind; [apply preserves_existsSync|]. intros b.
  destruct (negb b); [apply preserves_ret|].
  apply preserves_bind; [apply preserves_Date_now|]. intros now.
  apply preserves_fuelled. intros n. by apply purge_walk_preserves.
Qed.

Hypothesis rm_marker : ∀ dir e,
  D (Path.norm dir) → E e →
  Str.endsWith (Dirent.name e) MARKER_DOWNLOADED = true →
  preserves I (fs.rmSync (Path.join dir (Dirent.name e)) false).
Hypothesis delete_artifact : ∀ dir e w,
  D (Path.norm dir) → E e →
  Str.endsWith (Dirent.name e) MARKER_DOWNLOADED = true →
  I w →
  is_Some (Fs.find (fs w)
             (Path.norm (artifact_of (Path.join dir (Dirent.name e))))) →
  I (exec (safeDelete (artifact_of (Path.join dir (Dirent.name e)))) w).
Hypothesis arm_artifact : ∀ dir e d w s st,
  D (Path.norm dir) → E e →
  Str.endsWith (Dirent.name e) MARKER_DOWNLOADED = true →
  I w →
  Fs.find (fs w) (Path.norm (Path.join dir (Dirent.name e)))
  = Some (File s st) →
  is_Some (Fs.find (fs w)
             (Path.norm (artifact_of (Path.join dir (Dirent.name e))))) →
  I (exec (scheduleDeletion (artifact_of (Path.join dir (Dirent.name e))) d)
       w).

Lemma hydrate_walk_preserves fuel delay dir :
  D (Path.norm dir) → preserves I (hydrate_walk fuel delay dir).
Proof.
  apply (walk_preserves I D E (λ fuel, hydrate_walk fuel delay)
           (λ rec, hydrate_entry rec delay)); [done..|].
  intros rec d e Hd He Hrec. unfold hydrate_entry.
  destruct (Dirent.isDirectory e) eqn:Hdir; [by apply Hrec|].
  destruct (Dirent.isFile e); [|apply preserves_ret].
  destruct (Str.endsWith _ _) eqn:Hm; [|apply preserves_ret].
  apply preserves_hydrate_marker; eauto.
Qed.

Lemma hydrateFromDisk_preserves root delay ttl :
  D (Path.norm root) → preserves I (hydrateFromDisk root delay ttl).
Proof.
  intros Hd. unfold hydrateFromDisk.
  apply preserves_bind; [by apply preserves_log|]. intros [].
  apply preserves_bind; [apply preserves_existsSync|]. intros b.
  destruct (negb b); [apply preserves_ret|].
  apply preserves_bind.
  - apply preserves_fuelled. intros n. by apply hydrate_walk_preserves.
  - intros []. by apply purgeOlderThan_preserves.
Qed.

End walks.
End housekeeping_preserves.

Lemma rmSync_run p r w :
  ∃ o w', fs.rmSync p r w = (o, w')
          ∧ timers w' = timers w ∧ pending w' = pending w
          ∧ nextId w' = nextId w ∧ clock w' = clock w
          ∧ (fs w' = fs w
             ∨ fs w' = Fs.remove (fs w) (Path.norm p)
             ∨ fs w' = Fs.remove_rec (fs w) (Path.norm p)).
Proof.
  unfold fs.rmSync.
  destruct (Fs.find (fs w) (Path.norm p)) as [[|]|]; [|destruct r|];
    do 2 eexists; (split; [done|]); split_and!; try done; auto.
Qed.

Lemma rmSync_sub p r w : sub (fs (exec (fs.rmSync p r) w)) (fs w).
Proof.
  destruct (rmSync_run p r w) as (o & w' & H & _ & _ & _ & _ & Hf).
  unfold exec. rewrite H. simpl.
  destruct Hf as [->|[->| ->]];
    [apply sub_refl|apply sub_remove|apply sub_remove_rec].
Qed.

(** ** The sweep only removes *)

(** X6. A TTL sweep only ever removes files: whatever is on disk after it
    was there before, unchanged. It arms no timer and cancels none (the
    timers of the event loop are exactly as before), and it can only
    drop entries from the scheduler's map; so a file the sweep deletes
    keeps its armed timer, which later fires on a missing file. *)
Theorem purgeOlderThan_only_removes (outputsRoot : path) (ttlMs : Z) (w : world) :
  let w' := exec (purgeOlderThan outputsRoot ttlMs) w in
  sub (fs w') (fs w)
  ∧ pending w' = pending w
  ∧ nextId w' = nextId w
  ∧ (∀ k t, timers w' !! k = Some t → timers w !! k = Some t)
  ∧ clock w' = clock w.
Proof.
  set (I := λ w1 : world,
    sub (fs w1) (fs w) ∧ pending w1 = pending w ∧ nextId w1 = nextId w
    ∧ (∀ k t, timers w1 !! k = Some t → timers w !! k = Some t)
    ∧ clock w1 = clock w).
  apply (purgeOlderThan_preserves I (λ _, True) (λ _, True)); try done.
  - by intros l w1.
  - intros dir e _ _ _ w1 (Hs & Hp & Hn & Ht & Hc).
    destruct (rmSync_run (Path.join dir (Dirent.name e)) true w1)
      as (o & w' & H & Ht' & Hp' & Hn' & Hc' & _).
    pose proof (rmSync_sub (Path.join dir (Dirent.name e)) true w1) as Hs'.
    unfold exec in *. rewrite H in *. simpl in *.
    split_and!; [by eapply sub_trans|congruence..| |congruence].
    intros k t. rewrite Ht'. apply Ht.
  - intros dir e _ _ _ _ w1 (Hs & Hp & Hn & Ht & Hc).
    destruct (safeDelete_run (Path.join dir (Dirent.name e)) w1)
      as (w' & H & Hf' & Ht' & Hp' & Hn' & Hc').
    unfold exec. rewrite H. simpl.
    split_and!; [|congruence..| |congruence].
    + rewrite Hf'. eapply sub_trans; [apply sub_safeDelete_disk|done].
    + intros k t. rewrite Ht'. intros [_ E]%lookup_delete_Some. by apply Ht.
  - split_and!; try done. apply sub_refl.
Qed.

(** ** The scheduler's map is sound *)

Lemma tid_inj (l : list Timeout) t t' :
  NoDup (tid <$> l) → t ∈ l → t' ∈ l → tid t = tid t' → t = t'.
Proof.
  induction l as [|x l IH]; [by intros _ ?%elem_of_nil|].
  rewrite fmap_cons, NoDup_cons. intros [Hx Hl] Ht Ht' E.
  apply elem_of_cons in Ht as [->|Ht]; apply elem_of_cons in Ht' as [->|Ht'].
  - done.
  - destruct Hx. rewrite E. by apply list_elem_of_fmap_2.
  - destruct Hx. rewrite <- E. by apply list_elem_of_fmap_2.
  - by apply IH.
Qed.

Lemma filter_filter_keep {A} (P1 P2 : A → Prop)
    `{!∀ x, Decision (P1 x), !∀ x, Decision (P2 x)} (l : list A) :
  (∀ x, x ∈ l → P1 x → P2 x) → filter P1 (filter P2 l) = filter P1 l.
Proof.
  induction l as [|x l IH]; intros Himp; [done|].
  assert (filter P1 (filter P2 l) = filter P1 l) as IH'
    by (apply IH; intros y Hy; by apply Himp, list_elem_of_further).
  destruct (decide (P1 x)) as [Hx|Hx].
  - rewrite (filter_cons_True P2)
      by (apply Himp; [apply list_elem_of_here|done]).
    by rewrite !(filter_cons_True P1), IH'.
  - rewrite (filter_cons_False P1 x l) by done.
    destruct (decide (P2 x)).
    + rewrite (filter_cons_True P2) by done.
      by rewrite (filter_cons_False P1).
    + by rewrite (filter_cons_False P2).
Qed.

Lemma sched_ok_boot t now : sched_ok (boot t now).
Proof.
  split; simpl.
  - intros k t0. by rewrite lookup_empty.
  - intros t0 Hin. by apply elem_of_nil in Hin.
  - constructor.
Qed.

Lemma sched_ok_same w w' :
  timers w' = timers w → pending w' = pending w → nextId w' = nextId w →
  sched_ok w → sched_ok w'.
Proof. intros Ht Hp Hn [??]. split; rewrite ?Ht, ?Hp, ?Hn; done. Qed.

Lemma sched_ok_forget p w w' :
  timers w' = delete p (timers w) → pending w' = pending w →
  nextId w' = nextId w → sched_ok w → sched_ok w'.
Proof.
  intros Ht Hp Hn [Hk Hf Hnd]. split; rewrite ?Ht, ?Hp, ?Hn; try done.
  intros k t [_ E]%lookup_delete_Some. by apply Hk.
Qed.

(** Cancelling the timer on record for [p] leaves the timers of every
    other path armed. *)
Lemma sched_ok_others w p t0 t :
  sched_ok w → timers w !! p = Some t0 → t ∈ pending w → tpath t ≠ p →
  tid t ≠ tid t0.
Proof.
  intros [Hk _ Hnd] E Hin Hne Hid. destruct (Hk p t0 E) as [Hp0 Hin0].
  apply Hne. by rewrite (tid_inj _ t t0 Hnd Hin Hin0 Hid).
Qed.

Lemma sched_ok_clearScheduledDeletion p w :
  sched_ok w →
  ∃ w', clearScheduledDeletion p w = (Ret (), w')
        ∧ sched_ok w'
        ∧ timers w' = delete p (timers w)
        ∧ pending w'
          = match timers w !! p with
            | Some t0 => filter (λ t', tid t' ≠ tid t0) (pending w)
            | None => pending w
            end
        ∧ fs w' = fs w ∧ nextId w' = nextId w ∧ clock w' = clock w.
Proof.
  intros Hok. pose proof Hok as [Hk Hf Hnd].
  unfold clearScheduledDeletion. run.
  destruct (timers w !! p) as [t0|] eqn:Et; run; eexists; (split; [done|]).
  - split_and!; try done. split; simpl.
    + intros k t [Hne E]%lookup_delete_Some. destruct (Hk k t E) as [Hp Hin].
      split; [done|]. apply list_elem_of_filter. split; [|done].
      eapply sched_ok_others; [done..|]. by rewrite Hp.
    + intros t [_ Hin]%list_elem_of_filter. by apply Hf.
    + by apply NoDup_fmap_filter.
  - split_and!; try done. by rewrite delete_id.
Qed.

Lemma sched_ok_scheduleDeletion p d w :
  sched_ok w → sched_ok (exec (scheduleDeletion p d) w).
Proof.
  intros Hok. pose proof Hok as [Hk Hf Hnd].
  destruct (scheduleDeletion_run p d w) as (w' & H & Hp & Ht & Hn & _).
  cbv zeta in *. unfold exec. rewrite H. simpl.
  set (new := Build_Timeout (nextId w) p d) in *.
  set (base := match timers w !! p with
               | Some t0 => filter (λ t', tid t' ≠ tid t0) (pending w)
               | None => pending w
               end) in *.
  assert (∀ t, t ∈ base → t ∈ pending w) as Hbase.
  { intros t. unfold base. destruct (timers w !! p); [|done].
    by intros [_ ?]%list_elem_of_filter. }
  assert (NoDup (tid <$> base)) as Hnb.
  { unfold base. destruct (timers w !! p); [|done].
    by apply NoDup_fmap_filter. }
  split.
  - intros k t. rewrite Ht, Hp. intros [[<- <-]|[Hne E]]%lookup_insert_Some.
    + split; [done|]. apply elem_of_app. right. apply list_elem_of_here.
    + destruct (Hk k t E) as [Hpath Hin]. split; [done|].
      apply elem_of_app. left. unfold base.
      destruct (timers w !! p) as [t0|] eqn:Et; [|done].
      apply list_elem_of_filter. split; [|done].
      eapply sched_ok_others; [done..|]. by rewrite Hpath.
  - intros t. rewrite Hp, Hn, elem_of_app, list_elem_of_singleton.
    intros [Hin| ->].
    + specialize (Hf t (Hbase t Hin)). lia.
    + simpl. lia.
  - rewrite Hp, fmap_app. apply NoDup_app. split; [done|]. split.
    + intros i Hi Hi'. apply list_elem_of_singleton in Hi'. simpl in Hi'.
      apply list_elem_of_fmap in Hi as (t & -> & Hin).
      specialize (Hf t (Hbase t Hin)). lia.
    + apply NoDup_singleton.
Qed.

Lemma sched_ok_safeDelete p w : sched_ok w → sched_ok (exec (safeDelete p) w).
Proof.
  intros Hok. destruct (safeDelete_run p w) as (w' & H & _ & Ht & Hp & Hn & _).
  unfold exec. rewrite H. simpl. by eapply sched_ok_forget.
Qed.

Lemma sched_ok_fire t w :
  sched_ok w → t ∈ pending w → sched_ok (exec (fire t) w).
Proof.
  intros Hok Hin. pose proof Hok as [Hk Hf Hnd].
  unfold exec, fire, clearTimeout, mbind, M_bind.
  match goal with |- context [safeDelete ?p ?w0] =>
    destruct (safeDelete_run p w0) as (w' & -> & _ & Ht & Hp & Hn & _) end.
  simpl in *. split.
  - intros k t1. rewrite Ht, Hp. intros [Hne E]%lookup_delete_Some.
    destruct (Hk k t1 E) as [Hpath Hin1]. split; [done|].
    apply list_elem_of_filter. split; [|done].
    intros Hid. apply Hne.
    by rewrite <- (tid_inj _ t1 t Hnd Hin1 Hin Hid).
  - intros t1. rewrite Hp, Hn. intros [_ Hin1]%list_elem_of_filter.
    by apply Hf.
  - rewrite Hp. by apply NoDup_fmap_filter.
Qed.

Lemma sched_ok_rmSync p r w : sched_ok w → sched_ok (exec (fs.rmSync p r) w).
Proof.
  intros Hok. destruct (rmSync_run p r w) as (o & w' & H & Ht & Hp & Hn & _).
  unfold exec. rewrite H. simpl. by eapply sched_ok_same.
Qed.

Lemma sched_ok_log : ignores_log sched_ok.
Proof. intros l w [??]. by split. Qed.

Lemma sched_ok_purgeOlderThan root ttl w :
  sched_ok w → sched_ok (exec (purgeOlderThan root ttl) w).
Proof.
  apply (purgeOlderThan_preserves sched_ok (λ _, True) (λ _, True));
    try done.
  - apply sched_ok_log.
  - intros dir e _ _ _ w1. apply sched_ok_rmSync.
  - intros dir e _ _ _ _ w1. apply sched_ok_safeDelete.
Qed.

Lemma sched_ok_hydrateFromDisk root delay ttl w :
  sched_ok w → sched_ok (exec (hydrateFromDisk root delay ttl) w).
Proof.
  apply (hydrateFromDisk_preserves sched_ok (λ _, True) (λ _, True));
    try done.
  - apply sched_ok_log.
  - intros dir e _ _ _ w1. apply sched_ok_rmSync.
  - intros dir e _ _ _ _ w1. apply sched_ok_safeDelete.
  - intros dir e _ _ _ w1. apply sched_ok_rmSync.
  - intros dir e w1 _ _ _ Hw1 _. by apply sched_ok_safeDelete.
  - intros dir e d w1 s st _ _ _ Hw1 _ _. by apply sched_ok_scheduleDeletion.
Qed.

Lemma sched_ok_activity a w : sched_ok w → sched_ok (run_activity a w).
Proof.
  intros Hok. destruct a as [[p d|p|t]|[r ttl|r delay ttl|ms]|p]; simpl.
  - by apply sched_ok_scheduleDeletion.
  - destruct (sched_ok_clearScheduledDeletion p w Hok) as (w' & H & ? & _).
    unfold exec. by rewrite H.
  - unfold exec. case_bool_decide; [by apply sched_ok_fire|done].
  - by apply sched_ok_purgeOlderThan.
  - by apply sched_ok_hydrateFromDisk.
  - destruct Hok. by split.
  - destruct (markCreated_run p w) as (w' & H & Ht & Hp & Hn & _).
    unfold exec. rewrite H. simpl. by eapply sched_ok_same.
Qed.

(** X7. The scheduler's map stays sound through everything the module
    does. Starting from a sound state, after any sequence of arming,
    cancelling, timers firing, TTL sweeps, hydrations, [markCreated] calls
    and time passing, every entry of the map is filed under the path its
    timer deletes and that timer is still armed, and armed timers have
    distinct identities: the map never holds a timer that has fired or
    was cancelled. *)
Theorem scheduler_map_stays_sound (l : list activity) (w : world) :
  sched_ok w → sched_ok (run_activities l w).
Proof.
  revert w. induction l as [|a l IH]; intros w Hok; [done|].
  simpl. by apply IH, sched_ok_activity.
Qed.

Lemma scheduler_map_stays_sound_witness :
  let p := ["outputs"; "R1"; "a.pdf"] in
  let w := boot disk_two 5000 in
  sched_ok w
  ∧ sched_ok
      (run_activities
         [ Created p; Scheduler (Arm p (Num TEN_MIN));
           Housekeeping (Elapse ONE_DAY);
           Housekeeping (Sweep ["outputs"] ONE_DAY);
           Scheduler (Arm p (Num TEN_MIN));
           Housekeeping (Hydrate ["outputs"] TEN_MIN ONE_DAY) ] w).
Proof.
  intros p w. split; [apply sched_ok_boot|].
  apply (scheduler_map_stays_sound _ w). apply sched_ok_boot.
Defined.

(** X8. [clearScheduledDeletion] cancels the timer on record for the path
    and nothing else: afterwards the map has no entry for the path and the
    recorded timer is no longer armed, while the timers and map entries of
    every other path are as before. The disk is not touched, so a
    [.downloaded] marker written when the timer was armed stays behind. *)
Theorem clearScheduledDeletion_cancels (p : path) (w : world) :
  sched_ok w →
  ∃ w', clearScheduledDeletion p w = (Ret (), w')
        ∧ timers w' !! p = None
        ∧ (∀ t, timers w !! p = Some t → t ∉ pending w')
        ∧ (∀ q, q ≠ p →
             timers_for q w' = timers_for q w
             ∧ timers w' !! q = timers w !! q)
        ∧ fs w' = fs w.
Proof.
  intros Hok.
  destruct (sched_ok_clearScheduledDeletion p w Hok)
    as (w' & H & _ & Ht & Hp & Hf & _).
  exists w'. split; [done|]. split_and!; [| | |done].
  - rewrite Ht. apply lookup_delete_eq.
  - intros t E. rewrite Hp, E. intros [Hid _]%list_elem_of_filter. done.
  - intros q Hq. split; [|rewrite Ht; by apply lookup_delete_ne].
    unfold timers_for. rewrite Hp.
    destruct (timers w !! p) as [t0|] eqn:E; [|done].
    apply filter_filter_keep. intros t Hin Hpath.
    eapply sched_ok_others; [done..|]. by rewrite Hpath.
Qed.

Lemma clearScheduledDeletion_cancels_witness :
  let p := ["outputs"; "R1"; "a.pdf"] in
  let q := ["outputs"; "R1"; "b.pdf"] in
  let w := exec (scheduleDeletion q (Num TEN_MIN))
             (exec (scheduleDeletion p (Num TEN_MIN)) (boot disk_two 5000)) in
  sched_ok w
  ∧ ∃ w', clearScheduledDeletion p w = (Ret (), w')
          ∧ timers w' !! p = None
          ∧ timers_for p w' = []
          ∧ timers_for q w' = timers_for q w
          ∧ fs w' = fs w.
Proof.
  intros p q w.
  assert (sched_ok w) as Hok.
  { do 2 apply sched_ok_scheduleDeletion. apply sched_ok_boot. }
  split; [exact Hok|].
  destruct (clearScheduledDeletion_cancels p w Hok)
    as (w' & H & Hn & Hgone & Hothers & Hf).
  exists w'. split_and!; try done.
  - revert H. vm_compute. by intros [= <-].
  - apply Hothers. discriminate.
Defined.

(** ** Hydration only deletes, or stamps markers again *)

Lemma endsWith_nonempty s suf : suf ≠ "" → Str.endsWith s suf = true → s ≠ "".
Proof. intros Hsuf H ->. simpl in H. by case_bool_decide. Qed.

Lemma join_named dir c :
  c ≠ "" →
  Path.join dir c = Path.norm dir ++ [c]
  ∧ Path.norm (Path.join dir c) = Path.norm dir ++ [c]
  ∧ Path.dirname (Path.join dir c) = Path.norm dir
  ∧ List.last (Path.join dir c) "" = c
  ∧ Path.join dir c ≠ [].
Proof.
  intros Hc. unfold Path.dirname, Path.join.
  rewrite PathFacts.norm_idemp, PathFacts.norm_snoc by done.
  rewrite PathFacts.removelast_snoc, PathFacts.last_snoc.
  split_and!; try done. by destruct (Path.norm dir).
Qed.

(** The marker hydration re-arms through is the marker it read. *)
Lemma marker_of_artifact dir c :
  Str.endsWith c MARKER_DOWNLOADED = true →
  Path.norm (Path.append (artifact_of (Path.join dir c)) MARKER_DOWNLOADED)
  = Path.join dir c.
Proof.
  intros Hc. pose proof (endsWith_nonempty _ _ marker_downloaded_nonempty Hc).
  destruct (join_named dir c) as (Hj & Hn & _ & Hl & Hne); [done|].
  rewrite append_artifact_of; [by rewrite Hn, Hj|done|by rewrite Hl].
Qed.

Section restamp.
Context (t0 : tree) (now : Z).

Local Abbreviation I :=
  (λ w : world, clock w = now
                ∧ ∀ k m, Fs.find (fs w) k = Some m →
                         kept_or_restamped t0 now k m).

Lemma restamp_sub w w' :
  I w → sub (fs w') (fs w) → clock w' = clock w → I w'.
Proof.
  intros [Hc Hk] Hs Hc'. split; [congruence|]. intros k m Hm.
  by apply Hk, Hs.
Qed.

Lemma restamp_rmSync p r : preserves I (fs.rmSync p r).
Proof.
  intros w Hw. eapply restamp_sub; [done|apply rmSync_sub|].
  destruct (rmSync_run p r w) as (o & w' & H & _ & _ & _ & Hc & _).
  unfold exec. by rewrite H.
Qed.

Lemma restamp_safeDelete p : preserves I (safeDelete p).
Proof.
  intros w Hw. destruct (safeDelete_run p w) as (w' & H & Hf & _ & _ & _ & Hc).
  unfold exec. rewrite H. simpl. eapply restamp_sub; [done| |done].
  rewrite Hf. apply sub_safeDelete_disk.
Qed.

Lemma restamp_arm dir c d w s st :
  Str.endsWith c MARKER_DOWNLOADED = true →
  I w →
  Fs.find (fs w) (Path.norm (Path.join dir c)) = Some (File s st) →
  I (exec (scheduleDeletion (artifact_of (Path.join dir c)) d) w).
Proof.
  intros Hc [Hclock Hk] Hfull.
  pose proof (endsWith_nonempty _ _ marker_downloaded_nonempty Hc) as Hne.
  destruct (join_named dir c Hne) as (_ & Hn & _ & Hl & _).
  destruct (scheduleDeletion_run (artifact_of (Path.join dir c)) d w)
    as (w' & H & _ & _ & _ & Hc' & Hf).
  cbv zeta in Hf. fold (stamp (clock w)) in Hf.
  rewrite marker_of_artifact in Hf by done.
  unfold exec. rewrite H. simpl. split; [congruence|].
  intros k m. rewrite Hf.
  assert (Path.norm (Path.join dir c) = Path.join dir c) as Hnj
    by (unfold Path.join; apply PathFacts.norm_idemp).
  rewrite Hnj in Hfull.
  rewrite (write_file_ok _ _ _ _ _ Hfull), FsFacts.find_replace.
  case_decide as Hkq; [|by apply Hk]. subst k. rewrite Hfull. simpl.
  intros [= <-]. right. rewrite Hl. split; [done|]. split; [|congruence].
  destruct (Hk _ _ Hfull) as [?|(_ & ? & _)]; eauto.
Qed.

Lemma restamp_hydrateFromDisk root delay ttl :
  preserves I (hydrateFromDisk root delay ttl).
Proof.
  apply (hydrateFromDisk_preserves I (λ _, True) (λ _, True)); try done.
  - by intros l w.
  - intros dir e _ _ _. apply restamp_rmSync.
  - intros dir e _ _ _ _. apply restamp_safeDelete.
  - intros dir e _ _ _. apply restamp_rmSync.
  - intros dir e w _ _ _ Hw _. by apply restamp_safeDelete.
  - intros dir e d w s st _ _ He Hw Hf _. by eapply restamp_arm.
Qed.

End restamp.

(** X9. Hydration creates nothing and changes no artifact: every node on
    disk after [hydrateFromDisk] was there before, unchanged, except that
    a [.downloaded] marker which was a regular file may now hold the time
    of the hydration. In particular no file other than a [.downloaded]
    marker is ever created or written. *)
Theorem hydrateFromDisk_only_restamps
    (outputsRoot : path) (downloadDelayMs ttlMs : Z) (w : world) :
  let w' := exec (hydrateFromDisk outputsRoot downloadDelayMs ttlMs) w in
  clock w' = clock w
  ∧ ∀ k m, Fs.find (fs w') k = Some m →
           kept_or_restamped (fs w) (clock w) k m.
Proof.
  apply (restamp_hydrateFromDisk (fs w) (clock w)).
  split; [done|]. intros k m Hm. by left.
Qed.

(** ** Housekeeping stays below its root *)

Lemma tidy_filter (P : path * node → Prop) `{!∀ x, Decision (P x)} t :
  tidy t → tidy (filter P t).
Proof.
  intros [Hnd Hk]. split; [by apply NoDup_fst_filter|].
  intros k Hin. by apply Hk, (keys_sub_filter P).
Qed.

Lemma replace_keys t q n : (Fs.replace t q n).*1 = t.*1.
Proof.
  unfold Fs.replace. rewrite <- list_fmap_compose. apply list_fmap_ext.
  intros i [k m] _. simpl. by case_decide.
Qed.

Lemma tidy_replace t q n : tidy t → tidy (Fs.replace t q n).
Proof. unfold tidy. by rewrite replace_keys. Qed.

Lemma tidy_rm_plain t k t' : rm_plain t k = Some t' → tidy t → tidy t'.
Proof. intros ->%rm_plain_Some. apply tidy_filter. Qed.

Lemma tidy_rm_if_empty t k t' : rm_if_empty t k = Some t' → tidy t → tidy t'.
Proof.
  unfold rm_if_empty. destruct (Fs.find t k) as [[|]|]; intros ??;
    simplify_eq; try done.
  case_bool_decide; [by apply tidy_filter|done].
Qed.

Lemma tidy_safeDelete_disk p t : tidy t → tidy (safeDelete_disk p t).
Proof.
  intros Ht. unfold safeDelete_disk.
  destruct (rm_plain t _) as [t1|] eqn:E1; [|done].
  pose proof (tidy_rm_plain _ _ _ E1 Ht).
  destruct (rm_plain t1 _) as [t2|] eqn:E2; [|done].
  pose proof (tidy_rm_plain _ _ _ E2 ltac:(done)).
  destruct (rm_plain t2 _) as [t3|] eqn:E3; [|done].
  pose proof (tidy_rm_plain _ _ _ E3 ltac:(done)).
  destruct (rm_if_empty t3 _) as [t4|] eqn:E4; [|done].
  by eapply tidy_rm_if_empty.
Qed.

Lemma wf_tidy t : wf t → tidy t.
Proof.
  intros [Hnd Hk _]. split; [done|].
  intros k ([k' m] & -> & Hin)%list_elem_of_fmap. by eapply Hk.
Qed.

Section within.
Context (R : path) (t0 : tree).

Local Abbreviation I := (λ w : world, within R t0 (fs w)).
Local Abbreviation D :=
  (λ d : path, R `prefix_of` d ∧ ∀ c st, Fs.find t0 d ≠ Some (File c st)).
Local Abbreviation E := (λ e : Dirent.t, Dirent.name e ≠ "").

Lemma within_shrink t t' :
  within R t0 t → tidy t' → sub t' t →
  (∀ k, ¬ R `prefix_of` k → Fs.find t' k = Fs.find t k) →
  within R t0 t'.
Proof.
  intros (_ & Hfr & Hkind) Ht Hs Hfr'. split; [done|]. split.
  - intros k Hk. by rewrite Hfr', Hfr.
  - intros k m Hm. by apply Hkind, Hs.
Qed.

Lemma within_entries dir w e :
  I w → D (Path.norm dir) →
  e ∈ Dirent.of_entry <$> Fs.children (fs w) (Path.norm dir) →
  E e ∧ (Dirent.isDirectory e = true →
         D (Path.norm (Path.join dir (Dirent.name e)))).
Proof.
  intros ([Hnd Hkeys] & _ & Hkind) [HR _] He.
  destruct (entry_facts (fs w) dir e) as (n & Hin & Hj & Hne & Hdir & _).
  { intros k m Hkm. apply Hkeys. by apply (list_elem_of_fmap_2 fst _ (k, m)). }
  { done. }
  split; [done|]. intros Hd.
  destruct (join_named dir (Dirent.name e) Hne) as (_ & Hn & _).
  rewrite Hn. split; [by apply prefix_app_r|].
  intros c st Hfile. rewrite Hj in Hin.
  apply (find_elem_nodup _ _ _ Hnd) in Hin.
  destruct (Hkind _ _ Hin) as (m0 & Hm0 & Hk0).
  rewrite Hfile in Hm0. simplify_eq. simpl in Hk0. congruence.
Qed.

(** Removing the entry [c] of a directory below [R]. *)
Lemma within_rmSync dir c r :
  R `prefix_of` Path.norm dir → c ≠ "" →
  preserves I (fs.rmSync (Path.join dir c) r).
Proof.
  intros HR Hc w Hw. destruct (join_named dir c Hc) as (_ & Hn & _).
  destruct (rmSync_run (Path.join dir c) r w) as (o & w' & H & _ & _ & _ & _ & Hf).
  pose proof (rmSync_sub (Path.join dir c) r w) as Hs.
  unfold exec in *. rewrite H in *. simpl in *.
  assert (∀ k, ¬ R `prefix_of` k → ¬ Path.norm dir ++ [c] `prefix_of` k) as Hout.
  { intros k Hk Hp. apply Hk. etrans; [|done]. by apply prefix_app_r. }
  eapply within_shrink; [done| |done|].
  - destruct Hw as [Ht _].
    destruct Hf as [->|[->| ->]]; [done|by apply tidy_filter..].
  - intros k Hk. rewrite Hn in Hf. destruct Hf as [->|[->| ->]]; [done|..].
    + rewrite FsFacts.find_remove. case_decide; [|done]. subst k.
      by destruct (Hout _ Hk).
    + rewrite FsFacts.find_remove_rec. case_decide; [|done].
      by destruct (Hout k Hk).
Qed.

Lemma within_safeDelete_disk p t :
  R `prefix_of` Path.dirname p →
  within R t0 t → within R t0 (safeDelete_disk p t).
Proof.
  intros HR Hw. eapply within_shrink; [done| | |].
  - apply tidy_safeDelete_disk, Hw.
  - apply sub_safeDelete_disk.
  - intros k Hk. apply safeDelete_disk_outside. intros Hp. apply Hk.
    by etrans.
Qed.

Lemma within_safeDelete dir c :
  R `prefix_of` Path.norm dir → c ≠ "" →
  preserves I (safeDelete (Path.join dir c)).
Proof.
  intros HR Hc w Hw. destruct (join_named dir c Hc) as (_ & _ & Hd & _).
  destruct (safeDelete_run (Path.join dir c) w) as (w' & H & Hf & _).
  unfold exec. rewrite H. simpl. rewrite Hf.
  apply within_safeDelete_disk; [by rewrite Hd|done].
Qed.

Lemma artifact_of_join dir c :
  Str.endsWith c MARKER_DOWNLOADED = true →
  ∃ b, c = b +:+ MARKER_DOWNLOADED
       ∧ artifact_of (Path.join dir c) = Path.norm dir ++ [b].
Proof.
  intros Hc. pose proof (endsWith_nonempty _ _ marker_downloaded_nonempty Hc).
  destruct (join_named dir c) as (Hj & _); [done|].
  apply StrFacts.endsWith_inv in Hc as [b ->]. exists b. split; [done|].
  rewrite Hj. unfold artifact_of, Path.slice_end.
  by rewrite PathFacts.removelast_snoc, PathFacts.last_snoc,
    StrFacts.slice_end_app.
Qed.

Lemma within_delete_artifact dir c w :
  D (Path.norm dir) →
  Str.endsWith c MARKER_DOWNLOADED = true →
  I w →
  is_Some (Fs.find (fs w) (Path.norm (artifact_of (Path.join dir c)))) →
  I (exec (safeDelete (artifact_of (Path.join dir c))) w).
Proof.
  intros [HR Hnf] Hc Hw [m Hm].
  destruct (artifact_of_join dir c Hc) as (b & -> & Ha). rewrite Ha in *.
  destruct (safeDelete_run (Path.norm dir ++ [b]) w) as (w' & H & Hf & _).
  unfold exec. rewrite H. simpl. rewrite Hf.
  destruct (decide (b = "")) as [->|Hb].
  - rewrite PathFacts.norm_snoc_empty, PathFacts.norm_idemp in Hm.
    destruct Hw as (Ht & Hfr & Hkind).
    destruct (Hkind _ _ Hm) as (m0 & Hm0 & Hk0).
    destruct m as [s st|st].
    { destruct m0; [by destruct (Hnf _ _ Hm0)|done]. }
    unfold safeDelete_disk, rm_plain.
    rewrite PathFacts.norm_snoc_empty, PathFacts.norm_idemp, Hm.
    by split_and!.
  - apply within_safeDelete_disk; [|done].
    unfold Path.dirname.
    by rewrite PathFacts.norm_snoc, PathFacts.norm_idemp,
      PathFacts.removelast_snoc.
Qed.

Lemma within_arm dir c d w s st :
  R `prefix_of` Path.norm dir →
  Str.endsWith c MARKER_DOWNLOADED = true →
  I w →
  Fs.find (fs w) (Path.norm (Path.join dir c)) = Some (File s st) →
  I (exec (scheduleDeletion (artifact_of (Path.join dir c)) d) w).
Proof.
  intros HR Hc (Ht & Hfr & Hkind) Hfull.
  pose proof (endsWith_nonempty _ _ marker_downloaded_nonempty Hc) as Hne.
  destruct (join_named dir c Hne) as (Hj & Hn & _).
  destruct (scheduleDeletion_run (artifact_of (Path.join dir c)) d w)
    as (w' & H & _ & _ & _ & _ & Hf).
  cbv zeta in Hf. rewrite marker_of_artifact in Hf by done.
  rewrite Hn, <- Hj in Hfull.
  rewrite (write_file_ok _ _ _ _ _ Hfull) in Hf.
  unfold exec. rewrite H. simpl. rewrite Hf. split_and!.
  - by apply tidy_replace.
  - intros k Hk. rewrite FsFacts.find_replace, decide_False; [by apply Hfr|].
    intros <-. apply Hk. rewrite Hj. by apply prefix_app_r.
  - intros k m. rewrite FsFacts.find_replace. case_decide; [|by apply Hkind].
    subst k. rewrite Hfull. simpl. intros [= <-].
    destruct (Hkind _ _ Hfull) as (m0 & ? & ?). by exists m0.
Qed.

Lemma within_log : ignores_log I.
Proof. by intros l w. Qed.

Lemma within_purgeOlderThan root ttl :
  D (Path.norm root) → preserves I (purgeOlderThan root ttl).
Proof.
  apply (purgeOlderThan_preserves I D E).
  - apply within_log.
  - apply within_entries.
  - intros dir e [HR _] He _. by apply within_rmSync.
  - intros dir e [HR _] He _ _. by apply within_safeDelete.
Qed.

Lemma within_hydrateFromDisk root delay ttl :
  D (Path.norm root) → preserves I (hydrateFromDisk root delay ttl).
Proof.
  apply (hydrateFromDisk_preserves I D E).
  - apply within_log.
  - apply within_entries.
  - intros dir e [HR _] He _. by apply within_rmSync.
  - intros dir e [HR _] He _ _. by apply within_safeDelete.
  - intros dir e [HR _] He _. by apply within_rmSync.
  - intros dir e w Hd _ He Hw Ha. by apply within_delete_artifact.
  - intros dir e d w s st [HR _] _ He Hw Hf _. by eapply within_arm.
Qed.

End within.

Lemma within_start R t : tidy t → within R t t.
Proof.
  intros Ht. split; [done|]. split; [done|]. intros k m Hm. by exists m.
Qed.

Lemma purgeOlderThan_not_dir root ttl w :
  (∀ st, Fs.find (fs w) (Path.norm root) ≠ Some (Dir st)) →
  fs (exec (purgeOlderThan root ttl) w) = fs w.
Proof.
  intros Hnd.
  unfold exec, purgeOlderThan, mbind, M_bind, fs.existsSync, Date_now, fuelled.
  destruct (Fs.find (fs w) (Path.norm root)) as [[c st|st]|] eqn:E; simpl.
  - unfold mbind, M_bind. by rewrite readdir_run, E.
  - by destruct (Hnd st).
  - done.
Qed.

Lemma hydrateFromDisk_not_dir root delay ttl w :
  (∀ st, Fs.find (fs w) (Path.norm root) ≠ Some (Dir st)) →
  fs (exec (hydrateFromDisk root delay ttl) w) = fs w.
Proof.
  intros Hnd.
  unfold exec, hydrateFromDisk, mbind, M_bind, fs.existsSync, fuelled,
    logger.info, logger.emit. simpl.
  destruct (Fs.find (fs w) (Path.norm root)) as [[c st|st]|] eqn:E; simpl.
  - unfold mbind, M_bind. rewrite readdir_run. simpl. by rewrite E.
  - by destruct (Hnd st).
  - done.
Qed.

(** X10. A TTL sweep stays below its root: on a well-formed disk, no path
    outside [outputsRoot] is removed or changed by [purgeOlderThan]. *)
Theorem purgeOlderThan_stays_below_root
    (outputsRoot : path) (ttlMs : Z) (w : world) :
  wf (fs w) →
  ∀ k, ¬ Path.norm outputsRoot `prefix_of` k →
       Fs.find (fs (exec (purgeOlderThan outputsRoot ttlMs) w)) k
       = Fs.find (fs w) k.
Proof.
  intros Hwf k Hk.
  destruct (Fs.find (fs w) (Path.norm outputsRoot)) as [[c st|st]|] eqn:E.
  - rewrite purgeOlderThan_not_dir; [done|]. congruence.
  - apply (within_purgeOlderThan (Path.norm outputsRoot) (fs w)
             outputsRoot ttlMs); [| |done].
    + split; [done|]. congruence.
    + by apply within_start, wf_tidy.
  - rewrite purgeOlderThan_not_dir; [done|]. congruence.
Qed.

Lemma purgeOlderThan_stays_below_root_witness :
  let w := boot (disk_sweep ++ [(["uploads"], Dir st0)]) (1000 + ONE_DAY) in
  wf (fs w)
  ∧ Fs.find (fs (exec (purgeOlderThan ["outputs"] ONE_DAY) w)) ["uploads"]
    = Some (Dir st0).
Proof.
  intros w.
  assert (wf (fs w)) as Hwf by (apply wf_check_sound; vm_compute; reflexivity).
  split; [exact Hwf|].
  rewrite (purgeOlderThan_stays_below_root ["outputs"] ONE_DAY w Hwf).
  - reflexivity.
  - intros [l Hl]. discriminate.
Defined.

(** X11. Hydration stays below its root: on a well-formed disk, no path
    outside [outputsRoot] is removed, written or changed by
    [hydrateFromDisk], whatever the markers below the root say. *)
Theorem hydrateFromDisk_stays_below_root
    (outputsRoot : path) (downloadDelayMs ttlMs : Z) (w : world) :
  wf (fs w) →
  ∀ k, ¬ Path.norm outputsRoot `prefix_of` k →
       Fs.find (fs (exec (hydrateFromDisk outputsRoot downloadDelayMs ttlMs)
                      w)) k
       = Fs.find (fs w) k.
Proof.
  intros Hwf k Hk.
  destruct (Fs.find (fs w) (Path.norm outputsRoot)) as [[c st|st]|] eqn:E.
  - rewrite hydrateFromDisk_not_dir; [done|]. congruence.
  - apply (within_hydrateFromDisk (Path.norm outputsRoot) (fs w)
             outputsRoot downloadDelayMs ttlMs); [| |done].
    + split; [done|]. congruence.
    + by apply within_start, wf_tidy.
  - rewrite hydrateFromDisk_not_dir; [done|]. congruence.
Qed.

Lemma hydrateFromDisk_stays_below_root_witness :
  let w := boot (disk_two ++ [(["uploads"], Dir st0)]) 1000000 in
  wf (fs w)
  ∧ Fs.find (fs (exec (hydrateFromDisk ["outputs"] TEN_MIN ONE_DAY) w))
      ["uploads"]
    = Some (Dir st0).
Proof.
  intros w.
  assert (wf (fs w)) as Hwf by (apply wf_check_sound; vm_compute; reflexivity).
  split; [exact Hwf|].
  rewrite (hydrateFromDisk_stays_below_root ["outputs"] TEN_MIN ONE_DAY w Hwf).
  - reflexivity.
  - intros [l Hl]. discriminate.
Defined.

(** ** The workspace provisioner, continued *)

Lemma mkdir_p_dir st rest : ∀ pre t t',
  Fs.mkdir_p st pre rest t = inr t' →
  ∃ st', Fs.find t' (pre ++ rest) = Some (Dir st').
Proof.
  induction rest as [|c rest IH]; intros pre t t'; simpl.
  - rewrite app_nil_r.
    destruct (Fs.find t pre) as [[]|] eqn:E; intros [= <-]; [by eexists|].
    exists st. rewrite FsFacts.find_app, E. simpl. by rewrite decide_True.
  - destruct (Fs.find t pre) as [[]|]; [done|..]; intros H;
      apply IH in H; by rewrite <- app_assoc in H.
Qed.

Lemma mkdir_p_new st rest : ∀ pre t t',
  Fs.mkdir_p st pre rest t = inr t' →
  ∀ k n, Fs.find t' k = Some n → Fs.find t k = Some n ∨ n = Dir st.
Proof.
  assert (∀ (t : tree) pre k n,
            Fs.find (t ++ [(pre, Dir st)]) k = Some n →
            Fs.find t k = Some n ∨ n = Dir st) as Hsnoc.
  { intros t pre k n. rewrite FsFacts.find_app.
    destruct (Fs.find t k); [auto|]. simpl. case_decide; [|done].
    intros [= <-]. by right. }
  induction rest as [|c rest IH]; intros pre t t'; simpl.
  - destruct (Fs.find t pre) as [[]|] eqn:E; intros [= <-] k n; eauto.
  - destruct (Fs.find t pre) as [[]|]; [done|..]; intros H k n Hk.
    + eapply IH; eauto.
    + destruct (IH _ _ _ H k n Hk) as [?| ->]; eauto.
Qed.

Lemma ensure_dir_run dir w o w' :
  (b ← fs.existsSync dir; if negb b then fs.mkdirSync dir else mret ()) w
  = (o, w') →
  (o = Ret () → is_Some (Fs.find (fs w') (Path.norm dir)))
  ∧ (∀ k n, Fs.find (fs w) k = Some n → Fs.find (fs w') k = Some n)
  ∧ (∀ k n, Fs.find (fs w') k = Some n →
            Fs.find (fs w) k = Some n ∨ ∃ st, n = Dir st).
Proof.
  unfold mbind, M_bind, fs.existsSync, fs.mkdirSync.
  destruct (Fs.find (fs w) (Path.norm dir)) as [n|] eqn:E; simpl.
  - intros [= <- <-]. rewrite E. split_and!; eauto.
  - destruct (Fs.mkdir_p _ _ _ _) as [e|t] eqn:Em; intros [= <- <-];
      [split_and!; eauto; done|].
    pose proof (mkdir_p_dir _ _ _ _ _ Em) as [st Hst]. simpl in *.
    split_and!.
    + intros _. by rewrite Hst.
    + eauto using mkdir_p_preserves.
    + intros k n Hk. destruct (mkdir_p_new _ _ _ _ _ Em k n Hk); eauto.
Qed.

Lemma bind_Ret {A B} (m : M A) (f : A → M B) w b w' :
  (m ≫= f) w = (Ret b, w') →
  ∃ a w1, m w = (Ret a, w1) ∧ f a w1 = (Ret b, w').
Proof.
  unfold mbind, M_bind. destruct (m w) as [[a| |] w1]; [|done..]. eauto.
Qed.

(** X12. When the workspace middleware returns, both directories of the
    request exist, [uploads/<requestId>] and [outputs/<requestId>]; one
    that did not exist before is now a directory, created with all its
    missing parents, and nothing that was on disk has been lost. *)
Theorem withTempWorkspace_provisions
    (bu bo : path) (id : string) (l : Locals) (w w1 : world) :
  withTempWorkspace bu bo id w = (Ret l, w1) →
  (∀ dir, dir ∈ [uploadDir l; outputDir l] →
     is_Some (Fs.find (fs w1) dir)
     ∧ (Fs.find (fs w) dir = None →
        ∃ st, Fs.find (fs w1) dir = Some (Dir st)))
  ∧ (∀ k n, Fs.find (fs w) k = Some n → Fs.find (fs w1) k = Some n)
  ∧ (∀ k n, Fs.find (fs w1) k = Some n →
            Fs.find (fs w) k = Some n ∨ ∃ st, n = Dir st).
Proof.
  intros Hrun.
  destruct (withTempWorkspace_run _ _ _ _ _ _ Hrun) as (Hgrow & _ & _ & Hl).
  specialize (Hl l eq_refl). subst l. simpl.
  cut ((∀ dir, dir ∈ [Path.join bu id; Path.join bo id] →
          is_Some (Fs.find (fs w1) dir)
          ∧ (Fs.find (fs w) dir = None →
             ∃ st, Fs.find (fs w1) dir = Some (Dir st)))
       ∧ (∀ k n, Fs.find (fs w1) k = Some n →
                 Fs.find (fs w) k = Some n ∨ ∃ st, n = Dir st)).
  { intros [??]. by split_and!. }
  unfold withTempWorkspace in Hrun. cbn [for_of] in Hrun.
  apply bind_Ret in Hrun as ([] & wb' & Hloop & Hrest).
  apply bind_Ret in Hloop as ([] & wa & Ea & Hloop).
  apply bind_Ret in Hloop as ([] & wb & Eb & [= <-]).
  apply bind_Ret in Hrest as ([] & wc & [= <-] & [= <-]). simpl.
  destruct (ensure_dir_run _ _ _ _ Ea) as (Ha1 & Ha2 & Ha3).
  destruct (ensure_dir_run _ _ _ _ Eb) as (Hb1 & Hb2 & Hb3).
  assert (∀ d, Path.norm (Path.join d id) = Path.join d id) as Hn
    by (intros d; apply PathFacts.norm_idemp).
  rewrite !Hn in *.
  assert (∀ dir, is_Some (Fs.find (fs wb) dir) →
                 is_Some (Fs.find (fs wb) dir)
                 ∧ (Fs.find (fs w) dir = None →
                    ∃ st, Fs.find (fs wb) dir = Some (Dir st))) as Hnew.
  { intros dir [n Hdir]. split; [by eexists|]. intros Hnone.
    destruct (Hb3 _ _ Hdir) as [Hwa|[st ->]]; [|by eexists].
    destruct (Ha3 _ _ Hwa) as [Hw|[st ->]]; [congruence|by eexists]. }
  split.
  - intros dir [->|[->|[]%elem_of_nil]%elem_of_cons]%elem_of_cons;
      apply Hnew.
    + destruct (Ha1 eq_refl) as [n Hn1]. by rewrite (Hb2 _ _ Hn1).
    + by apply Hb1.
  - intros k n Hk. destruct (Hb3 _ _ Hk) as [Hwa|?]; [|by right].
    by apply Ha3.
Qed.

Lemma withTempWorkspace_provisions_witness :
  let w := boot disk_two 5000 in
  let l := {| requestId := "id1"; uploadDir := ["uploads"; "id1"];
              outputDir := ["outputs"; "id1"] |} in
  let w1 := exec (withTempWorkspace ["uploads"] ["outputs"] "id1") w in
  withTempWorkspace ["uploads"] ["outputs"] "id1" w = (Ret l, w1)
  ∧ (∃ st, Fs.find (fs w1) ["uploads"; "id1"] = Some (Dir st))
  ∧ (∃ st, Fs.find (fs w1) ["outputs"; "id1"] = Some (Dir st)).
Proof.
  intros w l w1.
  assert (withTempWorkspace ["uploads"] ["outputs"] "id1" w = (Ret l, w1))
    as Hrun by (vm_compute; reflexivity).
  split; [exact Hrun|].
  destruct (withTempWorkspace_provisions ["uploads"] ["outputs"] "id1" l w w1
              Hrun) as (Hdirs & _ & _).
  split; apply Hdirs; try reflexivity; simpl.
  - apply list_elem_of_here.
  - apply list_elem_of_further, list_elem_of_here.
Defined.

(** X13. When the response has finished, nothing of the request's uploads
    is left: the listener returns normally, and if [uploads/<requestId>]
    was a directory, every path at or below it is gone, while the
    scheduler is untouched. *)
Theorem on_finish_clears_uploads (l : Locals) (w : world) st :
  Fs.find (fs w) (Path.norm (uploadDir l)) = Some (Dir st) →
  ∃ w', on_finish l w = (Ret (), w')
        ∧ (∀ k, Path.norm (uploadDir l) `prefix_of` k →
                Fs.find (fs w') k = None)
        ∧ timers w' = timers w
        ∧ pending w' = pending w.
Proof.
  intros Hd. unfold on_finish, cleanupDir. run.
  eexists. split_and!; try done; simpl.
  intros k Hk. rewrite FsFacts.find_remove_rec. by rewrite decide_True.
Qed.

Lemma on_finish_clears_uploads_witness :
  let l := {| requestId := "R1"; uploadDir := ["uploads"; "R1"];
              outputDir := ["outputs"; "R1"] |} in
  let w := boot disk_request 5000 in
  Fs.find (fs w) (Path.norm (uploadDir l)) = Some (Dir st0)
  ∧ ∃ w', on_finish l w = (Ret (), w')
          ∧ Fs.find (fs w') ["uploads"; "R1"; "in.pdf"] = None.
Proof.
  intros l w. split; [reflexivity|].
  destruct (on_finish_clears_uploads l w st0) as (w' & H & Hgone & _);
    [reflexivity|].
  exists w'. split; [exact H|]. apply Hgone. by exists ["in.pdf"].
Defined.


(** ** Writing an artifact *)

Lemma write_new t q n dst :
  q ≠ [] → Fs.find t (removelast q) = Some (Dir dst) →
  (∀ st, Fs.find t q ≠ Some (Dir st)) →
  ∃ t', Fs.write t q n = inr t'
        ∧ ∀ k, Fs.find t' k = if decide (q = k) then Some n else Fs.find t k.
Proof.
  intros Hq Hpar Hnd. destruct (write_ok t q n dst) as [t' Hw]; try done.
  exists t'. split; [done|]. intros k. by apply find_write.
Qed.

Lemma plain_name_nonempty c : plain_name c = true → c ≠ "".
Proof. intros H ->. done. Qed.

(** X14. [writeOut] into an existing directory, under a plain file name
    (not empty, [.] or [..], and without a separator), stores the data
    under [dir/name], stamps it with a [.created] marker holding the
    current time, returns the path, and touches nothing else, neither on
    disk nor in the scheduler. *)
Theorem writeOut_stores_and_stamps
    (dir : path) (name data : string) (w : world) dst :
  plain_dir dir = true →
  plain_name name = true →
  Fs.find (fs w) (Path.norm dir) = Some (Dir dst) →
  (∀ st, Fs.find (fs w) (Path.norm dir ++ [name]) ≠ Some (Dir st)) →
  (∀ st, Fs.find (fs w) (Path.norm dir ++ [name +:+ MARKER_CREATED])
         ≠ Some (Dir st)) →
  let out := Path.norm dir ++ [name] in
  let marker := Path.norm dir ++ [name +:+ MARKER_CREATED] in
  ∃ w', writeOut dir name data w = (Ret out, w')
        ∧ Fs.find (fs w') out
          = Some (File data {| mtimeMs := clock w; ctimeMs := clock w |})
        ∧ Fs.find (fs w') marker = Some (stamp (clock w))
        ∧ (∀ k, k ≠ out → k ≠ marker → Fs.find (fs w') k = Fs.find (fs w) k)
        ∧ timers w' = timers w
        ∧ pending w' = pending w.
Proof.
  intros _ Hname%plain_name_nonempty Hdir Hout Hmark out marker.
  destruct (join_named dir name Hname) as (Hj & Hn & _).
  assert (Path.norm (Path.norm dir) = Path.norm dir) as Hnn
    by apply PathFacts.norm_idemp.
  assert (marker ≠ out) as Hne.
  { intros E%snoc_inj. by apply StrFacts.app_ne_self in E. }
  destruct (write_new (fs w) out
              (File data {| mtimeMs := clock w; ctimeMs := clock w |}) dst)
    as (t1 & Hw1 & Hf1).
  { unfold out. by destruct (Path.norm dir). }
  { unfold out. by rewrite PathFacts.removelast_snoc. }
  { done. }
  destruct (write_new t1 marker (stamp (clock w)) dst) as (t2 & Hw2 & Hf2).
  { unfold marker. by destruct (Path.norm dir). }
  { unfold marker. rewrite PathFacts.removelast_snoc, Hf1.
    rewrite decide_False; [done|]. apply snoc_ne_self. }
  { intros st. rewrite Hf1, decide_False by done. apply Hmark. }
  rewrite Hj in Hn.
  unfold writeOut. rewrite Hj. fold out.
  unfold mbind at 1, M_bind at 1, fs.writeFileSync.
  fold out in Hn. rewrite Hn, Hw1.
  set (w1 := with_fs t1 w).
  destruct (markCreated_run out w1) as (w2 & H2 & Ht & Hp & _ & _ & Hfs).
  assert (Path.norm (Path.append out MARKER_CREATED) = marker) as Hm.
  { unfold out. by rewrite norm_append_child. }
  rewrite Hm in Hfs. simpl in Hfs. rewrite Hw2 in Hfs.
  unfold mbind, M_bind. rewrite H2. exists w2. split; [done|].
  rewrite Hfs. split_and!; try done.
  - rewrite Hf2, decide_False, Hf1, decide_True; done.
  - rewrite Hf2, decide_True; done.
  - intros k Hk1 Hk2. rewrite Hf2, decide_False, Hf1, decide_False; done.
Qed.

Lemma writeOut_stores_and_stamps_witness :
  let w := boot disk_two 5000 in
  let out := ["outputs"; "R1"; "c.pdf"] in
  (Fs.find (fs w) (Path.norm ["outputs"; "R1"]) = Some (Dir st0))
  ∧ ∃ w', writeOut ["outputs"; "R1"] "c.pdf" "%PDF-c" w = (Ret out, w')
          ∧ Fs.find (fs w') out
            = Some (File "%PDF-c" {| mtimeMs := 5000; ctimeMs := 5000 |})
          ∧ Fs.find (fs w') ["outputs"; "R1"; "c.pdf.created"]
            = Some (stamp 5000).
Proof.
  intros w out. split; [reflexivity|].
  destruct (writeOut_stores_and_stamps ["outputs"; "R1"] "c.pdf" "%PDF-c" w st0)
    as (w' & H & Hf & Hm & _).
  - reflexivity.
  - reflexivity.
  - reflexivity.
  - intros st. vm_compute. discriminate.
  - intros st. vm_compute. discriminate.
  - exists w'. by split_and!.
Defined.

Lemma write_ENOENT t q n :
  q ≠ [] → Fs.find t q = None → Fs.find t (removelast q) = None →
  Fs.write t q n = inl ENOENT.
Proof.
  intros Hq Hf Hp. unfold Fs.write. rewrite Hf. destruct q; [done|].
  by rewrite Hp.
Qed.

(** X15. When the output directory is missing, [writeOut] under a plain
    file name throws [ENOENT] to its caller and leaves no trace: no file,
    and no [.created] marker either, since the marker is only written
    after the file. *)
Theorem writeOut_missing_directory
    (dir : path) (name data : string) (w : world) :
  plain_dir dir = true →
  plain_name name = true →
  Fs.find (fs w) (Path.norm dir) = None →
  Fs.find (fs w) (Path.norm dir ++ [name]) = None →
  writeOut dir name data w = (Throw ENOENT, w).
Proof.
  intros _ Hname%plain_name_nonempty Hdir Hout.
  destruct (join_named dir name Hname) as (Hj & Hn & _).
  unfold writeOut, mbind, M_bind, fs.writeFileSync.
  rewrite Hn, write_ENOENT; [done| |done|].
  - by destruct (Path.norm dir).
  - by rewrite PathFacts.removelast_snoc.
Qed.

Lemma writeOut_missing_directory_witness :
  let w := boot disk_two 5000 in
  writeOut ["outputs"; "R9"] "c.pdf" "%PDF-c" w = (Throw ENOENT, w).
Proof.
  intros w. apply (writeOut_missing_directory ["outputs"; "R9"] "c.pdf").
  - reflexivity.
  - reflexivity.
  - reflexivity.
  - reflexivity.
Defined.

(** ** The listing of a request's outputs *)

Lemma output_info_run folder f w :
  ∃ o, output_info folder f w = (o, w)
       ∧ ∀ i, o = Ret i → fi_name i = f.
Proof.
  unfold output_info, statSync_size, mbind, M_bind, fs.existsSync,
    fs.readFileSync, Date_now, mret, M_ret.
  repeat (match goal with
          | |- context [match Fs.find ?t ?k with _ => _ end] =>
              destruct (Fs.find t k) as [[]|]
          | |- context [match Js.parseInt ?s with _ => _ end] =>
              destruct (Js.parseInt s)
          | |- context [decide (?m = 0)] => destruct (decide (m = 0))
          end; simpl);
    eexists; (split; [done|]); by intros i [= <-].
Qed.

Lemma bind_run {A B} (m : M A) (f : A → M B) w o w1 :
  m w = (o, w1) →
  (m ≫= f) w = match o with
               | Ret a => f a w1
               | Throw e => (Throw e, w1)
               | Diverge => (Diverge, w1)
               end.
Proof. unfold mbind, M_bind. by intros ->. Qed.

Lemma mapM_output_info folder names : ∀ w,
  ∃ o, mapM (output_info folder) names w = (o, w)
       ∧ ∀ infos, o = Ret infos → fi_name <$> infos = names.
Proof.
  induction names as [|f names IH]; intros w.
  - eexists. split; [done|]. by intros infos [= <-].
  - change (mapM (output_info folder) (f :: names))
      with (y ← output_info folder f;
            k ← mapM (output_info folder) names; mret (y :: k)).
    destruct (output_info_run folder f w) as (o1 & H1 & Hn1).
    rewrite (bind_run _ _ _ _ _ H1).
    destruct o1 as [i| |]; [|eexists; split; [done|]; done..].
    destruct (IH w) as (o2 & H2 & Hn2).
    rewrite (bind_run _ _ _ _ _ H2).
    destruct o2 as [l0| |]; [|eexists; split; [done|]; done..].
    eexists. split; [done|]. intros infos [= <-].
    rewrite fmap_cons. by rewrite (Hn1 i eq_refl), (Hn2 l0 eq_refl).
Qed.

(** X16. The listing of a request's outputs only reads, and hides the
    [.downloaded] markers only: when it answers for an existing folder, it
    names every entry of the folder that does not end in [.downloaded], in
    directory order, so every [.created] marker is listed as if it were an
    output, and the world is as it was. *)
Theorem list_outputs_hides_downloaded_only
    (folder : path) (w w' : world) (infos : list FileInfo) st :
  Fs.find (fs w) (Path.norm folder) = Some (Dir st) →
  list_outputs folder w = (Ret infos, w') →
  w' = w
  ∧ fi_name <$> infos
    = filter (λ f, Str.endsWith f MARKER_DOWNLOADED = false)
        ((Fs.children (fs w) (Path.norm folder)).*1).
Proof.
  intros Hd. unfold list_outputs.
  assert (fs.existsSync folder w = (Ret true, w)) as He
    by (unfold fs.existsSync; by rewrite Hd).
  assert (fs.readdirSync folder w
          = (Ret (Fs.children (fs w) (Path.norm folder)).*1, w)) as Hr.
  { pose proof (readdir_run folder w) as Hrd. rewrite Hd in Hrd.
    unfold fs.readdirSync. rewrite (bind_run _ _ _ _ _ Hrd).
    by rewrite <- list_fmap_compose. }
  rewrite (bind_run _ _ _ _ _ He). simpl.
  rewrite (bind_run _ _ _ _ _ Hr).
  destruct (mapM_output_info folder
              (filter (λ f, Str.endsWith f ".downloaded" = false)
                 (Fs.children (fs w) (Path.norm folder)).*1) w)
    as (o & H & Hn).
  rewrite H. intros [= -> <-]. split; [done|]. by apply Hn.
Qed.

Lemma list_outputs_hides_downloaded_only_witness :
  let w := boot disk_two 5000 in
  Fs.find (fs w) (Path.norm ["outputs"; "R1"]) = Some (Dir st0)
  ∧ ∃ infos, list_outputs ["outputs"; "R1"] w = (Ret infos, w)
             ∧ fi_name <$> infos = ["a.pdf"; "a.pdf.created"; "b.pdf"].
Proof.
  intros w. split; [reflexivity|].
  destruct (list_outputs ["outputs"; "R1"] w) as [o w'] eqn:E.
  assert (∃ infos, o = Ret infos) as [infos ->].
  { revert E. vm_compute. intros [= <- _]. by eexists. }
  destruct (list_outputs_hides_downloaded_only ["outputs"; "R1"] w w' infos
              st0 eq_refl E) as [-> Hn].
  exists infos. split; [reflexivity|]. rewrite Hn. reflexivity.
Defined.

(** X17. After a completed download the listing counts down to the
    deletion. When the download callback has armed the ten-minute timer
    for a file at a time [t0] other than 0, the listing entry of that file
    at any later time [t1] reports [expiresIn = max(0, t0 + 600000 - t1)],
    the delay of the armed timer less the time gone by, together with the
    file's name and size. *)
Theorem listing_counts_down_to_deletion
    (folder : path) (f : string) (w w2 : world) c st dst :
  f ≠ "" →
  Fs.find (fs w) (Path.norm folder) = Some (Dir dst) →
  Fs.find (fs w) (Path.norm folder ++ [f]) = Some (File c st) →
  (∀ st', Fs.find (fs w) (Path.norm folder ++ [f +:+ MARKER_DOWNLOADED])
          ≠ Some (Dir st')) →
  clock w ≠ 0 →
  let p := Path.norm folder ++ [f] in
  fs w2 = fs (exec (download_done p false) w) →
  armed p (Num TEN_MIN) w ∈ pending (exec (download_done p false) w)
  ∧ output_info folder f w2
    = (Ret {| fi_name := f;
              fi_size := Z.of_nat (String.length c);
              fi_expiresIn := Some (Z.max 0 (clock w + TEN_MIN - clock w2)) |},
       w2).
Proof.
  intros Hf Hd Hp Hm Hclock p Hw2.
  destruct (join_named folder f Hf) as (Hj & Hn & Hdn & _).
  assert (Path.norm (Path.norm folder) = Path.norm folder) as Hnn
    by apply PathFacts.norm_idemp.
  assert (Path.norm p = p) as Hnp by (unfold p; by rewrite <- Hj at 1).
  assert (Path.append p MARKER_DOWNLOADED
          = Path.norm folder ++ [f +:+ MARKER_DOWNLOADED]) as Ha
    by (unfold p; by apply append_child).
  destruct (write_marker (fs w) p MARKER_DOWNLOADED (stamp (clock w)) c st dst)
    as (Hmn & Hne & t' & Hw & Hfind); try done.
  { unfold p. by destruct (Path.norm folder). }
  { unfold p. by rewrite <- Hj, Hdn. }
  { by rewrite Ha. }
  destruct (scheduleDeletion_run p (Num TEN_MIN) w)
    as (w1 & H1 & Hp1 & _ & _ & _ & Hfs).
  cbv zeta in Hfs, Hp1. fold (stamp (clock w)) in Hfs.
  rewrite Hmn, Hw in Hfs.
  assert (exec (download_done p false) w
          = with_log (log w1 ++ [{| lvl := info; msg := "Scheduled deletion of";
                                   subject := p |}]) w1) as Hexec.
  { unfold exec, download_done. rewrite (bind_run _ _ _ _ _ H1). done. }
  rewrite Hexec in *. simpl in Hw2. rewrite Hfs in Hw2. split.
  { simpl. rewrite Hp1. apply elem_of_app. right. apply list_elem_of_here. }
  unfold output_info. rewrite Hj. fold p.
  change ".downloaded" with MARKER_DOWNLOADED.
  assert (statSync_size p w2 = (Ret (Z.of_nat (String.length c)), w2)) as Hs.
  { unfold statSync_size. rewrite Hnp, Hw2, Hfind, decide_False by done.
    fold p in Hp. by rewrite Hp. }
  assert (fs.existsSync (Path.append p MARKER_DOWNLOADED) w2 = (Ret true, w2))
    as He.
  { unfold fs.existsSync. by rewrite Hmn, Hw2, Hfind, decide_True. }
  assert (fs.readFileSync (Path.append p MARKER_DOWNLOADED) w2
          = (Ret (Js.toString (clock w)), w2)) as Hr.
  { unfold fs.readFileSync. by rewrite Hmn, Hw2, Hfind, decide_True. }
  rewrite (bind_run _ _ _ _ _ Hs), (bind_run _ _ _ _ _ He).
  rewrite (bind_run _ _ _ _ _ (bind_run _ _ _ _ _ Hr)).
  unfold mret at 1, M_ret at 1. rewrite NumFacts.parseInt_toString.
  unfold mbind, M_bind, Date_now, mret, M_ret.
  rewrite decide_False by done. reflexivity.
Qed.

Lemma listing_counts_down_to_deletion_witness :
  let w := boot disk_two 5000 in
  let p := ["outputs"; "R1"; "b.pdf"] in
  let w2 := boot (fs (exec (download_done p false) w)) 65000 in
  Fs.find (fs w) (Path.norm ["outputs"; "R1"]) = Some (Dir st0)
  ∧ armed p (Num TEN_MIN) w ∈ pending (exec (download_done p false) w)
  ∧ output_info ["outputs"; "R1"] "b.pdf" w2
    = (Ret {| fi_name := "b.pdf"; fi_size := 6; fi_expiresIn := Some 540000 |},
       w2).
Proof.
  intros w p w2. split; [reflexivity|].
  apply (listing_counts_down_to_deletion ["outputs"; "R1"] "b.pdf" w w2
           "%PDF-b" st0 st0).
  - discriminate.
  - reflexivity.
  - reflexivity.
  - intros st'. vm_compute. discriminate.
  - discriminate.
  - reflexivity.
Defined.

(** ** sanitizeFilename *)

Module CleanFacts.

Local Abbreviation safe := (λ c, negb (unsafe_char c)).
Local Abbreviation subst := (λ c, if unsafe_char c then SPACE else c).

Lemma rstrip_empty s : rstrip s = [] ↔ forallb white_space s = true.
Proof.
  induction s as [|c s IH]; simpl; [done|].
  destruct (rstrip s) eqn:E.
  - destruct (white_space c); simpl; [|done].
    split; [intros _; by apply IH|done].
  - split; [done|]. intros [_ H]%andb_true_iff. by apply IH in H.
Qed.

Lemma safe_map s : forallb safe (subst <$> s) = true.
Proof.
  induction s as [|c s IH]; [done|]. rewrite fmap_cons. simpl.
  rewrite IH, andb_true_r.
  by destruct (unsafe_char c) eqn:E; [|rewrite E].
Qed.

Lemma safe_collapse b s :
  forallb safe s = true → forallb safe (collapse_ws b s) = true.
Proof.
  revert b. induction s as [|c s IH]; intros b; simpl; [done|].
  intros [Hc Hs]%andb_true_iff.
  destruct (white_space c), b; simpl; rewrite ?Hc, ?IH; done.
Qed.

Lemma safe_lstrip s :
  forallb safe s = true → forallb safe (lstrip s) = true.
Proof.
  induction s as [|c s IH]; simpl; [done|].
  intros [Hc Hs]%andb_true_iff.
  destruct (white_space c); simpl; [by apply IH|by rewrite Hc, Hs].
Qed.

Lemma safe_rstrip s :
  forallb safe s = true → forallb safe (rstrip s) = true.
Proof.
  induction s as [|c s IH]; simpl; [done|].
  intros [Hc Hs]%andb_true_iff. specialize (IH Hs).
  destruct (rstrip s); [destruct (white_space c)|]; simpl in *;
    rewrite ?Hc, ?IH; done.
Qed.

Lemma inner_collapse b s : inner_spaced b (collapse_ws b s) = true.
Proof.
  revert b. induction s as [|c s IH]; intros b; simpl; [done|].
  destruct (white_space c) eqn:Hc.
  - destruct b; [apply IH|]. simpl. apply IH.
  - simpl. rewrite Hc. apply IH.
Qed.

Lemma inner_lstrip b s :
  inner_spaced b s = true → inner_spaced true (lstrip s) = true.
Proof.
  destruct s as [|c s]; simpl; [done|].
  destruct (white_space c) eqn:Hc.
  - intros [[_ _]%andb_true_iff Hs]%andb_true_iff.
    destruct s as [|c' s]; [done|]. simpl in Hs |- *.
    destruct (white_space c') eqn:Hc'.
    + by rewrite andb_false_r in Hs.
    + simpl. by rewrite Hc'.
  - simpl. by rewrite Hc.
Qed.

Lemma single_spaced_cons a c s :
  single_spaced a (c :: s)
  = if white_space c
    then bool_decide (c = SPACE) && negb a && single_spaced true s
    else single_spaced false s.
Proof. done. Qed.

Lemma single_rstrip a s :
  inner_spaced a s = true → rstrip s ≠ [] →
  single_spaced a (rstrip s) = true.
Proof.
  revert a. induction s as [|c s IH]; intros a; simpl; [done|].
  destruct (white_space c) eqn:Hc.
  - intros [Hca Hs]%andb_true_iff Hne.
    destruct (rstrip s) as [|c' r] eqn:E; [done|].
    rewrite single_spaced_cons, Hc, Hca. by apply IH.
  - intros Hs _. destruct (rstrip s) as [|c' r] eqn:E.
    + rewrite single_spaced_cons. by rewrite Hc.
    + rewrite single_spaced_cons, Hc. by apply IH.
Qed.

(** What the three steps leave is empty or clean. *)
Lemma pipeline_clean s :
  let base := trim (collapse_ws false (subst <$> s)) in
  base = [] ∨ clean_name base = true.
Proof.
  intros base. unfold base, trim.
  set (z := lstrip (collapse_ws false (subst <$> s))).
  destruct (decide (rstrip z = [])) as [|Hne]; [by left|]. right.
  unfold clean_name. apply andb_true_iff. split.
  - apply safe_rstrip, safe_lstrip, safe_collapse, safe_map.
  - apply single_rstrip; [|done]. eapply inner_lstrip, inner_collapse.
Qed.

Lemma single_inner a s : single_spaced a s = true → inner_spaced a s = true.
Proof.
  revert a. induction s as [|c s IH]; intros a; simpl; [done|].
  destruct (white_space c); [|apply IH].
  intros [H Hs]%andb_true_iff. by rewrite H, IH.
Qed.

Lemma inner_weaken s : inner_spaced true s = true → inner_spaced false s = true.
Proof.
  destruct s as [|c s]; simpl; [done|].
  destruct (white_space c); [|done]. by rewrite andb_false_r.
Qed.

Lemma map_safe s : forallb safe s = true → subst <$> s = s.
Proof.
  induction s as [|c s IH]; [done|]. rewrite fmap_cons. simpl.
  intros [Hc Hs]%andb_true_iff. rewrite IH by done.
  by destruct (unsafe_char c).
Qed.

Lemma collapse_inner a s : inner_spaced a s = true → collapse_ws a s = s.
Proof.
  revert a. induction s as [|c s IH]; intros a; simpl; [done|].
  destruct (white_space c).
  - intros [[Hc Ha%negb_true_iff]%andb_true_iff Hs]%andb_true_iff.
    apply bool_decide_eq_true in Hc. subst. by rewrite IH.
  - intros Hs. by rewrite IH.
Qed.

Lemma rstrip_single a s : single_spaced a s = true → rstrip s = s.
Proof.
  revert a. induction s as [|c s IH]; intros a; simpl; [done|].
  destruct (white_space c) eqn:Hc.
  - intros [_ Hs]%andb_true_iff. rewrite (IH _ Hs).
    by destruct s.
  - intros Hs. rewrite (IH _ Hs). by destruct s.
Qed.

Lemma lstrip_single s : single_spaced true s = true → lstrip s = s.
Proof.
  destruct s as [|c s]; simpl; [done|].
  destruct (white_space c); [|done]. by rewrite andb_false_r.
Qed.

Lemma clean_nonempty s : clean_name s = true → s ≠ [].
Proof. intros [_ H]%andb_true_iff ->. done. Qed.

(** A clean name goes through unchanged. *)
Lemma sanitize_clean s fallback :
  clean_name s = true → sanitizeFilename s fallback = s.
Proof.
  intros Hc. pose proof (clean_nonempty s Hc) as Hne.
  apply andb_true_iff in Hc as [Hsafe Hsp].
  unfold sanitizeFilename. rewrite (decide_False (P := s = [])) by done.
  rewrite map_safe by done.
  rewrite collapse_inner by by apply inner_weaken, single_inner.
  unfold trim. rewrite lstrip_single, (rstrip_single true) by done.
  rewrite decide_False; [done|]. by destruct s.
Qed.

Lemma sanitize_cases name fallback :
  sanitizeFilename name fallback = fallback
  ∨ clean_name (sanitizeFilename name fallback) = true.
Proof.
  unfold sanitizeFilename.
  destruct (pipeline_clean (if decide (name = []) then fallback else name))
    as [E|Hc]; cbv zeta in *.
  - rewrite E. by left.
  - destruct (decide (length _ = 0%nat)); [by left|by right].
Qed.

(** What [clean_name] says, character by character. *)
Lemma single_spaced_spec a s :
  single_spaced a s = true →
  (∀ c, c ∈ s → white_space c = true → c = SPACE)
  ∧ (∀ i c d, s !! i = Some c → s !! S i = Some d →
              ¬ (white_space c = true ∧ white_space d = true))
  ∧ (∀ c, head s = Some c → a = true → white_space c = false)
  ∧ (∀ c, last s = Some c → white_space c = false)
  ∧ (a = true → s ≠ []).
Proof.
  revert a. induction s as [|c s IH]; intros a Hs.
  - simpl in Hs. apply negb_true_iff in Hs. subst a. split_and!; try done.
    intros c Hc. by apply elem_of_nil in Hc.
  - rewrite single_spaced_cons in Hs. destruct (white_space c) eqn:Hc.
    + apply andb_true_iff in Hs as [[Hsp Ha%negb_true_iff]%andb_true_iff Hs].
      apply bool_decide_eq_true in Hsp. subst a.
      destruct (IH true Hs) as (H1 & H2 & H3 & H4 & H5). split_and!; try done.
      * intros x [->|Hx]%elem_of_cons Hw; [done|by apply H1].
      * intros [|i] x d Hx Hd; simpl in *.
        -- simplify_eq. intros [_ Hd']. destruct s as [|y s]; [done|].
           simpl in Hd. simplify_eq. by rewrite (H3 d) in Hd'.
        -- by eapply H2.
      * intros x Hx. destruct s as [|y s]; [by destruct H5|].
        rewrite last_cons_cons in Hx. by apply H4.
    + destruct (IH false Hs) as (H1 & H2 & H3 & H4 & H5). split_and!; try done.
      * intros x [->|Hx]%elem_of_cons Hw; [congruence|by apply H1].
      * intros [|i] x d Hx Hd; simpl in *.
        -- simplify_eq. intros [Hx' _]. congruence.
        -- by eapply H2.
      * intros x [= <-] _. done.
      * intros x Hx. destruct s as [|y s]; [by simplify_eq/=|].
        rewrite last_cons_cons in Hx. by apply H4.
Qed.

End CleanFacts.

(** X18. [sanitizeFilename] returns either the caller's fallback as it
    is, or a clean name: one that is not empty, holds none of the
    characters slash, backslash, question mark, percent, star, colon, bar,
    double quote and angle brackets, starts and ends with a character that
    is not white space, and whose only white space is single space
    characters between its words, for every white-space character of
    JavaScript. With a non-empty fallback the result is never empty. *)
Theorem sanitizeFilename_clean (name fallback : jsstring) :
  let r := sanitizeFilename name fallback in
  (r = fallback
   ∨ (r ≠ []
      ∧ (∀ c, c ∈ r → unsafe_char c = false)
      ∧ (∀ c, c ∈ r → white_space c = true → c = SPACE)
      ∧ (∀ i c d, r !! i = Some c → r !! S i = Some d →
                  ¬ (white_space c = true ∧ white_space d = true))
      ∧ (∀ c, head r = Some c → white_space c = false)
      ∧ (∀ c, last r = Some c → white_space c = false)
      ∧ clean_name r = true))
  ∧ (fallback ≠ [] → r ≠ []).
Proof.
  intros r. split.
  - destruct (CleanFacts.sanitize_cases name fallback) as [?|Hc]; [by left|].
    right. fold r in Hc. pose proof Hc as [Hs Hsp]%andb_true_iff.
    destruct (CleanFacts.single_spaced_spec true r Hsp)
      as (H1 & H2 & H3 & H4 & H5).
    split_and!; try done; [by apply H5| |by eauto].
    intros c Hc'. rewrite forallb_forall in Hs.
    apply negb_true_iff, Hs. by apply list_elem_of_In.
  - intros Hf.
    destruct (CleanFacts.sanitize_cases name fallback) as [E|Hc].
    + unfold r. by rewrite E.
    + by apply CleanFacts.clean_nonempty.
Qed.

(** X19. [sanitizeFilename] leaves a clean name as it is, and with a
    fallback that is clean (as the default ['merged']) or empty it is
    idempotent: sanitising its own result changes nothing. *)
Theorem sanitizeFilename_idempotent (name fallback : jsstring) :
  fallback = [] ∨ clean_name fallback = true →
  (clean_name name = true → sanitizeFilename name fallback = name)
  ∧ sanitizeFilename (sanitizeFilename name fallback) fallback
    = sanitizeFilename name fallback.
Proof.
  intros Hf. split; [apply CleanFacts.sanitize_clean|].
  destruct (CleanFacts.sanitize_cases name fallback) as [->|Hc].
  - destruct Hf as [->|Hf]; [done|]. by apply CleanFacts.sanitize_clean.
  - by apply CleanFacts.sanitize_clean.
Qed.

Lemma sanitizeFilename_idempotent_witness :
  let name := units "  my/file:" ++ [160; 8195]%N ++ units "name?.pdf  " in
  let merged := units "merged" in
  clean_name merged = true
  ∧ sanitizeFilename name merged = units "my file name .pdf"
  ∧ sanitizeFilename [160; 65279]%N merged = merged
  ∧ sanitizeFilename (sanitizeFilename name merged) merged
    = sanitizeFilename name merged.
Proof.
  intros name merged. split; [reflexivity|]. split; [reflexivity|].
  split; [reflexivity|].
  apply (sanitizeFilename_idempotent name merged). right. reflexivity.
Defined.

(** ** splitPdfBuffer *)

Section split.
Context (saved_length : list nat → Z) (total : nat) (maxChunkBytes : jsnum).

Local Abbreviation reached :=
  (λ pages, Js.ge (Num (saved_length pages)) maxChunkBytes).
Local Abbreviation upto :=
  (λ n, foldl (split_step saved_length total maxChunkBytes) ([], [])
          (seq 0 n)).

(** The state of the loop before iteration [n]. *)
Lemma split_loop n :
  (n ≤ total)%nat →
  concat (upto n).1 ++ (upto n).2 = seq 0 n
  ∧ Forall (λ c, c ≠ []) (upto n).1
  ∧ (∀ p, p `prefix_of` (upto n).2 → p ≠ [] → reached p = false)
  ∧ (∀ c, c ∈ (upto n).1 →
       ∀ p, p `prefix_of` c → p ≠ [] → p ≠ c → reached p = false)
  ∧ (if decide (n = total)
     then (upto n).2 = [] ∧ Forall (λ c, reached c = true) (removelast (upto n).1)
     else Forall (λ c, reached c = true) (upto n).1).
Proof.
  induction n as [|n IH]; intros Hn.
  - simpl. split_and!; try done.
    + by intros p ->%prefix_nil_inv.
    + by intros c ?%elem_of_nil.
    + by case_decide.
  - destruct IH as (Hcat & Hne & Hcur & Hpre & Hend); [lia|].
    rewrite decide_False in Hend by lia.
    rewrite seq_S, foldl_app. simpl.
    destruct (upto n) as [chunks cur]. simpl in *.
    unfold split_step. simpl.
    destruct (reached (cur ++ [n]) || bool_decide (n = (total - 1)%nat))
      eqn:Hflush; simpl.
    + split_and!.
      * rewrite concat_app. simpl. rewrite !app_nil_r, app_assoc.
        by rewrite Hcat.
      * apply Forall_app. split; [done|]. apply Forall_singleton.
        by destruct cur.
      * by intros p ->%prefix_nil_inv.
      * intros c [Hc|Hc]%elem_of_app; [by apply Hpre|].
        apply list_elem_of_singleton in Hc as ->.
        intros p [k Hk] Hp Hpc. apply Hcur; [|done].
        destruct (decide (k = [])) as [->|Hk'].
        { rewrite app_nil_r in Hk. by subst. }
        destruct (exists_last Hk') as (k' & x & ->).
        rewrite app_assoc in Hk. apply app_inj_tail in Hk as [-> _].
        by apply prefix_app_r.
      * destruct (decide (S n = total)) as [Hlast|Hlast].
        -- split; [done|]. by rewrite removelast_last.
        -- apply Forall_app. split; [done|]. apply Forall_singleton.
           apply orb_true_iff in Hflush as [?|Hb]; [done|].
           apply bool_decide_eq_true in Hb. lia.
    + apply orb_false_iff in Hflush as [Hr Hb].
      apply bool_decide_eq_false in Hb.
      split_and!; try done.
      * by rewrite app_assoc, Hcat.
      * intros p [k Hk] Hp.
        destruct (decide (k = [])) as [->|Hk'].
        { rewrite app_nil_r in Hk. by subst. }
        destruct (exists_last Hk') as (k' & x & ->).
        rewrite app_assoc in Hk. apply app_inj_tail in Hk as [-> _].
        apply Hcur; [|done]. by apply prefix_app_r.
      * rewrite decide_False by lia. done.
Qed.

End split.

(** X20. [splitPdfBuffer] deals out every page exactly once and in order:
    the chunks, joined, are the pages [0 .. total-1] of the source, and no
    chunk is empty, whatever the sizes and the limit. *)
Theorem splitPdfBuffer_partitions
    (saved_length : list nat → Z) (total : nat) (maxChunkBytes : jsnum) :
  concat (splitPdfBuffer saved_length total maxChunkBytes) = seq 0 total
  ∧ Forall (λ c, c ≠ []) (splitPdfBuffer saved_length total maxChunkBytes).
Proof.
  destruct (split_loop saved_length total maxChunkBytes total)
    as (Hcat & Hne & _ & _ & Hend); [done|].
  rewrite decide_True in Hend by done. destruct Hend as [Hcur _].
  unfold splitPdfBuffer. rewrite Hcur, app_nil_r in Hcat. done.
Qed.

(** X21. [maxChunkBytes] is where a chunk is closed, not a bound on its
    size: every chunk but the last has reached [maxChunkBytes], and each
    chunk was closed at the first page that took it there, so a chunk
    without its last page is always below the limit. *)
Theorem splitPdfBuffer_closes_at_limit
    (saved_length : list nat → Z) (total : nat) (maxChunkBytes : jsnum) :
  let chunks := splitPdfBuffer saved_length total maxChunkBytes in
  Forall (λ c, Js.ge (Num (saved_length c)) maxChunkBytes = true)
    (removelast chunks)
  ∧ ∀ c, c ∈ chunks →
      ∀ p, p `prefix_of` c → p ≠ [] → p ≠ c →
           Js.ge (Num (saved_length p)) maxChunkBytes = false.
Proof.
  destruct (split_loop saved_length total maxChunkBytes total)
    as (_ & _ & _ & Hpre & Hend); [done|].
  rewrite decide_True in Hend by done. destruct Hend as [_ Hfront].
  by split.
Qed.

(** ** The sweep leaves no empty folder *)

Lemma children_keep (t1 t2 : tree) d :
  wf t1 → wf t2 →
  Fs.children t1 d ≠ [] →
  (∀ x, Fs.find t2 (d ++ [x]) = Fs.find t1 (d ++ [x])) →
  Fs.children t2 d ≠ [].
Proof.
  intros Hwf1 Hwf2 Hne Hsame Hnil. apply Hne. apply FsFacts.children_nil.
  intros c n Hin. apply (wf_find_elem t1 Hwf1) in Hin.
  rewrite <- Hsame in Hin. apply (wf_find_elem t2 Hwf2) in Hin.
  by eapply FsFacts.children_nil in Hnil.
Qed.

Lemma children_sub_nil (t' t : tree) d :
  wf t' → sub t' t → Fs.children t d = [] → Fs.children t' d = [].
Proof.
  intros Hwf Hsub Hnil. apply FsFacts.children_nil. intros c n Hin.
  apply (wf_find_elem t' Hwf), Hsub, FsFacts.find_Some_elem in Hin.
  by eapply FsFacts.children_nil in Hnil.
Qed.

Lemma two_children_prefix (D : path) c c' k :
  D ++ [c] `prefix_of` k → D ++ [c'] `prefix_of` k → c = c'.
Proof.
  intros H1 H2. destruct (prefix_weak_total _ _ _ H1 H2) as [H|H];
    apply snoc_prefix_eq in H; done.
Qed.

(** [safeDelete] leaves alone what lies deeper than the file's folder. *)
Lemma safeDelete_disk_deep (D : path) b (t : tree) k :
  wf t → Path.norm D = D → b ≠ "" → (S (length D) < length k)%nat →
  Fs.find (safeDelete_disk (D ++ [b]) t) k = Fs.find t k.
Proof.
  intros Hwf HD Hb Hlen.
  pose proof (cw_safeDelete_disk (D ++ [b]) t Hwf) as Hcw.
  rewrite (norm_child D b HD Hb), !(norm_append_child D b HD Hb),
    (dirname_child D b HD Hb), HD in Hcw.
  destruct Hcw as (_ & _ & Hframe & _). apply Hframe. intros Hin.
  repeat (apply elem_of_cons in Hin as [->|Hin]);
    try (rewrite length_app in Hlen; simpl in Hlen); try lia.
  by apply elem_of_nil in Hin.
Qed.

(** What the sweep does to the disk at an entry that is not a
    directory. *)
Lemma purge_entry_file_disk walk now ttl dir e w :
  Dirent.isDirectory e = false →
  fs (exec (purge_entry walk now ttl dir e) w) = fs w
  ∨ fs (exec (purge_entry walk now ttl dir e) w)
    = safeDelete_disk (Path.join dir (Dirent.name e)) (fs w).
Proof.
  intros Hd. unfold purge_entry, exec. rewrite Hd.
  destruct (Dirent.isFile e); [|by left].
  destruct (_ || _); [by left|].
  destruct (purge_file_run now ttl (Path.join dir (Dirent.name e)) w)
    as (o & w' & Hrun & _ & _ & Hfs).
  rewrite Hrun. simpl. destruct (createdAt_of _ _ _) as [c|].
  - destruct Hfs as [_ ->]. destruct (Js.ge _ _); auto.
  - destruct Hfs as [_ ->]. auto.
Qed.

Section sweep_empty.
Context (t0 : tree) (now ttl : Z).
Hypothesis Hwf0 : wf t0.
Hypothesis Hnc0 : no_created_dir t0.

Local Abbreviation Inv := (sweep_inv t0 now ttl).

(** What the recursive call is assumed to achieve. *)
Local Abbreviation walk_tidies walk fuel :=
  (∀ dir' w st,
     Inv (fs w) → Fs.find (fs w) (Path.norm dir') = Some (Dir st) →
     (fuel + length (Path.norm dir') > depth t0)%nat →
     no_empty_below (Path.norm dir') (fs (exec (walk dir') w))).

Lemma ne_entry_step walk fuel dir ts e rest w1 w2 :
  walk_spec t0 now ttl walk fuel →
  walk_tidies walk fuel →
  Inv ts →
  (S fuel + length (Path.norm dir) > depth t0)%nat →
  entry_of ts dir e →
  sweep_loop t0 now ttl (Path.norm dir) ts (e :: rest) (fs w1) →
  purge_entry walk now ttl dir e w1 = (Ret (), w2) →
  sweep_loop t0 now ttl (Path.norm dir) ts rest (fs w2) →
  no_empty_at (Path.norm dir ++ [Dirent.name e]) (fs w2)
  ∧ ∀ c, no_empty_at (Path.norm dir ++ [c]) (fs w1) →
         no_empty_at (Path.norm dir ++ [c]) (fs w2).
Proof.
  intros Hrec Hne Hts Hfuel (m & Hm & Hjoin & Hname & Hisd & Hisf) Hl Hrun Hl2.
  assert (Path.norm (Path.norm dir) = Path.norm dir) as HnD
    by apply PathFacts.norm_idemp.
  set (D := Path.norm dir) in *. set (full := D ++ [Dirent.name e]) in *.
  pose proof Hl as [Hi Hsub Hframe Htodo Hswept].
  pose proof Hl2 as [Hi2 Hsub2 _ _ _].
  pose proof Hi as [Hwf1 _ _ _]. pose proof Hi2 as [Hwf2 _ _ _].
  pose proof Hts as [Hwfs _ _ _].
  destruct m as [s st|st]; simpl in Hisd.
  - (* not a directory *)
    pose proof (purge_entry_file_disk walk now ttl dir e w1 Hisd) as Hd.
    unfold exec in Hd. rewrite Hrun in Hd. simpl in Hd. split.
    + intros d st' Hp Hfd. exfalso. apply Hsub2 in Hfd.
      assert (d = full) as ->
        by (eapply (file_leaf_eq ts); [done|exact Hm|done|by eexists]).
      congruence.
    + intros c Hc. destruct Hd as [Hd|Hd]; [by rewrite Hd|].
      rewrite Hjoin in Hd. intros d st' Hp Hfd.
      destruct (cw_safeDelete_disk full (fs w1) Hwf1) as (_ & Hsubd & _ & _).
      eapply (children_keep (fs w1)); [done|done| |].
      * eapply Hc; [done|]. apply Hsubd. by rewrite <- Hd.
      * intros x. rewrite Hd. apply safeDelete_disk_deep; try done.
        destruct Hp as [r ->]. rewrite !length_app. simpl. lia.
  - (* a directory *)
    assert (Fs.find (fs w1) full = Some (Dir st)) as Hd1.
    { unfold full. rewrite Htodo; [done|apply list_elem_of_here|].
      left. by rewrite Hisd. }
    assert (Path.norm full = full) as Hnf
      by (eapply wf_find_norm; [apply Hi|done]).
    assert (fuel + length (Path.norm full) > depth t0)%nat as Hfuel'.
    { rewrite Hnf. unfold full. rewrite length_app. simpl. lia. }
    destruct (Hrec full w1 st) as (w1' & Hrunw & Hi1' & Hsubw & _ & Hframew);
      [done|by rewrite Hnf|done|].
    pose proof (Hne full w1 st Hi) as Hnb. rewrite Hnf in Hnb, Hframew.
    specialize (Hnb Hd1). rewrite Hnf in Hfuel'. specialize (Hnb Hfuel').
    unfold exec in Hnb. rewrite Hrunw in Hnb. simpl in Hnb.
    unfold purge_entry in Hrun. rewrite Hjoin, Hisd in Hrun.
    simpl in Hrun. unfold mbind, M_bind in Hrun. rewrite Hrunw in Hrun.
    destruct (clean_empty_dir_run full w1') as (o & w3 & Hrun3 & _ & _ & _ & Hrm).
    rewrite Hrun3 in Hrun. rewrite Hnf in Hrm. injection Hrun as -> ->.
    destruct (rm_if_empty (fs w1') full) as [t3|] eqn:Erm;
      [|by destruct Hrm].
    destruct Hrm as [_ Hfs].
    destruct (sweep_inv_clean t0 now ttl Hnc0 (fs w1') full t3 Hi1' Erm)
      as (_ & Hsub3 & Hframe3).
    assert (∀ k, ¬ full `prefix_of` k → Fs.find (fs w2) k = Fs.find (fs w1) k)
      as Hout.
    { intros k Hk. rewrite Hfs, Hframe3, Hframew; try done. by intros ->. }
    assert (no_empty_at full (fs w2)) as Ha.
    { intros d st' Hp Hfd. rewrite Hfs in *. unfold rm_if_empty in Erm.
      destruct (Fs.find (fs w1') full) as [[|st1]|] eqn:E; [done|..];
        injection Erm as <-.
      - case_bool_decide as Hch.
        + rewrite FsFacts.find_remove_rec in Hfd.
          by rewrite decide_True in Hfd.
        + destruct (decide (d = full)) as [->|Hneq]; [done|].
          by eapply Hnb.
      - destruct (decide (d = full)) as [->|Hneq]; [congruence|].
        by eapply Hnb. }
    split; [exact Ha|]. intros c Hc.
    destruct (decide (c = Dirent.name e)) as [->|Hce]; [exact Ha|].
    intros d st' Hp Hfd.
    eapply (children_keep (fs w1)); [done|done| |].
    + eapply Hc; [done|]. apply Hsubw, Hsub3. by rewrite <- Hfs.
    + intros x. apply Hout. intros Hpf. apply Hce.
      eapply two_children_prefix; [|exact Hpf].
      etrans; [exact Hp|]. by apply prefix_app_r.
Qed.

Lemma ne_loop_spec walk fuel dir ts :
  walk_spec t0 now ttl walk fuel →
  walk_tidies walk fuel →
  Inv ts →
  (S fuel + length (Path.norm dir) > depth t0)%nat →
  ∀ rest w1,
    NoDup (Dirent.name <$> rest) →
    (∀ e', e' ∈ rest → entry_of ts dir e') →
    sweep_loop t0 now ttl (Path.norm dir) ts rest (fs w1) →
    ∃ w', for_of rest (purge_entry walk now ttl dir) w1 = (Ret (), w')
          ∧ sweep_loop t0 now ttl (Path.norm dir) ts [] (fs w')
          ∧ ∀ c, no_empty_at (Path.norm dir ++ [c]) (fs w1)
                 ∨ c ∈ Dirent.name <$> rest →
                 no_empty_at (Path.norm dir ++ [c]) (fs w').
Proof.
  intros Hrec Hne Hts Hfuel rest.
  induction rest as [|e rest IH]; intros w1 Hnd Hfacts Hl.
  - exists w1. split; [done|]. split; [done|]. intros c [Hc|Hc]; [done|].
    by apply elem_of_nil in Hc.
  - destruct (purge_entry_step t0 now ttl Hwf0 Hnc0 walk fuel dir ts e rest w1)
      as (w2 & Hrun & Hl2); try done.
    destruct (ne_entry_step walk fuel dir ts e rest w1 w2) as [Ha Hb];
      try done.
    { apply Hfacts, list_elem_of_here. }
    destruct (IH w2) as (w' & Hrun' & Hl' & Hne'); try done.
    + by apply NoDup_cons in Hnd as [_ ?].
    + intros e' He'. by apply Hfacts, list_elem_of_further.
    + exists w'. split; [|split; [done|]].
      * simpl. unfold mbind, M_bind. by rewrite Hrun.
      * intros c [Hc|Hc].
        -- apply Hne'. left. by apply Hb.
        -- rewrite fmap_cons in Hc. apply elem_of_cons in Hc as [->|Hc];
             apply Hne'; [by left|by right].
Qed.

Lemma purge_walk_tidies fuel :
  walk_tidies (purge_walk fuel now ttl) fuel.
Proof.
  induction fuel as [|fuel IH]; intros dir w st Hi Hd Hfuel.
  - exfalso. pose proof Hi as [_ Hsub _ _].
    apply Hsub, FsFacts.find_Some_elem, depth_bound in Hd. lia.
  - pose proof Hi as [Hwf Hsub _ _].
    unfold exec. simpl. unfold mbind, M_bind. rewrite readdir_run, Hd.
    set (D := Path.norm dir) in *.
    set (es := Dirent.of_entry <$> Fs.children (fs w) D).
    destruct (ne_loop_spec (purge_walk fuel now ttl) fuel dir (fs w)
                (purge_walk_spec t0 now ttl Hwf0 Hnc0 fuel) IH Hi Hfuel es w)
      as (w' & Hrun & Hl & Hne).
    + unfold es. rewrite <- list_fmap_compose.
      by apply (wf_children_nodup (fs w)).
    + intros e He.
      destruct (entry_facts (fs w) dir e (wf_keys _ Hwf) He)
        as (m & Hin & Hjoin & Hname & Hisd & Hisf).
      exists m. split_and!; try done.
      rewrite <- Hjoin. by apply (wf_find_elem (fs w)).
    + split; try done; [apply sub_refl|].
      intros f Hf [r ->] Hexp.
      destruct (Fs.find (fs w) (D ++ r)) as [m|] eqn:E; [|by left]. right.
      destruct r as [|c r].
      * rewrite app_nil_r in *. destruct Hf as (? & ? & Hf0 & _).
        apply Hsub in Hd. unfold D in Hd. congruence.
      * destruct (wf_child_present (fs w) Hwf D c r m E) as [m' Hm'].
        exists (Dirent.of_entry (c, m')). split.
        -- unfold es. apply list_elem_of_fmap_2.
           by apply FsFacts.elem_children, (wf_find_elem (fs w)).
        -- simpl. exists r. by rewrite <- app_assoc.
    + rewrite Hrun. simpl. destruct Hl as [[Hwf' _ _ _] Hsub' _ _ _].
      intros d st' [r ->] Hneq Hfd.
      destruct r as [|c r]; [by rewrite app_nil_r in Hneq|].
      destruct (wf_child_present (fs w') Hwf' D c r _ Hfd) as [m' Hm'].
      apply (Hne c) with (st := st'); [right| |done].
      * apply list_elem_of_fmap. exists (Dirent.of_entry (c, m')).
        split; [done|]. unfold es. apply list_elem_of_fmap_2.
        by apply FsFacts.elem_children, (wf_find_elem (fs w)), Hsub'.
      * exists r. by rewrite <- app_assoc.
Qed.

End sweep_empty.

(** X22. When the outputs root is a directory of a well-formed disk on
    which no directory is named like a [.created] marker, a TTL sweep
    returns and leaves no empty directory strictly below the root: every
    directory still there below the root has an entry. In particular a
    directory below the root that was empty when the sweep began is
    gone. *)
Theorem purgeOlderThan_leaves_no_empty_directory
    (outputsRoot : path) (ttlMs : Z) (w : world) rst :
  wf (fs w) →
  no_created_dir (fs w) →
  Fs.find (fs w) (Path.norm outputsRoot) = Some (Dir rst) →
  ∃ w', purgeOlderThan outputsRoot ttlMs w = (Ret (), w')
        ∧ no_empty_below (Path.norm outputsRoot) (fs w')
        ∧ ∀ d st, Path.norm outputsRoot `prefix_of` d →
                  d ≠ Path.norm outputsRoot →
                  Fs.find (fs w) d = Some (Dir st) →
                  Fs.children (fs w) d = [] →
                  Fs.find (fs w') d = None.
Proof.
  intros Hwf Hnc Hroot.
  destruct (purge_walk_spec (fs w) (clock w) ttlMs Hwf Hnc (S (depth (fs w)))
              outputsRoot w rst)
    as (w' & Hrun & Hi & Hsub & _ & _);
    [by apply sweep_inv_start|done|lia|].
  pose proof (purge_walk_tidies (fs w) (clock w) ttlMs Hwf Hnc
                (S (depth (fs w))) outputsRoot w rst) as Hne.
  unfold exec in Hne. rewrite Hrun in Hne. simpl in Hne.
  assert (no_empty_below (Path.norm outputsRoot) (fs w')) as Hne'
    by (apply Hne; [by apply sweep_inv_start|done|lia]).
  exists w'. split_and!.
  - unfold purgeOlderThan, mbind, M_bind, fs.existsSync, Date_now, fuelled.
    by rewrite Hroot.
  - done.
  - intros d st Hp Hd Hfd Hch. pose proof Hi as [Hwf' _ _ _].
    destruct (Fs.find (fs w') d) as [[s' st'|st']|] eqn:E; [| |done].
    + apply Hsub in E. congruence.
    + exfalso. eapply Hne'; [done|done|exact E|].
      by eapply children_sub_nil.
Qed.

Lemma purgeOlderThan_leaves_no_empty_directory_witness :
  let now := 1000 + ONE_DAY in
  let w := boot disk_folders now in
  wf (fs w)
  ∧ no_created_dir (fs w)
  ∧ ∃ w', purgeOlderThan ["outputs"] ONE_DAY w = (Ret (), w')
          ∧ no_empty_below ["outputs"] (fs w')
          ∧ Fs.find (fs w') ["outputs"; "R0"] = None
          ∧ Fs.find (fs w') ["outputs"; "R1"; "tmp"] = None.
Proof.
  intros now w.
  assert (wf (fs w)) as Hwf by (apply wf_check_sound; vm_compute; reflexivity).
  assert (no_created_dir (fs w)) as Hnc
    by (apply no_created_dir_check_sound; vm_compute; reflexivity).
  split; [exact Hwf|]. split; [exact Hnc|].
  destruct (purgeOlderThan_leaves_no_empty_directory ["outputs"] ONE_DAY w st0
              Hwf Hnc)
    as (w' & Hrun & Hne & Hgone); [reflexivity|].
  exists w'. split; [exact Hrun|]. split; [exact Hne|]. split.
  - apply (Hgone _ st0); [by eexists|done|reflexivity|reflexivity].
  - apply (Hgone _ st0); [by eexists|done|reflexivity|reflexivity].
Defined.

(** ** A sweep with nothing to do *)

Lemma purge_file_idle now ttl full w :
  expired (fs w) now ttl full = false →
  is_Some (createdAt_of (fs w) now full) →
  purge_file now ttl full w = (Ret (), w).
Proof.
  intros He [c Hc]. unfold expired in He. rewrite Hc in He.
  unfold purge_file. unfold createdAt_of in Hc. run.
  all: simplify_eq; try (by rewrite He).
Qed.

Lemma clean_empty_dir_idle full w st :
  Fs.find (fs w) (Path.norm full) = Some (Dir st) →
  Fs.children (fs w) (Path.norm full) ≠ [] →
  clean_empty_dir full w = (Ret (), w).
Proof.
  intros Hd Hch. unfold clean_empty_dir. run. rewrite !length_fmap.
  case_bool_decide as Hl; [|done]. by destruct (Fs.children _ _).
Qed.

Section idle.
Context (now ttl : Z).

Lemma purge_walk_idle fuel : ∀ dir w st,
  wf (fs w) → no_created_dir (fs w) →
  Fs.find (fs w) (Path.norm dir) = Some (Dir st) →
  (fuel + length (Path.norm dir) > depth (fs w))%nat →
  (∀ f, candidate (fs w) f → Path.norm dir `prefix_of` f →
        expired (fs w) now ttl f = false) →
  no_empty_below (Path.norm dir) (fs w) →
  purge_walk fuel now ttl dir w = (Ret (), w).
Proof.
  induction fuel as [|fuel IH]; intros dir w st Hwf Hnc Hd Hfuel Hfresh Hne.
  - exfalso. apply FsFacts.find_Some_elem, depth_bound in Hd. lia.
  - simpl. unfold mbind, M_bind. rewrite readdir_run, Hd.
    set (D := Path.norm dir) in *.
    set (es := Dirent.of_entry <$> Fs.children (fs w) D).
    assert (∀ rest, (∀ e, e ∈ rest → e ∈ es) →
              for_of rest (purge_entry (purge_walk fuel now ttl) now ttl dir) w
              = (Ret (), w)) as Hloop; [|by apply Hloop].
    induction rest as [|e rest IHrest]; intros Hin; [done|].
    simpl. unfold mbind, M_bind.
    assert (purge_entry (purge_walk fuel now ttl) now ttl dir e w = (Ret (), w))
      as ->.
    2:{ apply IHrest. intros e' He'. by apply Hin, list_elem_of_further. }
    destruct (entry_facts (fs w) dir e (wf_keys _ Hwf))
      as (m & Hm & Hjoin & Hname & Hisd & Hisf);
      [apply Hin, list_elem_of_here|].
    apply (wf_find_elem (fs w) Hwf) in Hm. rewrite Hjoin in Hm.
    fold D in Hjoin, Hm. set (full := D ++ [Dirent.name e]) in *.
    assert (Path.norm full = full) as Hnf by (by eapply wf_find_norm).
    unfold purge_entry. rewrite Hjoin, Hisd, Hisf.
    destruct m as [s fst|dst]; simpl.
    + (* a regular file *)
      destruct (marker_named (Dirent.name e)) eqn:Hmn;
        unfold marker_named in Hmn; rewrite Hmn; cbn beta iota;
        fold (marker_named (Dirent.name e)) in Hmn; [done|].
      apply purge_file_idle.
      * apply Hfresh; [|by eexists]. exists s, fst. split; [done|].
        unfold full. by rewrite PathFacts.last_snoc.
      * unfold createdAt_of. rewrite Hnf, Hm.
        destruct (Fs.find (fs w) (Path.norm (Path.append full MARKER_CREATED)))
          as [[]|] eqn:E; [by eexists| |by eexists].
        exfalso. by eapply (created_marker_not_dir (fs w) Hnc (fs w));
          [apply sub_refl|].
    + (* a directory *)
      assert (D `prefix_of` full) as Hpf by (by eexists).
      assert (full ≠ D) as Hfne by apply snoc_ne_self.
      unfold mbind, M_bind. rewrite (IH full w dst); try done.
      * apply (clean_empty_dir_idle full w dst); rewrite Hnf; [done|].
        by eapply Hne.
      * by rewrite Hnf.
      * rewrite Hnf. unfold full. rewrite length_app. simpl. lia.
      * rewrite Hnf. intros f Hf Hp. apply Hfresh; [done|]. by etrans.
      * rewrite Hnf. intros d st' Hp Hdne. apply Hne; [by etrans|].
        intros ->. apply Hfne. by apply (anti_symm prefix).
Qed.

End idle.

Lemma purgeOlderThan_idle (outputsRoot : path) (ttlMs : Z) (w : world) rst :
  wf (fs w) → no_created_dir (fs w) →
  Fs.find (fs w) (Path.norm outputsRoot) = Some (Dir rst) →
  (∀ f, candidate (fs w) f → Path.norm outputsRoot `prefix_of` f →
        expired (fs w) (clock w) ttlMs f = false) →
  no_empty_below (Path.norm outputsRoot) (fs w) →
  purgeOlderThan outputsRoot ttlMs w = (Ret (), w).
Proof.
  intros Hwf Hnc Hroot Hfresh Hne.
  unfold purgeOlderThan, mbind, M_bind, fs.existsSync, Date_now, fuelled.
  rewrite Hroot. cbn beta iota delta [negb].
  eapply (purge_walk_idle (clock w) ttlMs (S (depth (fs w)))); try done. lia.
Qed.

Lemma purge_walk_clock fuel now ttl dir w :
  clock (exec (purge_walk fuel now ttl dir) w) = clock w.
Proof.
  apply (purge_walk_preserves (λ w1, clock w1 = clock w) (λ _, True)
           (λ _, True)); try done.
  - by intros l w1.
  - intros d e _ _ _ w1 Hc.
    destruct (rmSync_run (Path.join d (Dirent.name e)) true w1)
      as (o & w' & H & _ & _ & _ & Hc' & _).
    unfold exec. rewrite H. simpl. congruence.
  - intros d e _ _ _ _ w1 Hc.
    destruct (safeDelete_run (Path.join d (Dirent.name e)) w1)
      as (w' & H & _ & _ & _ & _ & Hc').
    unfold exec. rewrite H. simpl. congruence.
Qed.

(** X23. A TTL sweep that finds nothing due changes nothing. At a time
    and for a [ttlMs] that are safe integers, when every regular file
    below the outputs root that is not named like a marker has times that
    are safe integers and a [.created] marker, if any, that is a plain
    stamp, and is younger than [ttlMs], and no directory below the root is
    empty, [purgeOlderThan] returns and leaves the whole world as it was:
    no file, marker or directory is removed or written, no timer is set or
    cleared, nothing is logged. *)
Theorem purgeOlderThan_nothing_due
    (outputsRoot : path) (ttlMs : Z) (w : world) rst :
  wf (fs w) →
  no_created_dir (fs w) →
  Fs.find (fs w) (Path.norm outputsRoot) = Some (Dir rst) →
  safe_integer (clock w) = true →
  safe_integer ttlMs = true →
  (∀ f s st, Fs.find (fs w) f = Some (File s st) →
             Path.norm outputsRoot `prefix_of` f →
             marker_named (List.last f "") = false →
             exact_created (fs w) f st = true
             ∧ clock w - effective_created (fs w) (clock w) f st < ttlMs) →
  no_empty_below (Path.norm outputsRoot) (fs w) →
  purgeOlderThan outputsRoot ttlMs w = (Ret (), w).
Proof.
  intros Hwf Hnc Hroot _ _ Hfresh Hne.
  eapply purgeOlderThan_idle; try done.
  intros f (s & st & Hf & Hmn) Hp.
  rewrite (expired_effective _ _ _ _ s st).
  - apply bool_decide_eq_false.
    destruct (Hfresh f s st Hf Hp Hmn) as [_ Hyoung]. lia.
  - by eapply wf_find_norm.
  - done.
  - intros st'. eapply created_marker_not_dir; [done|apply sub_refl].
Qed.

Lemma purgeOlderThan_nothing_due_witness :
  let w := boot disk_fresh (1000 + ONE_DAY) in
  wf (fs w)
  ∧ no_created_dir (fs w)
  ∧ no_empty_below ["outputs"] (fs w)
  ∧ purgeOlderThan ["outputs"] ONE_DAY w = (Ret (), w).
Proof.
  intros w.
  assert (wf (fs w)) as Hwf by (apply wf_check_sound; vm_compute; reflexivity).
  assert (no_created_dir (fs w)) as Hnc
    by (apply no_created_dir_check_sound; vm_compute; reflexivity).
  assert (no_empty_below ["outputs"] (fs w)) as Hne.
  { intros d st Hp Hd Hf. apply FsFacts.find_Some_elem in Hf.
    repeat (apply elem_of_cons in Hf as [Hf|Hf]); simplify_eq; try done.
    by apply elem_of_nil in Hf. }
  split; [exact Hwf|]. split; [exact Hnc|]. split; [exact Hne|].
  apply (purgeOlderThan_nothing_due ["outputs"] ONE_DAY w st0 Hwf Hnc);
    [reflexivity..| |exact Hne].
  intros f s st Hf Hp Hmn. apply FsFacts.find_Some_elem in Hf.
  repeat (apply elem_of_cons in Hf as [Hf|Hf]); simplify_eq; try done.
  by apply elem_of_nil in Hf.
Defined.

(** X24. A TTL sweep run twice in a row does the work once: when the
    outputs root is a directory of a well-formed disk on which no
    directory is named like a [.created] marker, [purgeOlderThan]
    returns, and a second call on the world it left returns with that
    world unchanged. *)
Theorem purgeOlderThan_idempotent
    (outputsRoot : path) (ttlMs : Z) (w : world) rst :
  wf (fs w) →
  no_created_dir (fs w) →
  Fs.find (fs w) (Path.norm outputsRoot) = Some (Dir rst) →
  ∃ w1, purgeOlderThan outputsRoot ttlMs w = (Ret (), w1)
        ∧ purgeOlderThan outputsRoot ttlMs w1 = (Ret (), w1).
Proof.
  intros Hwf Hnc Hroot.
  destruct (purge_walk_spec (fs w) (clock w) ttlMs Hwf Hnc (S (depth (fs w)))
              outputsRoot w rst)
    as (w1 & Hrun & Hi & Hsub & Hswept & _);
    [by apply sweep_inv_start|done|lia|].
  pose proof (purge_walk_tidies (fs w) (clock w) ttlMs Hwf Hnc
                (S (depth (fs w))) outputsRoot w rst) as Hne.
  pose proof (purge_walk_clock (S (depth (fs w))) (clock w) ttlMs
                outputsRoot w) as Hclock.
  unfold exec in Hne, Hclock. rewrite Hrun in Hne, Hclock. simpl in Hne, Hclock.
  assert (no_empty_below (Path.norm outputsRoot) (fs w1)) as Hne'
    by (apply Hne; [by apply sweep_inv_start|done|lia]).
  pose proof Hi as [Hwf1 _ _ _].
  exists w1. split.
  { unfold purgeOlderThan, mbind, M_bind, fs.existsSync, Date_now, fuelled.
    by rewrite Hroot. }
  destruct (Fs.find (fs w1) (Path.norm outputsRoot)) as [[s st|st]|] eqn:E.
  - apply Hsub in E. congruence.
  - eapply purgeOlderThan_idle; try done.
    + intros k st' Hk. by apply Hsub, Hnc in Hk.
    + intros f Hf Hp. rewrite Hclock.
      assert (candidate (fs w) f) as Hc.
      { destruct Hf as (s & st' & Hf & Hmn). exists s, st'.
        split; [by apply Hsub|done]. }
      rewrite (expired_stable (fs w) (clock w) ttlMs Hnc (fs w1) f Hi Hc).
      * destruct (expired (fs w) (clock w) ttlMs f) eqn:Hexp; [|done].
        destruct Hf as (s & st' & Hf & _).
        by rewrite (Hswept f Hc Hp Hexp) in Hf.
      * destruct Hf as (s & st' & Hf & _). by eexists.
  - unfold purgeOlderThan, mbind, M_bind, fs.existsSync. by rewrite E.
Qed.

Lemma purgeOlderThan_idempotent_witness :
  let w := boot disk_folders (1000 + ONE_DAY) in
  wf (fs w)
  ∧ no_created_dir (fs w)
  ∧ ∃ w1, purgeOlderThan ["outputs"] ONE_DAY w = (Ret (), w1)
          ∧ purgeOlderThan ["outputs"] ONE_DAY w1 = (Ret (), w1).
Proof.
  intros w.
  assert (wf (fs w)) as Hwf by (apply wf_check_sound; vm_compute; reflexivity).
  assert (no_created_dir (fs w)) as Hnc
    by (apply no_created_dir_check_sound; vm_compute; reflexivity).
  split; [exact Hwf|]. split; [exact Hnc|].
  apply (purgeOlderThan_idempotent ["outputs"] ONE_DAY w st0 Hwf Hnc).
  reflexivity.
Defined.

(** ** Arming in any state the process reaches *)

Lemma sched_ok_activities l w : sched_ok w → sched_ok (run_activities l w).
Proof.
  revert w. induction l as [|a l IH]; intros w Hok; [done|].
  simpl. apply IH. by apply sched_ok_activity.
Qed.

Lemma timer_inv_scheduler_only l w :
  forallb scheduler_only l = true → timer_inv w →
  timer_inv (run_activities l w).
Proof.
  revert w. induction l as [|a l IH]; intros w Hall Hinv; [done|].
  simpl in Hall. apply andb_true_iff in Hall as [Ha Hl].
  simpl. apply IH; [done|]. destruct a as [o| |]; try done. simpl.
  destruct (run_op_inv o w Hinv) as (w1 & H & Hinv1).
  by rewrite (exec_eq _ _ _ _ H).
Qed.

Lemma filter_agree {A} (P Q : A → Prop)
    `{!∀ x, Decision (P x), !∀ x, Decision (Q x)} (l : list A) :
  (∀ x, x ∈ l → P x ↔ Q x) → filter P l = filter Q l.
Proof.
  induction l as [|x l IH]; intros Hiff; [done|].
  rewrite !filter_cons.
  rewrite IH by (intros y Hy; apply Hiff; by apply list_elem_of_further).
  destruct (decide (P x)) as [Hp|Hp], (decide (Q x)) as [Hq|Hq]; try done.
  - destruct Hq. apply Hiff; [apply list_elem_of_here|done].
  - destruct Hp. apply Hiff; [apply list_elem_of_here|done].
Qed.

Lemma filter_all {A} (P : A → Prop) `{!∀ x, Decision (P x)} (l : list A) :
  (∀ x, x ∈ l → P x) → filter P l = l.
Proof.
  induction l as [|x l IH]; intros Hall; [done|].
  rewrite filter_cons_True by (apply Hall, list_elem_of_here).
  f_equal. apply IH. intros y Hy. by apply Hall, list_elem_of_further.
Qed.

(** One call, from a state in which the map is sound: the recorded timer
    is cancelled, the timers the map had lost stay armed, and the new
    timer joins them. *)
Lemma scheduleDeletion_step p d w :
  sched_ok w →
  ∃ w', scheduleDeletion p d w = (Ret (), w')
        ∧ sched_ok w'
        ∧ timers w' !! p = Some (armed p d w)
        ∧ timers_for p w' = unrecorded p w ++ [armed p d w]
        ∧ unrecorded p w' = unrecorded p w
        ∧ (∀ q, q ≠ p → timers_for q w' = timers_for q w).
Proof.
  intros Hok. pose proof Hok as [Hk Hf Hnd].
  destruct (scheduleDeletion_run p d w) as (w' & H & Hp & Ht & Hn & _).
  cbv zeta in *. fold (armed p d w) in *.
  assert (sched_ok w') as Hok'.
  { rewrite <- (exec_eq _ _ _ _ H). by apply sched_ok_scheduleDeletion. }
  assert (timers_for p w' = unrecorded p w ++ [armed p d w]) as Hfor.
  { unfold timers_for, unrecorded. rewrite Hp, filter_app.
    rewrite (filter_cons_True _ (armed p d w)) by done. simpl. f_equal.
    destruct (timers w !! p) as [t0|] eqn:E.
    - unfold timers_for. rewrite list_filter_filter, list_filter_filter.
      apply filter_agree. intros t Hin. destruct (Hk p t0 E) as [Hp0 Hin0].
      split.
      + intros [Hpt Hid]. split; [|done]. intros [= ->]. done.
      + intros [Hne Hpt]. split; [done|]. intros Hid. apply Hne. f_equal.
        symmetry. by apply (tid_inj (pending w)).
    - unfold timers_for. rewrite list_filter_filter.
      apply filter_agree. intros t Hin. split; [by intros ?|by intros [_ ?]]. }
  exists w'. split_and!; try done.
  - rewrite Ht. apply lookup_insert_eq.
  - unfold unrecorded at 1. rewrite Hfor, Ht, lookup_insert_eq, filter_app.
    rewrite filter_cons, decide_False by (intros Hne; by apply Hne).
    rewrite filter_nil, app_nil_r. apply filter_all.
    intros t Hin [= <-]. unfold unrecorded, timers_for in Hin.
    apply list_elem_of_filter in Hin as [_ Hin].
    apply list_elem_of_filter in Hin as [_ Hin].
    specialize (Hf _ Hin). simpl in Hf. lia.
  - intros q Hq. unfold timers_for. rewrite Hp, filter_app.
    rewrite filter_cons, decide_False by (simpl; congruence).
    rewrite filter_nil, app_nil_r.
    destruct (timers w !! p) as [t0|] eqn:E; [|done].
    apply filter_filter_keep. intros t Hin Hpt.
    apply (sched_ok_others w p t0 t Hok E Hin). congruence.
Qed.

(** C1, amended. In any state the process reaches from start-up (by
    calls of the scheduler, timers firing, sweeps, hydrations, time passing
    and routes stamping artifacts), calling [scheduleDeletion] for [p] any
    number of times in succession never throws and leaves the map recording
    one timer [t] for [p], with the delay of the last call. Each call
    cancels the timer the map recorded for [p]; the armed timers for [p]
    are then [t] and those the map had lost before the calls, which stay
    armed. The timers of other paths are untouched. When only the scheduler
    was at work since start-up the map had lost none: exactly one timer is
    armed for [p], and at most one for any path. *)
Theorem scheduleDeletion_supersedes
    (acts : list activity) (t0 : tree) (now : Z)
    (p : path) (ds : list jsnum) (d : jsnum) :
  let w := run_activities acts (boot t0 now) in
  ∃ w' t,
    run_ops ((Arm p <$> ds) ++ [Arm p d]) w = (Ret (), w')
    ∧ timers w' !! p = Some t
    ∧ tpath t = p ∧ tdelay t = d
    ∧ timers_for p w' = unrecorded p w ++ [t]
    ∧ (∀ q, q ≠ p → timers_for q w' = timers_for q w)
    ∧ (forallb scheduler_only acts = true →
       timers_for p w' = [t] ∧ ∀ q, (length (timers_for q w') ≤ 1)%nat).
Proof.
  intros w.
  assert (sched_ok w) as Hok by apply sched_ok_activities, sched_ok_boot.
  assert (forallb scheduler_only acts = true → timer_inv w) as Hinv.
  { intros Hall. by apply timer_inv_scheduler_only, timer_inv_boot. }
  assert (∃ w' t,
    run_ops ((Arm p <$> ds) ++ [Arm p d]) w = (Ret (), w')
    ∧ timers w' !! p = Some t
    ∧ tpath t = p ∧ tdelay t = d
    ∧ timers_for p w' = unrecorded p w ++ [t]
    ∧ (∀ q, q ≠ p → timers_for q w' = timers_for q w)) as Hmain.
  { clear Hinv. generalize dependent w. clear acts.
    induction ds as [|d1 ds IH]; intros w Hok.
    - destruct (scheduleDeletion_step p d w Hok)
        as (w' & H & _ & Hmap & Hfor & _ & Hoth).
      exists w', (armed p d w). unfold run_ops. simpl.
      unfold mbind, M_bind, mret, M_ret. simpl. rewrite H. done.
    - destruct (scheduleDeletion_step p d1 w Hok)
        as (w1 & H & Hok1 & _ & _ & Hun & Hoth).
      destruct (IH w1 Hok1) as (w' & t & Hrun & Hmap & Hp & Hd & Hfor & Hoth').
      exists w', t. split_and!; try done.
      + unfold run_ops in *. simpl. unfold mbind, M_bind. simpl.
        by rewrite H.
      + by rewrite Hfor, Hun.
      + intros q Hq. by rewrite Hoth', Hoth. }
  destruct Hmain as (w' & t & Hrun & Hmap & Hp & Hd & Hfor & Hoth).
  exists w', t. split_and!; try done.
  intros Hall. specialize (Hinv Hall).
  assert (unrecorded p w = []) as Hnone.
  { apply filter_nil_iff. intros x [Hx Hin]%list_elem_of_filter Hne.
    apply Hne. rewrite <- Hx. by apply (inv_tracked w Hinv). }
  rewrite Hnone in Hfor. split; [done|]. intros q.
  destruct (decide (q = p)) as [->|Hq].
  - by rewrite Hfor.
  - rewrite Hoth by done. by apply timer_inv_at_most_one.
Qed.

Lemma scheduleDeletion_supersedes_witness :
  let a := ["outputs"; "R1"; "a.pdf"] in
  let b := ["outputs"; "R1"; "b.pdf"] in
  let acts := [Scheduler (Arm a (Num 600000)); Scheduler (Arm b (Num 600000));
               Scheduler (Cancel b); Scheduler (Arm b (Num 10))] in
  forallb scheduler_only acts = true
  ∧ ∃ w' t,
      run_ops ((Arm a <$> [Num 0; Num 600000]) ++ [Arm a (Num 250)])
        (run_activities acts (boot disk_two 5000))
      = (Ret (), w')
      ∧ timers w' !! a = Some t
      ∧ tdelay t = Num 250
      ∧ timers_for a w' = [t]
      ∧ (∀ q, (length (timers_for q w') ≤ 1)%nat).
Proof.
  intros a b acts. split; [reflexivity|].
  destruct (scheduleDeletion_supersedes acts disk_two 5000 a
              [Num 0; Num 600000] (Num 250))
    as (w' & t & Hrun & Hmap & _ & Hd & _ & _ & Hone).
  destruct (Hone eq_refl) as [Hfor Hmost].
  exists w', t. split; [exact Hrun|]. split; [exact Hmap|].
  split; [exact Hd|]. split; [exact Hfor|exact Hmost].
Defined.

(** C1 fails as stated: after a sweep deleted an artifact whose timer was
    armed, the map no longer records that timer; arming again for the same
    path leaves two armed timers for it. *)
Example sweep_then_arm_leaves_two_timers :
  let a := ["outputs"; "R1"; "a.pdf"] in
  let w := run_activities
             [Scheduler (Arm a (Num TEN_MIN));
              Housekeeping (Elapse ONE_DAY);
              Housekeeping (Sweep ["outputs"] ONE_DAY);
              Scheduler (Arm a (Num TEN_MIN))]
             (boot disk_one 1000) in
  timers_for a w
  = [ {| tid := 0; tpath := a; tdelay := Num TEN_MIN |};
      {| tid := 1; tpath := a; tdelay := Num TEN_MIN |} ]
  ∧ timers w !! a = Some {| tid := 1; tpath := a; tdelay := Num TEN_MIN |}.
Proof. vm_compute. done. Qed.

(** ** Hydration as a whole *)

(** ** Hydration reaches every marker *)

Lemma safeDelete_disk_dir p t st :
  Fs.find t (Path.norm p) = Some (Dir st) → safeDelete_disk p t = t.
Proof. intros H. unfold safeDelete_disk, rm_plain. by rewrite H. Qed.

Lemma safeDelete_disk_marker_gone p t c st s mst :
  Fs.find t (Path.norm p) = Some (File c st) →
  Fs.find t (Path.norm (Path.append p MARKER_DOWNLOADED)) = Some (File s mst) →
  Fs.find (safeDelete_disk p t) (Path.norm (Path.append p MARKER_DOWNLOADED))
  = None.
Proof.
  intros H Hm. unfold safeDelete_disk.
  assert (rm_plain t (Path.norm p) = Some (Fs.remove t (Path.norm p))) as ->.
  { unfold rm_plain. by rewrite H. }
  set (t1 := Fs.remove t (Path.norm p)).
  set (m := Path.norm (Path.append p MARKER_DOWNLOADED)) in *.
  assert (Fs.find t1 m = Some (File s mst)) as Hm1.
  { unfold t1. rewrite FsFacts.find_remove, decide_False; [done|].
    apply not_eq_sym, norm_append_ne, marker_downloaded_nonempty. }
  assert (rm_plain t1 m = Some (Fs.remove t1 m)) as ->.
  { unfold rm_plain. by rewrite Hm1. }
  assert (Fs.find (Fs.remove t1 m) m = None) as H2.
  { rewrite FsFacts.find_remove. by case_decide. }
  destruct (rm_plain _ _) as [t3|] eqn:E3; [|done].
  destruct (rm_if_empty t3 _) as [t4|] eqn:E4;
    eauto using rm_plain_mono, rm_if_empty_mono.
Qed.

Lemma wf_replace_file t q c st n :
  wf t → Fs.find t q = Some (File c st) → Fs.is_file n = true →
  wf (Fs.replace t q n).
Proof.
  intros [Hnd Hk Hp] Hq Hn. split.
  - by rewrite replace_keys.
  - intros k m Hin. apply (list_elem_of_fmap_2 fst) in Hin. simpl in Hin.
    rewrite replace_keys in Hin.
    apply list_elem_of_fmap in Hin as ([k' m'] & Heq & Hin). simpl in Heq.
    subst k'. by eapply Hk.
  - intros k m Hin Hne. apply (list_elem_of_fmap_2 fst) in Hin. simpl in Hin.
    rewrite replace_keys in Hin.
    apply list_elem_of_fmap in Hin as ([k' m'] & Heq & Hin). simpl in Heq.
    subst k'. destruct (Hp _ _ Hin Hne) as [dst Hd]. exists dst.
    rewrite FsFacts.find_replace. case_decide as E; [|done].
    rewrite <- E in Hd. congruence.
Qed.

Lemma kept_dir t0 now k st :
  kept_or_restamped t0 now k (Dir st) → Fs.find t0 k = Some (Dir st).
Proof. intros [?|(_ & _ & ?)]; done. Qed.

Lemma kept_present t0 now k m :
  kept_or_restamped t0 now k m → is_Some (Fs.find t0 k).
Proof. intros [?|(_ & (c & st & ?) & _)]; by eexists. Qed.

Lemma kept_plain t0 now k m :
  Str.endsWith (List.last k "") MARKER_DOWNLOADED = false →
  kept_or_restamped t0 now k m → Fs.find t0 k = Some m.
Proof. intros He [?|(? & _)]; [done|congruence]. Qed.

Lemma artifact_of_child (D : path) b :
  artifact_of (D ++ [b +:+ MARKER_DOWNLOADED]) = D ++ [b].
Proof.
  unfold artifact_of. rewrite <- (append_child D b MARKER_DOWNLOADED).
  apply slice_append_child.
Qed.

Section hydration.
Context (t0 : tree) (now delay : Z) (p0 : list Timeout) (n0 : nat) (R : path).
Hypothesis Hwf0 : wf t0.
Hypothesis HM : no_marker_of_marker R t0.

Local Abbreviation Inv := (hyd_inv t0 now p0 n0).
Local Abbreviation done_with := (handled t0 now delay n0).

(** Hydration of the marker [dir/b.downloaded], as it was at the start,
    with the artifact as it was if that is a regular file. *)
Lemma hyd_marker_step dir b w s st :
  let D := Path.norm dir in
  let n := b +:+ MARKER_DOWNLOADED in
  Inv w →
  Fs.find t0 (D ++ [n]) = Some (File s st) →
  Fs.find (fs w) (D ++ [n]) = Some (File s st) →
  (∀ c ast, Fs.find t0 (Path.norm (D ++ [b])) = Some (File c ast) →
            Fs.find (fs w) (Path.norm (D ++ [b])) = Some (File c ast)) →
  ∃ w', hydrate_marker delay (Path.join dir n) w = (Ret (), w')
        ∧ Inv w'
        ∧ done_with w' (D ++ [n])
        ∧ quiet w w'
        ∧ (∀ t, t ∈ pending w → tpath t ≠ D ++ [b] → t ∈ pending w')
        ∧ (∀ k, k ≠ D → k ≠ D ++ [b] → k ≠ D ++ [n] →
                k ≠ D ++ [b +:+ MARKER_CREATED] →
                Fs.find (fs w') k = Fs.find (fs w) k)
        ∧ (∀ k st', Fs.find (fs w) k = Some (Dir st') → k ≠ D →
                    Fs.find (fs w') k = Some (Dir st')).
Proof.
  intros D n Hi Hm0 Hm Ha.
  pose proof Hi as [Hclock Hwf Hsched Hdisk Hnext Harmed].
  assert (n ≠ "") as Hn by apply StrFacts.app_ne_empty, marker_downloaded_nonempty.
  assert (Str.endsWith n MARKER_DOWNLOADED = true) as He
    by apply StrFacts.endsWith_app.
  destruct (join_named dir n Hn) as (Hj & Hnj & Hdn & Hl & Hjne). fold D in Hj, Hnj, Hdn.
  assert (Path.norm D = D) as HnD by apply PathFacts.norm_idemp.
  set (a := D ++ [b]).
  assert (artifact_of (Path.join dir n) = a) as Hart
    by (rewrite Hj; apply artifact_of_child).
  assert (Path.norm (Path.append a MARKER_DOWNLOADED) = D ++ [n]) as Hmark.
  { unfold a. rewrite append_child. by apply norm_child. }
  destruct (wf_find_parent (fs w) Hwf _ _ _ Hm) as [dst HD].
  assert (∀ c ast, Fs.find (fs w) (Path.norm a) = Some (File c ast) →
            b ≠ "" ∧ Path.norm a = a
            ∧ Path.norm (Path.append a MARKER_CREATED)
              = D ++ [b +:+ MARKER_CREATED]
            ∧ Path.norm (Path.dirname a) = D) as Hfile.
  { intros c ast Hf. assert (b ≠ "") as Hb.
    { intros ->. unfold a in Hf. rewrite PathFacts.norm_snoc_empty, HnD in Hf.
      congruence. }
    unfold a. rewrite (norm_child D b HnD Hb), (dirname_child D b HnD Hb),
      (norm_append_child D b HnD Hb). done. }
  assert (Fs.find (fs w) (Path.norm a) ≠ None →
          is_Some (Fs.find t0 (Path.norm a))) as Hpres.
  { destruct (Fs.find (fs w) (Path.norm a)) as [na|] eqn:E; [|done].
    intros _. eapply kept_present, Hdisk, E. }
  assert (artifact_of (D ++ [n]) = a) as Hart' by apply artifact_of_child.
  rewrite hydrate_marker_run, Hart, Hnj.
  destruct (Fs.find (fs w) (Path.norm a)) as [na|] eqn:Ea.
  - (* the artifact path exists *)
    rewrite Hm, Hclock.
    destruct (Js.le (remaining_of delay now s) (Num 0)) eqn:Hle.
    + (* the grace period is over *)
      destruct (safeDelete_run a w) as (w' & Hrun & Hfs & Ht & Hp & Hnx & Hc).
      pose proof (sched_ok_safeDelete a w Hsched) as Hs'.
      pose proof (restamp_safeDelete t0 now a w (conj Hclock Hdisk)) as [_ Hd'].
      pose proof (cw_safeDelete_disk a (fs w) Hwf) as (Hwf' & Hsub & Hfr & Hdirs).
      unfold exec in Hs', Hd'. rewrite Hrun in Hs', Hd'. simpl in Hs', Hd'.
      rewrite <- Hfs in Hwf', Hsub, Hfr, Hdirs.
      exists w'. split; [done|]. split_and!.
      * split; try done; [congruence|lia|by rewrite Hp].
      * intros s' st' Hm0' _. rewrite Hart'. rewrite Hm0 in Hm0'.
        injection Hm0' as <- <-.
        destruct (Fs.find t0 (Path.norm a)) as [[c ast|dst']|] eqn:E0.
        -- rewrite Hle. specialize (Ha c ast E0). fold a in Ha.
           split.
           ++ rewrite Hfs. by eapply safeDelete_disk_file_gone.
           ++ rewrite Hfs, <- Hmark.
              eapply safeDelete_disk_marker_gone; [done|]. by rewrite Hmark.
        -- done.
        -- by destruct Hpres.
      * intros k Hk. rewrite Hfs. by apply safeDelete_disk_mono.
      * intros t Hin _. by rewrite Hp.
      * intros k H1 H2 H3 H4. destruct na as [c ast|dst'].
        -- destruct (Hfile c ast eq_refl) as (Hb & Hna & Hnc & Hnd).
           apply Hfr. rewrite Hna, Hmark, Hnc, Hnd. intros Hin.
           repeat (apply elem_of_cons in Hin as [Hin|Hin]); try done.
           by apply elem_of_nil in Hin.
        -- by rewrite Hfs, (safeDelete_disk_dir a (fs w) dst').
      * intros k st' Hk Hne. destruct na as [c ast|dst'].
        -- destruct (Hfile c ast eq_refl) as (Hb & Hna & Hnc & Hnd).
           apply Hdirs; [done|]. by rewrite Hnd.
        -- by rewrite Hfs, (safeDelete_disk_dir a (fs w) dst').
    + (* time remains: the timer is armed again *)
      set (r := remaining_of delay now s) in *.
      destruct (scheduleDeletion_run a r w)
        as (w' & Hrun & Hp & Ht & Hnx & Hc & Hfs).
      pose proof (sched_ok_scheduleDeletion a r w Hsched) as Hs'.
      pose proof (restamp_arm t0 now dir n r w s st He (conj Hclock Hdisk))
        as Hd'.
      rewrite Hnj, Hart in Hd'. specialize (Hd' Hm). destruct Hd' as [_ Hd'].
      unfold exec in Hs', Hd'. rewrite Hrun in Hs', Hd'. simpl in Hs', Hd'.
      cbv zeta in Hfs. rewrite Hmark, (write_file_ok _ _ _ _ _ Hm) in Hfs.
      set (new := {| tid := nextId w; tpath := a; tdelay := r |}) in *.
      assert (new ∈ pending w') as Hnew.
      { rewrite Hp. apply elem_of_app. right. apply list_elem_of_here. }
      exists w'. split; [done|]. split_and!.
      * split; try done.
        -- congruence.
        -- rewrite Hfs. by eapply wf_replace_file.
        -- lia.
        -- intros t. rewrite Hp. intros [Hin|Hin]%elem_of_app.
           ++ apply Harmed. destruct (timers w !! a); [|done].
              by apply list_elem_of_filter in Hin as [_ ?].
           ++ apply list_elem_of_singleton in Hin as ->. right. simpl.
              split; [done|]. by apply Hpres.
      * intros s' st' Hm0' _. rewrite Hart'. rewrite Hm0 in Hm0'.
        injection Hm0' as <- <-.
        destruct (Fs.find t0 (Path.norm a)) as [[c ast|dst']|] eqn:E0.
        -- fold r. rewrite Hle. exists new. by split_and!.
        -- done.
        -- by destruct Hpres.
      * intros k Hk. rewrite Hfs, FsFacts.find_replace.
        case_decide; by rewrite Hk.
      * intros t Hin Hne. rewrite Hp. apply elem_of_app. left.
        destruct (timers w !! a) as [tr|] eqn:Etr; [|done].
        apply list_elem_of_filter. split; [|done]. intros Heq.
        destruct (ok_key w Hsched a tr Etr) as [Hpath Hintr].
        apply Hne. rewrite <- Hpath. f_equal.
        by eapply (tid_inj (pending w)); [apply Hsched|..].
      * intros k _ _ H3 _. rewrite Hfs, FsFacts.find_replace.
        by rewrite decide_False.
      * intros k st' Hk _. rewrite Hfs, FsFacts.find_replace.
        case_decide as E; [|done]. subst k. congruence.
  - (* the artifact is missing: the marker is removed *)
    unfold fs.rmSync. rewrite Hnj, Hm. eexists. split; [done|]. simpl.
    split_and!.
    * split; simpl; try done.
      -- by eapply wf_remove_file.
      -- destruct Hsched as [H1 H2 H3]. by split.
      -- intros k m. rewrite FsFacts.find_remove. case_decide; [done|].
         apply Hdisk.
    * intros s' st' Hm0' _. rewrite Hart'. simpl.
      destruct (Fs.find t0 (Path.norm a)) as [[c ast|dst']|] eqn:E0.
      -- specialize (Ha c ast E0). fold a in Ha. congruence.
      -- done.
      -- rewrite FsFacts.find_remove. by case_decide.
    * intros k Hk. simpl. rewrite FsFacts.find_remove. by case_decide.
    * done.
    * intros k _ _ H3 _. simpl. rewrite FsFacts.find_remove.
      by rewrite decide_False.
    * intros k st' Hk _. simpl. rewrite FsFacts.find_remove.
      case_decide as E; [|done]. subst k. congruence.
Qed.

(** What hydration owes a marker stays true while nothing absent comes
    back and the timer for its artifact stays armed. *)
Lemma handled_stable m w w' :
  done_with w m → quiet w w' →
  (∀ s st c ast t,
     Fs.find t0 m = Some (File s st) →
     Str.endsWith (List.last m "") MARKER_DOWNLOADED = true →
     Fs.find t0 (Path.norm (artifact_of m)) = Some (File c ast) →
     t ∈ pending w → tpath t = artifact_of m → t ∈ pending w') →
  done_with w' m.
Proof.
  intros Hd Hq Ht s st Hm He. specialize (Hd s st Hm He).
  destruct (Fs.find t0 (Path.norm (artifact_of m))) as [[c ast|]|] eqn:E;
    [|done|by apply Hq].
  destruct (Js.le _ _).
  - destruct Hd. split; by apply Hq.
  - destruct Hd as (t & Hin & Hp & Hrest). exists t. split; [|done].
    by eapply Ht.
Qed.

(** A marker of [t0] is a child [b.downloaded] of its directory. *)
Lemma marker_split m s st :
  Fs.find t0 m = Some (File s st) →
  Str.endsWith (List.last m "") MARKER_DOWNLOADED = true →
  ∃ d b, m = d ++ [b +:+ MARKER_DOWNLOADED] ∧ artifact_of m = d ++ [b].
Proof.
  intros Hm He. destruct m as [|c m] using rev_ind; [done|].
  rewrite PathFacts.last_snoc in He.
  apply StrFacts.endsWith_inv in He as [b ->].
  exists m, b. split; [done|]. apply artifact_of_child.
Qed.

Local Abbreviation walk_ok walk fuel :=
  (∀ dir w st,
     Inv w → R `prefix_of` Path.norm dir →
     Fs.find (fs w) (Path.norm dir) = Some (Dir st) →
     (∀ k, Path.norm dir `prefix_of` k → Fs.find (fs w) k = Fs.find t0 k) →
     (fuel + length (Path.norm dir) > depth t0)%nat →
     ∃ w', walk dir w = (Ret (), w')
           ∧ Inv w'
           ∧ quiet w w'
           ∧ (∀ k, ¬ Path.norm dir `prefix_of` k →
                   Fs.find (fs w') k = Fs.find (fs w) k)
           ∧ (∀ t, t ∈ pending w → ¬ Path.norm dir `prefix_of` tpath t →
                   t ∈ pending w')
           ∧ (∀ m, Path.norm dir `prefix_of` m → done_with w' m)).

Lemma hyd_loop walk fuel dir :
  let D := Path.norm dir in
  walk_ok walk fuel →
  R `prefix_of` D →
  (S fuel + length D > depth t0)%nat →
  ∀ rest w,
    NoDup (Dirent.name <$> rest) →
    (∀ e, e ∈ rest → entry_of t0 dir e) →
    Inv w →
    (∀ e k, e ∈ rest → D ++ [Dirent.name e] `prefix_of` k →
            Dirent.isDirectory e = true
            ∨ Str.endsWith (Dirent.name e) MARKER_DOWNLOADED = true →
            Fs.find (fs w) k = Fs.find t0 k) →
    (∀ e b c ast, e ∈ rest → Dirent.isFile e = true →
                  Dirent.name e = b +:+ MARKER_DOWNLOADED →
                  Fs.find t0 (Path.norm (D ++ [b])) = Some (File c ast) →
                  Fs.find (fs w) (Path.norm (D ++ [b])) = Some (File c ast)) →
    (∀ m, D `prefix_of` m →
          (∀ e, e ∈ rest → ¬ D ++ [Dirent.name e] `prefix_of` m) →
          done_with w m) →
    ∃ w', for_of rest (hydrate_entry walk delay dir) w = (Ret (), w')
          ∧ Inv w'
          ∧ quiet w w'
          ∧ (∀ k, ¬ D `prefix_of` k → Fs.find (fs w') k = Fs.find (fs w) k)
          ∧ (∀ t, t ∈ pending w → ¬ D `prefix_of` tpath t → t ∈ pending w')
          ∧ (∀ m, D `prefix_of` m → done_with w' m).
Proof.
  intros D Hrec HR Hfuel rest.
  assert (Path.norm D = D) as HnD by apply PathFacts.norm_idemp.
  induction rest as [|e rest IH]; intros w Hnd Hfacts Hi Htodo Hart Hdone.
  { exists w. split; [done|]. split; [done|]. split; [by intros k|].
    split; [done|]. split; [done|].
    intros m Hm. apply Hdone; [done|]. intros e He. by apply elem_of_nil in He. }
  destruct (Hfacts e) as (me & Hme & Hjoin & Hname & Hisd & Hisf);
    [apply list_elem_of_here|].
  fold D in Hme, Hjoin.
  apply NoDup_cons in Hnd as [Hnotin Hnd].
  assert (∀ e', e' ∈ rest → Dirent.name e' ≠ Dirent.name e) as Hne.
  { intros e' He' E. apply Hnotin. rewrite <- E. by apply list_elem_of_fmap_2. }
  remember (Dirent.name e) as n eqn:En. set (full := D ++ [n]) in *.
  assert (Path.norm full = full) as Hnf by (by apply norm_child).
  assert (D `prefix_of` full) as HDf by (by eexists).
  pose proof Hi as [Hclock Hwf Hsched Hdisk Hnext Harmed].
  (* what is left to show once the entry [e] has been dealt with *)
  assert (∀ w1,
    Inv w1 → quiet w w1 →
    (∀ k, ¬ D `prefix_of` k → Fs.find (fs w1) k = Fs.find (fs w) k) →
    (∀ t, t ∈ pending w → ¬ D `prefix_of` tpath t → t ∈ pending w1) →
    (∀ e' k, e' ∈ rest → D ++ [Dirent.name e'] `prefix_of` k →
             Dirent.isDirectory e' = true
             ∨ Str.endsWith (Dirent.name e') MARKER_DOWNLOADED = true →
             Fs.find (fs w1) k = Fs.find (fs w) k) →
    (∀ e' b c ast, e' ∈ rest → Dirent.isFile e' = true →
                   Dirent.name e' = b +:+ MARKER_DOWNLOADED →
                   Fs.find t0 (Path.norm (D ++ [b])) = Some (File c ast) →
                   Fs.find (fs w1) (Path.norm (D ++ [b]))
                   = Fs.find (fs w) (Path.norm (D ++ [b]))) →
    (∀ m, D `prefix_of` m →
          (∀ e', e' ∈ rest → ¬ D ++ [Dirent.name e'] `prefix_of` m) →
          done_with w1 m) →
    ∃ w', for_of rest (hydrate_entry walk delay dir) w1 = (Ret (), w')
          ∧ Inv w'
          ∧ quiet w w'
          ∧ (∀ k, ¬ D `prefix_of` k → Fs.find (fs w') k = Fs.find (fs w) k)
          ∧ (∀ t, t ∈ pending w → ¬ D `prefix_of` tpath t → t ∈ pending w')
          ∧ (∀ m, D `prefix_of` m → done_with w' m)) as Hcont.
  { intros w1 Hi1 Hq1 Hfr1 Ht1 Htodo1 Hart1 Hdone1.
    destruct (IH w1) as (w' & Hrun & Hi' & Hq' & Hfr' & Ht' & Hd'); try done.
    - intros e' He'. by apply Hfacts, list_elem_of_further.
    - intros e' k He' Hp Hc. rewrite (Htodo1 e' k) by done.
      eapply Htodo; [by apply list_elem_of_further|done..].
    - intros e' b c ast He' Hf Hb H0. rewrite (Hart1 e' b c ast) by done.
      eapply Hart; [by apply list_elem_of_further|done..].
    - exists w'. split; [done|]. split_and!; try done.
      + intros k Hk. by apply Hq', Hq1.
      + intros k Hk. by rewrite Hfr', Hfr1.
      + intros t Hin Hp. apply Ht'; [|done].
        destruct (decide (t ∈ pending w1)) as [|Hnin]; [done|].
        destruct Hnin. by apply Ht1. }
  unfold for_of. fold (for_of rest (hydrate_entry walk delay dir)).
  unfold mbind, M_bind.
  unfold hydrate_entry at 1. rewrite <- En. cbv zeta. rewrite Hisd, Hisf.
  destruct me as [s st|dst]; simpl.
  - (* a regular file *)
    destruct (Str.endsWith n MARKER_DOWNLOADED) eqn:He.
    + (* a marker *)
      apply StrFacts.endsWith_inv in He as [b Hb].
      destruct (hyd_marker_step dir b w s st)
        as (w1 & Hrun & Hi1 & Hd1 & Hq1 & Ht1 & Hfr1 & Hdir1); try done.
      { fold D. by rewrite <- Hb. }
      { fold D. rewrite <- Hb. fold full. rewrite <- Hme.
        eapply Htodo; [apply list_elem_of_here|by rewrite <- En|].
        right. rewrite <- En, Hb. apply StrFacts.endsWith_app. }
      { intros c ast. eapply Hart; [apply list_elem_of_here|by rewrite Hisf|].
        by rewrite <- En. }
      fold D in Hrun, Hd1, Ht1, Hfr1, Hdir1. rewrite <- Hb in *.
      fold full in Hd1, Hfr1. rewrite Hrun.
      assert (marker_named b = false) as Hplain.
      { rewrite <- (StrFacts.slice_end_app b MARKER_DOWNLOADED), <- Hb.
        rewrite <- (PathFacts.last_snoc D n "").
        eapply HM; [exact Hme|by etrans|].
        rewrite PathFacts.last_snoc, Hb. apply StrFacts.endsWith_app. }
      assert (∀ k, D ++ [b] ≠ k → full ≠ k →
                   D ++ [b +:+ MARKER_CREATED] ≠ k → D ≠ k →
                   Fs.find (fs w1) k = Fs.find (fs w) k) as Hfr.
      { intros k ????. by apply Hfr1. }
      apply Hcont; try done.
      * intros k Hk. apply Hfr; intros <-; apply Hk; try done;
          by eexists.
      * intros t Hin Hp. apply Ht1; [done|]. intros E. apply Hp.
        rewrite E. by eexists.
      * intros e' k He' Hp Hc.
        destruct (Hfacts e') as (me' & Hme' & _ & Hname' & Hisd' & Hisf');
          [by apply list_elem_of_further|]. fold D in Hme'.
        destruct Hp as [r ->]. destruct r as [|x r].
        -- rewrite app_nil_r in *. destruct Hc as [Hc|Hc].
           ++ rewrite Hisd' in Hc. destruct me' as [|dst']; [done|].
              assert (Fs.find (fs w) (D ++ [Dirent.name e']) = Some (Dir dst'))
                as Hd'.
              { rewrite <- Hme'. eapply Htodo;
                  [by apply list_elem_of_further|done|]. left.
                by rewrite Hisd'. }
              rewrite Hd'. apply Hdir1; [done|]. apply snoc_ne_self.
           ++ apply StrFacts.endsWith_inv in Hc as [b' Hb']. apply Hfr.
              ** intros E%snoc_inj. rewrite E, Hb' in Hplain.
                 by rewrite marker_named_downloaded in Hplain.
              ** intros E%snoc_inj. by apply (Hne e').
              ** intros E%snoc_inj. rewrite Hb' in E.
                 by apply StrFacts.created_ne_downloaded in E.
              ** intros E. by apply symmetry, snoc_ne_self in E.
        -- apply Hfr; intros E; apply (f_equal length) in E;
             unfold full in E; rewrite ?length_app in E; simpl in E; lia.
      * intros e' b' c ast He' Hf Hb' H0.
        destruct (decide (b' = "")) as [->|Hb'ne].
        { exfalso. rewrite PathFacts.norm_snoc_empty, HnD in H0.
          destruct (wf_find_parent t0 Hwf0 _ _ _ Hme) as [? HD0]. congruence. }
        rewrite (norm_child D b' HnD Hb'ne). apply Hfr.
        -- intros E%snoc_inj. apply (Hne e' He'). by rewrite Hb, Hb', E.
        -- intros E%snoc_inj.
           destruct (Hfacts e') as (me' & Hme' & _ & _ & _ & Hisf');
             [by apply list_elem_of_further|]. fold D in Hme'.
           rewrite Hf in Hisf'. destruct me' as [s' st'|]; [|done].
           assert (marker_named b' = false) as Hplain'.
           { rewrite <- (StrFacts.slice_end_app b' MARKER_DOWNLOADED), <- Hb'.
             rewrite <- (PathFacts.last_snoc D (Dirent.name e') "").
             eapply HM; [exact Hme'| |].
             - etrans; [done|]. by eexists.
             - rewrite PathFacts.last_snoc, Hb'. apply StrFacts.endsWith_app. }
           rewrite <- E, Hb in Hplain'.
           by rewrite marker_named_downloaded in Hplain'.
        -- intros E%snoc_inj.
           destruct (Hfacts e') as (me' & Hme' & _ & _ & _ & Hisf');
             [by apply list_elem_of_further|]. fold D in Hme'.
           rewrite Hf in Hisf'. destruct me' as [s' st'|]; [|done].
           assert (marker_named b' = false) as Hplain'.
           { rewrite <- (StrFacts.slice_end_app b' MARKER_DOWNLOADED), <- Hb'.
             rewrite <- (PathFacts.last_snoc D (Dirent.name e') "").
             eapply HM; [exact Hme'| |].
             - etrans; [done|]. by eexists.
             - rewrite PathFacts.last_snoc, Hb'. apply StrFacts.endsWith_app. }
           rewrite <- E in Hplain'.
           by rewrite marker_named_created in Hplain'.
        -- intros E. by apply symmetry, snoc_ne_self in E.
      * intros m Hm Hrest.
        destruct (decide (full `prefix_of` m)) as [[r ->]|Hnp].
        -- destruct r as [|x r]; [by rewrite app_nil_r|].
           intros s' st' Hm' _.
           by rewrite (wf_file_leaf t0 Hwf0 full s st (x :: r)) in Hm'.
        -- eapply handled_stable; [|done|].
           ++ apply Hdone; [done|]. intros e' [->|He']%elem_of_cons;
                [by rewrite <- En|by apply Hrest].
           ++ intros s' st' c ast t Hm' He' Ha' Hin Hp. apply Ht1; [done|].
              intros E. rewrite Hp in E.
              destruct (marker_split m s' st' Hm' He') as (d' & b'' & -> & Hart'').
              rewrite Hart'' in E. apply app_inj_tail in E as [-> ->].
              apply Hnp. unfold full. by rewrite Hb.
    + (* any other file *)
      apply Hcont; try done; [by intros k|].
      intros m Hm Hrest.
      destruct (decide (full `prefix_of` m)) as [[r ->]|Hnp].
      * intros s' st' Hm' He'. destruct r as [|x r].
        -- rewrite app_nil_r in He'. unfold full in He'.
           rewrite PathFacts.last_snoc in He'. congruence.
        -- by rewrite (wf_file_leaf t0 Hwf0 full s st (x :: r)) in Hm'.
      * apply Hdone; [done|]. intros e' [->|He']%elem_of_cons;
          [by rewrite <- En|by apply Hrest].
  - (* a directory *)
    assert (Dirent.isDirectory e = true) as Hd by (by rewrite Hisd).
    assert (∀ k, full `prefix_of` k → Fs.find (fs w) k = Fs.find t0 k) as Hsame.
    { intros k Hk. eapply Htodo; [apply list_elem_of_here| |by left].
      by rewrite <- En. }
    destruct (Hrec (Path.join dir n) w dst)
      as (w1 & Hrun & Hi1 & Hq1 & Hfr1 & Ht1 & Hd1); try done.
    { rewrite Hjoin, Hnf. by etrans. }
    { rewrite Hjoin, Hnf, <- Hme. by apply Hsame. }
    { by rewrite Hjoin, Hnf. }
    { rewrite Hjoin, Hnf. unfold full. rewrite length_app. simpl. lia. }
    rewrite Hjoin, Hnf in Hfr1, Ht1, Hd1. rewrite Hrun.
    apply Hcont; try done.
    * intros k Hk. apply Hfr1. intros Hp. apply Hk. by etrans.
    * intros t Hin Hp. apply Ht1; [done|]. intros Hp'. apply Hp. by etrans.
    * intros e' k He' Hp _. apply Hfr1. intros Hp'.
      apply (Hne e' He'). by eapply two_children_prefix.
    * intros e' b' c ast He' Hf Hb' H0. apply Hfr1. intros Hp.
      destruct (decide (b' = "")) as [->|Hb'ne].
      -- rewrite PathFacts.norm_snoc_empty, HnD in Hp.
         by apply prefix_snoc_ne in Hp.
      -- rewrite (norm_child D b' HnD Hb'ne) in Hp, H0.
         apply snoc_prefix_eq in Hp. subst b'. unfold full in Hme. congruence.
    * intros m Hm Hrest.
      destruct (decide (full `prefix_of` m)) as [Hp|Hnp]; [by apply Hd1|].
      eapply handled_stable; [|done|].
      -- apply Hdone; [done|]. intros e' [->|He']%elem_of_cons;
           [by rewrite <- En|by apply Hrest].
      -- intros s' st' c ast t Hm' He' Ha' Hin Hp. apply Ht1; [done|].
         rewrite Hp.
         destruct (marker_split m s' st' Hm' He') as (d' & b'' & -> & Hart'').
         rewrite Hart'' in Ha' |- *.
         intros [E|Hp']%prefix_snoc_inv.
         ++ rewrite <- E, Hnf in Ha'. congruence.
         ++ apply Hnp. etrans; [done|]. by eexists.
Qed.

Lemma hyd_walk_ok fuel : walk_ok (hydrate_walk fuel delay) fuel.
Proof.
  induction fuel as [|fuel IH]; intros dir w st Hi HR Hd Hsame Hfuel.
  - exfalso. rewrite Hsame in Hd by done.
    apply FsFacts.find_Some_elem, depth_bound in Hd. lia.
  - pose proof Hi as [_ Hwf _ _ _ _].
    simpl. unfold mbind, M_bind. rewrite readdir_run, Hd.
    assert (Path.norm (Path.norm dir) = Path.norm dir) as HnD
      by apply PathFacts.norm_idemp.
    apply (hyd_loop (hydrate_walk fuel delay) fuel dir IH HR Hfuel); try done.
    + rewrite <- list_fmap_compose. by apply (wf_children_nodup (fs w)).
    + intros e He.
      destruct (entry_facts (fs w) dir e (wf_keys _ Hwf) He)
        as (m & Hin & Hjoin & Hname & Hisd & Hisf).
      exists m. split_and!; try done.
      rewrite <- Hsame by (by eexists). rewrite <- Hjoin.
      by apply (wf_find_elem (fs w)).
    + intros e k He Hp _. apply Hsame. etrans; [|done]. by eexists.
    + intros e b c ast He Hf Hb H0. rewrite Hsame; [done|].
      rewrite PathFacts.norm_app, HnD. by apply prefix_app_r.
    + intros m [r ->] Hrest s' st' Hm' He'. exfalso.
      rewrite <- Hsame in Hm' by (by eexists). destruct r as [|c r].
      * rewrite app_nil_r in Hm'. congruence.
      * destruct (wf_child_present (fs w) Hwf _ c r _ Hm') as [m' Hc].
        apply (Hrest (Dirent.of_entry (c, m'))).
        -- apply list_elem_of_fmap_2, FsFacts.elem_children.
           by apply (wf_find_elem (fs w)).
        -- simpl. exists r. by rewrite <- app_assoc.
Qed.

End hydration.

Lemma purge_walk_pending fuel now ttl dir w :
  pending (exec (purge_walk fuel now ttl dir) w) = pending w.
Proof.
  apply (purge_walk_preserves (λ w1, pending w1 = pending w) (λ _, True)
           (λ _, True)); try done.
  - by intros l w1.
  - intros d e _ _ _ w1 Hc.
    destruct (rmSync_run (Path.join d (Dirent.name e)) true w1)
      as (o & w' & H & _ & Hc' & _).
    unfold exec. rewrite H. simpl. congruence.
  - intros d e _ _ _ _ w1 Hc.
    destruct (safeDelete_run (Path.join d (Dirent.name e)) w1)
      as (w' & H & _ & _ & Hc' & _).
    unfold exec. rewrite H. simpl. congruence.
Qed.

(** The sweep that closes hydration returns, removes at most, and leaves
    the timers alone. *)
Lemma closing_sweep root ttl w :
  wf (fs w) → no_created_dir (fs w) →
  (∀ s st, Fs.find (fs w) (Path.norm root) ≠ Some (File s st)) →
  ∃ w', purgeOlderThan root ttl w = (Ret (), w')
        ∧ sub (fs w') (fs w)
        ∧ pending w' = pending w.
Proof.
  intros Hwf Hnc Hroot.
  unfold purgeOlderThan, mbind, M_bind, fs.existsSync, Date_now, fuelled.
  destruct (Fs.find (fs w) (Path.norm root)) as [[s st|st]|] eqn:E.
  - by destruct (Hroot s st).
  - simpl.
    destruct (purge_walk_spec (fs w) (clock w) ttl Hwf Hnc (S (depth (fs w)))
                root w st)
      as (w' & Hrun & _ & Hsub & _); [by apply sweep_inv_start|done|lia|].
    pose proof (purge_walk_pending (S (depth (fs w))) (clock w) ttl root w)
      as Hp.
    unfold exec in Hp. rewrite Hrun in Hp. by exists w'.
  - simpl. exists w. split; [done|]. split; [apply sub_refl|done].
Qed.

(** Hydration as a whole: on a well-formed disk where no directory is
    named like a [.created] marker and no [.downloaded] marker stands for
    a file named like a marker, with a sound scheduler, [hydrateFromDisk]
    returns, has dealt with every marker below the root, and has armed
    timers only for paths that were on disk. *)
Lemma hydrateFromDisk_spec root delay ttl w rst :
  wf (fs w) → no_created_dir (fs w) → sched_ok w →
  no_marker_of_marker (Path.norm root) (fs w) →
  Fs.find (fs w) (Path.norm root) = Some (Dir rst) →
  ∃ w', hydrateFromDisk root delay ttl w = (Ret (), w')
        ∧ (∀ m, Path.norm root `prefix_of` m →
                handled (fs w) (clock w) delay (nextId w) w' m)
        ∧ (∀ t, t ∈ pending w' →
                t ∈ pending w
                ∨ ((nextId w ≤ tid t)%nat
                   ∧ is_Some (Fs.find (fs w) (Path.norm (tpath t)))))
        ∧ quiet w w'.
Proof.
  intros Hwf Hnc Hs HM Hroot.
  unfold hydrateFromDisk, logger.info, logger.emit.
  unfold mbind at 1, M_bind at 1.
  set (wl := with_log _ w).
  unfold mbind at 1, M_bind at 1, fs.existsSync.
  change (fs wl) with (fs w). rewrite Hroot. simpl.
  unfold mbind at 1, M_bind at 1, fuelled. change (fs wl) with (fs w).
  destruct (hyd_walk_ok (fs w) (clock w) delay (pending w) (nextId w)
              (Path.norm root) Hwf HM (S (depth (fs w))) root wl rst)
    as (w1 & Hrun & Hi1 & Hq1 & _ & _ & Hd1); try done.
  { split; try done.
    - by apply sched_ok_log.
    - intros k m Hk. by left.
    - intros t Ht. by left. }
  { lia. }
  rewrite Hrun. destruct Hi1 as [Hc1 Hwf1 Hs1 Hdisk1 Hn1 Ha1].
  destruct (closing_sweep root ttl w1) as (w2 & Hrun2 & Hsub2 & Hp2).
  - done.
  - intros k st Hk. apply Hdisk1, kept_dir in Hk. by eapply Hnc.
  - intros s st Hk. apply Hdisk1 in Hk as [Hk|(_ & (c & st' & Hk) & _)];
      congruence.
  - exists w2. split; [done|]. split.
    + intros m Hm.
      eapply (handled_stable (fs w) (clock w) delay (nextId w) m w1 w2);
        [by apply Hd1| |].
      * intros k Hk. by eapply sub_absent.
      * intros. by rewrite Hp2.
    + split; [intros t; rewrite Hp2; apply Ha1|].
      intros k Hk. eapply sub_absent; [done|]. by apply Hq1.
Qed.

Lemma no_marker_of_marker_check_sound root t :
  no_marker_of_marker_check t = true → no_marker_of_marker root t.
Proof.
  unfold no_marker_of_marker_check. rewrite forallb_forall.
  intros Hall k s st Hin%FsFacts.find_Some_elem%list_elem_of_In _ He.
  apply Hall in Hin. simpl in Hin. rewrite He in Hin.
  by destruct (marker_named _).
Qed.






